(** * Verification of the browser orchestration core of the website audit API

    The development embeds, function by function, the parts of
    [services/browser.ts], [services/auditor.ts], [services/validator.ts],
    [services/parser.ts] and [utils/helpers.ts] that bound concurrency,
    retry page loads, split tall screenshots, sweep old screenshot files
    and assemble the audit result, and proves the properties the
    specification states about them.

    The first part is the model: data, the effect monad, and one
    definition per function of the source.  The second part states and
    proves the properties. *)

From stdpp Require Import gmap strings list fin_maps.
From Stdlib Require Import ZArith QArith Qround Lia Lqa.

Local Open Scope Z_scope.

(** ** The concurrency limiter of [BrowserService]

    [acquireSlot] and [releaseSlot] only touch three fields of the
    service: [maxConcurrentPages], [currentSlots] and [queue].  The
    body of the promise executor and the body of [releaseSlot] run to
    completion without suspension (single-threaded event loop), so each
    call is one atomic step on these fields.

    The queue holds closures [() => { currentSlots += 1; resolve() }].
    A closure is identified here by the ticket of the [acquireSlot] call
    that created it: tickets number the calls in arrival order.  Two
    ghost fields record what the code does with the promises: [issued]
    counts the calls, [resolved] lists the tickets whose promise has
    been resolved, in the order of resolution. *)

Record BrowserSlots := mkSlots {
  maxConcurrentPages : Z;
  currentSlots : Z;
  queue : list nat;
  resolved : list nat;
  issued : nat
}.

(** [Number(process.env.X) || dflt]: an unset or non-numeric variable is
    [NaN], which like [0] is falsy. *)
Definition number_or (env : option Z) (dflt : Z) : Z :=
  match env with
  | Some v => if v =? 0 then dflt else v
  | None => dflt
  end.

Definition newSlots (env : option Z) : BrowserSlots :=
  mkSlots (number_or env 2) 0 [] [] 0.

(** The queued closure: [this.currentSlots += 1; resolve()]. *)
Definition run_resolver (t : nat) (s : BrowserSlots) : BrowserSlots :=
  mkSlots (maxConcurrentPages s) (currentSlots s + 1) (queue s)
          (resolved s ++ [t]) (issued s).

Definition acquireSlot (s : BrowserSlots) : BrowserSlots :=
  let t := issued s in
  if currentSlots s <? maxConcurrentPages s then
    mkSlots (maxConcurrentPages s) (currentSlots s + 1) (queue s)
            (resolved s ++ [t]) (S t)
  else
    mkSlots (maxConcurrentPages s) (currentSlots s) (queue s ++ [t])
            (resolved s) (S t).

Definition releaseSlot (s : BrowserSlots) : BrowserSlots :=
  let cs := Z.max 0 (currentSlots s - 1) in
  match queue s with
  | [] => mkSlots (maxConcurrentPages s) cs [] (resolved s) (issued s)
  | next :: rest =>
      run_resolver next
        (mkSlots (maxConcurrentPages s) cs rest (resolved s) (issued s))
  end.

(** An interleaving of callers is a sequence of calls on the shared
    service. *)
Inductive SlotCall := Acquire | Release.

Definition slot_step (s : BrowserSlots) (c : SlotCall) : BrowserSlots :=
  match c with
  | Acquire => acquireSlot s
  | Release => releaseSlot s
  end.

Definition run_calls (cs : list SlotCall) (s : BrowserSlots) : BrowserSlots :=
  fold_left slot_step cs s.

Definition initSlots (N : Z) : BrowserSlots := mkSlots N 0 [] [] 0.


(** ** JavaScript values, completions and the effect monad

    A [throw] can carry any value.  The code only ever asks whether the
    value is an instance of [Error] and, if so, reads its [name] and
    [message]; any other value is kept by its [String(...)] rendering. *)

Inductive Thrown :=
| ErrorObj (name message : string)
| NonError (rendering : string).

Definition instanceof_Error (e : Thrown) : bool :=
  match e with ErrorObj _ _ => true | NonError _ => false end.

(** [e instanceof Error ? e.message : dflt] *)
Definition message_or (e : Thrown) (dflt : string) : string :=
  match e with ErrorObj _ m => m | NonError _ => dflt end.

(** [e instanceof Error ? e.name : dflt] (also [e.constructor.name]) *)
Definition name_or (e : Thrown) (dflt : string) : string :=
  match e with ErrorObj n _ => n | NonError _ => dflt end.

(** [String(e instanceof Error ? e.message : e)] *)
Definition message_or_rendering (e : Thrown) : string :=
  match e with ErrorObj _ m => m | NonError v => v end.

(** [s || dflt] on strings: the empty string is falsy. *)
Definition string_or (s dflt : string) : string :=
  if String.eqb s "" then dflt else s.

(** An optional string is truthy when it is present and not empty. *)
Definition truthy (o : option string) : option string :=
  match o with
  | Some s => if String.eqb s "" then None else Some s
  | None => None
  end.

(** How an awaited call ends: it returns, it throws, or its promise is
    never settled. *)
Inductive Completion (A : Type) :=
| Normal (a : A)
| Throws (e : Thrown)
| Pending.
Arguments Normal {A} a.
Arguments Throws {A} e.
Arguments Pending {A}.

(** Code running over a mutable state [St]. *)
Definition M (St A : Type) : Type := St -> Completion A * St.

Definition ret {St A} (a : A) : M St A := fun st => (Normal a, st).

Definition throw {St A} (e : Thrown) : M St A := fun st => (Throws e, st).

Definition bindM {St A B} (m : M St A) (k : A -> M St B) : M St B :=
  fun st =>
    match m st with
    | (Normal a, st') => k a st'
    | (Throws e, st') => (Throws e, st')
    | (Pending, st') => (Pending, st')
    end.

Notation "'let!' x <- m 'in' k" := (bindM m (fun x => k))
  (at level 10, x name, m at level 100, k at level 200).

(** The outcome of a call into the browser, the file system or a
    library, as dictated from outside. *)
Definition ext {St A} (r : Completion A) : M St A := fun st => (r, st).

(** The same for a synchronous call, which returns or throws. *)
Definition sync {St A} (r : Thrown + A) : M St A :=
  match r with
  | inl e => throw e
  | inr a => ret a
  end.

Definition get {St A} (f : St -> A) : M St A := fun st => (Normal (f st), st).

Definition modify {St} (f : St -> St) : M St unit := fun st => (Normal tt, f st).

(** [try { m } catch (e) { h e }] *)
Definition try_catch {St A} (m : M St A) (h : Thrown -> M St A) : M St A :=
  fun st =>
    match m st with
    | (Throws e, st') => h e st'
    | r => r
    end.

(** [try { m } finally { f }]: the finaliser runs after a return and
    after a throw; if it throws itself, its exception wins. *)
Definition try_finally {St A} (m : M St A) (f : M St unit) : M St A :=
  fun st =>
    match m st with
    | (Pending, st') => (Pending, st')
    | (r, st') =>
        match f st' with
        | (Normal _, st'') => (r, st'')
        | (Throws e, st'') => (Throws e, st'')
        | (Pending, st'') => (Pending, st'')
        end
    end.

(** What [utils/helpers.ts] needs from the runtime: [Math.random()] and
    [await new Promise(resolve => setTimeout(resolve, delay))].  Times
    are rational numbers of milliseconds. *)
Class Runtime (St : Type) := {
  Math_random : St -> Q * St;
  setTimeout_wait : Q -> St -> St
}.

(** ** [retryWithBackoff] ([utils/helpers.ts])

    [lastError = error instanceof Error ? error : new Error('Unknown error')] *)
Definition as_Error (error : Thrown) : Thrown :=
  if instanceof_Error error then error else ErrorObj "Error" "Unknown error".

(** [baseDelay * Math.pow(2, attempt) + Math.random() * 1000], as a
    rational number: the sum and the products are exact here, where
    the program rounds them to doubles. *)
Definition backoff_delay (baseDelay : Q) (attempt : Z) (r : Q) : Q :=
  (baseDelay * inject_Z (2 ^ attempt) + r * 1000)%Q.

(** The [for] loop runs its body for [attempt], [attempt + 1], ... up
    to [maxRetries]; [remaining] counts these iterations.  When none is
    left the loop condition is false and the statement after the loop
    throws [lastError], which is still [undefined] if the body never
    ran. *)
Fixpoint retry_from {St T} `{Runtime St} (fn : M St T) (maxRetries : Z)
    (baseDelay : Q) (remaining : nat) (attempt : Z) (lastError : option Thrown)
    : M St T :=
  match remaining with
  | O =>
      throw (match lastError with Some e => e | None => NonError "undefined" end)
  | S remaining' =>
      try_catch fn (fun error =>
        let lastError := as_Error error in
        if attempt =? maxRetries then throw lastError
        else
          let! r <- (fun st => let (r, st') := Math_random st in (Normal r, st')) in
          let delay := backoff_delay baseDelay attempt r in
          let! _ <- modify (setTimeout_wait delay) in
          retry_from fn maxRetries baseDelay remaining' (attempt + 1) (Some lastError))
  end.

Definition retryWithBackoff {St T} `{Runtime St} (fn : M St T)
    (maxRetries : Z) (baseDelay : Q) : M St T :=
  retry_from fn maxRetries baseDelay (Z.to_nat (maxRetries + 1)) 0 None.

(** A test harness for [retryWithBackoff]: the wrapped operation is
    given by the outcome of each of its successive invocations, the
    random source by its successive draws; the harness numbers the
    invocations and keeps the timeline of invocations and waits. *)
Inductive TimelineEvent :=
| Invoked (i : nat)
| Waited (delay : Q).

Record Harness := mkHarness {
  h_calls : nat;
  h_draws : nat;
  h_timeline : list TimelineEvent
}.

Definition harness0 : Harness := mkHarness 0 0 [].

#[export] Instance harness_runtime (random : nat -> Q) : Runtime Harness := {
  Math_random h :=
    (random (h_draws h), mkHarness (h_calls h) (S (h_draws h)) (h_timeline h));
  setTimeout_wait d h :=
    mkHarness (h_calls h) (h_draws h) (h_timeline h ++ [Waited d])
}.

Definition scripted {T} (outcomes : nat -> Completion T) : M Harness T :=
  fun h =>
    (outcomes (h_calls h),
     mkHarness (S (h_calls h)) (h_draws h) (h_timeline h ++ [Invoked (h_calls h)])).

Definition retry_scripted {T} (outcomes : nat -> Completion T) (random : nat -> Q)
    (maxRetries : Z) (baseDelay : Q) : Completion T * Harness :=
  @retryWithBackoff Harness T (harness_runtime random) (scripted outcomes)
    maxRetries baseDelay harness0.

(** The delay that was waited immediately before invocation [i]. *)
Fixpoint delay_before (tl : list TimelineEvent) (i : nat) : option Q :=
  match tl with
  | [] => None
  | Waited d :: rest =>
      match rest with
      | Invoked j :: _ => if Nat.eqb j i then Some d else delay_before rest i
      | _ => delay_before rest i
      end
  | Invoked _ :: rest => delay_before rest i
  end.

(** The timeline of [n] invocations numbered from [c], each but the
    last followed by its backoff wait. *)
Fixpoint timeline_from (baseDelay : Q) (random : nat -> Q) (c n : nat)
    : list TimelineEvent :=
  match n with
  | O => []
  | S m =>
      Invoked c ::
      match m with
      | O => []
      | S _ =>
          Waited (backoff_delay baseDelay (Z.of_nat c) (random c)) ::
          timeline_from baseDelay random (S c) m
      end
  end.

(** What a caller of [retryWithBackoff] sees of the invocation that
    ended the loop. *)
Definition final_of {T} (o : Completion T) : Completion T :=
  match o with
  | Normal v => Normal v
  | Throws e => Throws (as_Error e)
  | Pending => Pending
  end.

Definition is_throw {T} (o : Completion T) : Prop :=
  exists e, o = Throws e.

(** ** Data of [services/browser.ts] *)

Definition Headers : Type := list (string * string).

Record Response := mkResponse {
  resp_status : Z;
  resp_headers : Headers
}.

Record PerformanceMetrics := mkMetrics {
  domContentLoaded : Z;
  loadComplete : Z;
  firstPaint : Z;
  firstContentfulPaint : Z
}.

Inductive ErrorDetails :=
| DetailsIssues (issues : list string)
| DetailsText (text : string)
| DetailsLoad (errorType : string) (timeout : Z)
| DetailsStep (step originalError : string).

Record ApiError := mkApiError {
  err_error : string;
  err_message : string;
  err_details : option ErrorDetails
}.

(** The image type given to [page.screenshot].  The signatures say
    ['jpeg' | 'png'], but the value reaches [screenshotUrl] unchecked
    from the query string of [GET /audit]: [other_type name] is any
    other string that is not empty. *)
Inductive ImageType := jpeg | png | other_type (name : string).

Record AuditOptions := mkOptions {
  opt_timeout : option Z;
  opt_includeScreenshot : bool;
  opt_screenshotType : option ImageType;
  opt_screenshotQuality : option Z;
  opt_userAgent : option string
}.

(** Clock readings only feed the timing fields ([totalTime],
    [executionTime], [loadTime], [parseTime]); these fields are left
    out of the result records. *)
Record PageLoadResult := mkPageLoadResult {
  plr_success : bool;
  plr_url : string;
  plr_html : option string;
  plr_statusCode : option Z;
  plr_loadTimeInMs : option Z;
  plr_performanceMetrics : option PerformanceMetrics;
  plr_error : option ApiError;
  plr_headers : option Headers
}.

Record ScreenshotOpts := mkShotOpts {
  so_type : option ImageType;
  so_quality : option Z;
  so_maxHeight : option Z
}.

(** What [page.screenshot] is asked to capture. *)
Inductive Region :=
| FullPage
| Clip (x y width height : Z).

Record CaptureOptions := mkCapture {
  cap_type : ImageType;
  cap_quality : option Z;
  cap_region : Region
}.

(** One element of the array [screenshotUrl] returns.  [shot_capture]
    is not a field of the JavaScript object: it records the options of
    the [page.screenshot] call whose buffer the element carries. *)
Record ScreenshotInfo := mkShot {
  shot_filename : string;
  shot_filePath : string;
  shot_url : string;
  shot_base64 : string;
  shot_size : nat;
  shot_status : option Z;
  shot_headers : option Headers;
  shot_capture : CaptureOptions
}.

(** What the browser and the page do during one [loadPage] call.
    [configurePage] is a sequence of awaited page calls, any of which
    may throw; [waitForDynamicContent] and [getPerformanceMetrics]
    catch everything themselves, the latter returning zeros. *)
Record PageScript := mkPageScript {
  browser_lost : bool;
  newPage_r : Completion unit;
  configurePage_r : Completion unit;
  goto_r : Completion (option Response);
  navigation_ms : Z;
  content_r : Completion string;
  metrics_r : PerformanceMetrics;
  page_url : string;
  close_r : Completion unit
}.

(** The same for one [screenshotUrl] call; captures and file writes are
    numbered within the call. *)
Record ShotScript := mkShotScript {
  s_browser_lost : bool;
  s_newPage_r : Completion unit;
  s_setViewport_r : Completion unit;
  s_goto_r : Completion (option Response);
  s_dims_r : Completion (Z * Z);
  s_mkdir_r : Completion unit;
  s_timestamp : string;
  s_screenshot_r : nat -> Completion string;
  s_writeFile_r : nat -> Completion unit;
  s_close_r : Completion unit
}.

Inductive Event :=
| EvLaunch
| EvSetInterval (ms : Z)
| EvAcquired
| EvReleased
| EvNewPage
| EvClosePage
| EvGoto (url : string)
| EvCapture (c : CaptureOptions)
| EvWriteFile (name : string).

(** The [BrowserService] singleton, the counters that number the calls
    into the outside world, the delays slept and the log of what the
    service did.  [slept] holds the delays of [retryWithBackoff], in
    the order they were slept.  The second that [waitForDynamicContent]
    lets pass after every navigation that succeeded is part of the
    page's script, as the navigation time is, and is not listed in
    [slept]. *)
Record World := mkWorld {
  slots : BrowserSlots;
  browser : option nat;
  isInitialized : bool;
  cleanupIntervalHandle : option Z;
  screenshotTTL : Z;
  launches : nat;
  loads : nat;
  shots : nat;
  draws : nat;
  slept : list Q;
  log : list Event
}.

Definition newBrowserService (MAX_CONCURRENT_PAGES SCREENSHOT_TTL_MS : option Z) : World :=
  mkWorld (newSlots MAX_CONCURRENT_PAGES) None false None
          (number_or SCREENSHOT_TTL_MS (30 * 60 * 1000)) 0 0 0 0 [] [].

Definition set_slots (s : BrowserSlots) (w : World) : World :=
  mkWorld s (browser w) (isInitialized w) (cleanupIntervalHandle w) (screenshotTTL w)
          (launches w) (loads w) (shots w) (draws w) (slept w) (log w).

Definition set_browser (b : option nat) (i : bool) (w : World) : World :=
  mkWorld (slots w) b i (cleanupIntervalHandle w) (screenshotTTL w)
          (launches w) (loads w) (shots w) (draws w) (slept w) (log w).

Definition set_cleanupIntervalHandle (h : option Z) (w : World) : World :=
  mkWorld (slots w) (browser w) (isInitialized w) h (screenshotTTL w)
          (launches w) (loads w) (shots w) (draws w) (slept w) (log w).

Definition count_launch (w : World) : World :=
  mkWorld (slots w) (browser w) (isInitialized w) (cleanupIntervalHandle w) (screenshotTTL w)
          (S (launches w)) (loads w) (shots w) (draws w) (slept w) (log w).

Definition count_load (w : World) : World :=
  mkWorld (slots w) (browser w) (isInitialized w) (cleanupIntervalHandle w) (screenshotTTL w)
          (launches w) (S (loads w)) (shots w) (draws w) (slept w) (log w).

Definition count_shot (w : World) : World :=
  mkWorld (slots w) (browser w) (isInitialized w) (cleanupIntervalHandle w) (screenshotTTL w)
          (launches w) (loads w) (S (shots w)) (draws w) (slept w) (log w).

Definition count_draw (w : World) : World :=
  mkWorld (slots w) (browser w) (isInitialized w) (cleanupIntervalHandle w) (screenshotTTL w)
          (launches w) (loads w) (shots w) (S (draws w)) (slept w) (log w).

Definition add_slept (d : Q) (w : World) : World :=
  mkWorld (slots w) (browser w) (isInitialized w) (cleanupIntervalHandle w) (screenshotTTL w)
          (launches w) (loads w) (shots w) (draws w) (slept w ++ [d]) (log w).

Definition add_log (e : Event) (w : World) : World :=
  mkWorld (slots w) (browser w) (isInitialized w) (cleanupIntervalHandle w) (screenshotTTL w)
          (launches w) (loads w) (shots w) (draws w) (slept w) (log w ++ [e]).

Definition emit (e : Event) : M World unit := modify (add_log e).

(** The handler of the browser's ['disconnected'] event. *)
Definition on_disconnected (w : World) : World := set_browser None false w.

Definition count_event (P : Event -> bool) (w : World) : nat :=
  length (filter (fun e => P e = true) (log w)).

Definition is_acquired (e : Event) : bool :=
  match e with EvAcquired => true | _ => false end.

Definition is_released (e : Event) : bool :=
  match e with EvReleased => true | _ => false end.

Definition is_page_activity (e : Event) : bool :=
  match e with
  | EvNewPage | EvGoto _ | EvCapture _ | EvLaunch => true
  | _ => false
  end.

(** ** Data of [services/validator.ts], [services/parser.ts] and
    [services/auditor.ts] *)

Record URL := mkURL {
  href : string;
  protocol : string;
  hostname : string;
  port : string;
  pathname : string
}.

Record ValidationResult := mkValidation {
  vr_success : bool;
  vr_url : option string;
  vr_parsedUrl : option URL;
  vr_error : option ApiError
}.

Record LinkDetails := mkLink {
  link_href : string;
  link_textContent : string;
  link_isInternal : bool;
  link_rel : option string
}.

Record ScriptDetails := mkScript {
  script_src : option string;
  script_inlineContent : option string
}.

Record StyleDetails := mkStyle {
  style_href : option string;
  style_inlineContent : option string
}.

Record PageResources := mkResources {
  links : list LinkDetails;
  scripts : list ScriptDetails;
  styles : list StyleDetails
}.

(** A [<script>] element as cheerio hands it over: [attr('src')] and
    [html()]. *)
Record ScriptElement := mkScriptElement {
  el_src : option string;
  el_html : option string
}.

(** Everything [extractAuditData] extracts besides the scripts.  The
    metadata, SEO, content, structured-data and formatted-summary
    objects are pure data mappings of the DOM and are kept as opaque
    renderings. *)
Record Extracted := mkExtracted {
  ex_metadata : string;
  ex_seo : string;
  ex_content : string;
  ex_links : list LinkDetails;
  ex_styles : list StyleDetails;
  ex_structuredData : string;
  ex_formattedContent : string
}.

Record PageStatistics := mkStatistics {
  totalElements : Z;
  totalImages : Z;
  totalLinks : Z;
  totalScripts : Z;
  totalHeadings : Z;
  wordCount : Z
}.

(** [Omit<WebsiteAuditResult, 'performance'>] *)
Record ParsedAudit := mkParsed {
  pa_url : string;
  pa_statusCode : Z;
  pa_metadata : string;
  pa_seo : string;
  pa_content : string;
  pa_resources : PageResources;
  pa_structuredData : string;
  pa_formattedContent : string
}.

Record WebsiteAuditResult := mkAudit {
  war_url : string;
  war_statusCode : option Z;
  war_metadata : string;
  war_seo : string;
  war_content : string;
  war_resources : PageResources;
  war_structuredData : string;
  war_formattedContent : string;
  war_performance_loadTimeInMs : Z;
  war_response_headers : option Headers;
  war_response_loadTimeInMs : Z;
  war_screenshot : option (list ScreenshotInfo);
  war_screenshotError : option string
}.

Record AuditDetails := mkDetails {
  det_step : option string;
  det_totalElements : option Z
}.

Record AuditResult := mkAuditResult {
  ar_success : bool;
  ar_data : option WebsiteAuditResult;
  ar_error : option ApiError;
  ar_details : option AuditDetails
}.

(** ** The outside world

    Built-ins of the language, the libraries (zod, cheerio, puppeteer)
    and the behaviour of the browser, the pages and the random source
    are parameters of the model. *)
Record Env := mkEnv {
  trim : string -> string;
  toLowerCase : string -> string;
  parseInt : string -> option Z;
  zod_string_url : string -> list string;
  new_URL : string -> Thrown + URL;
  resolveUrl : string -> string -> string;
  toBase64 : string -> string;
  safeName_of : string -> string;
  launch_r : nat -> Completion unit;
  page_script : nat -> PageScript;
  shot_script : nat -> ShotScript;
  random : nat -> Q;
  script_elements : string -> list ScriptElement;
  extract_rest : string -> string -> Thrown + Extracted;
  page_statistics : string -> string -> Thrown + PageStatistics
}.

(** [s.includes(sub)] *)
Fixpoint includes (s sub : string) : bool :=
  String.prefix sub s ||
  match s with
  | EmptyString => false
  | String _ rest => includes rest sub
  end.

(** [for (const x of l) { body x }] *)
Fixpoint for_each {St A} (l : list A) (body : A -> M St unit) : M St unit :=
  match l with
  | [] => ret tt
  | x :: rest => let! _ <- body x in for_each rest body
  end.

(** A [for ... of] loop that pushes one result per element. *)
Fixpoint for_each_push {St A B} (l : list A) (body : A -> M St B) : M St (list B) :=
  match l with
  | [] => ret []
  | x :: rest =>
      let! y <- body x in
      let! ys <- for_each_push rest body in
      ret (y :: ys)
  end.

(** ** Geometry of the split capture ([screenshotUrl], lines 442-452)

    The measured dimensions are the integers the DOM reports
    ([clientHeight], [scrollHeight], [innerHeight] are of type long), so
    [Math.floor] leaves them and the values derived from them
    unchanged. *)
Definition OVERLAP : Z := 80.

(** [Math.ceil(height / 2)] *)
Definition Math_ceil_half (height : Z) : Z := Qceiling (inject_Z height / 2).

Record Part := mkPart {
  part_y : Z;
  part_height : Z;
  part_suffix : string
}.

Definition split_parts (height : Z) : list Part :=
  let half := Math_ceil_half height in
  let topHeight := Z.min (half + OVERLAP) height in
  let bottomStart := Z.max (half - OVERLAP) 0 in
  let bottomHeight := height - bottomStart in
  [ mkPart 0 topHeight "part1"; mkPart bottomStart bottomHeight "part2" ].

Definition clip_of (width : Z) (part : Part) : Region :=
  Clip 0 (Z.max 0 (part_y part)) (Z.max 1 width) (Z.max 1 (part_height part)).

Definition region_height (r : Region) : option Z :=
  match r with
  | FullPage => None
  | Clip _ _ _ h => Some h
  end.

Definition region_y (r : Region) : option Z :=
  match r with
  | FullPage => None
  | Clip _ y _ _ => Some y
  end.

(** [type === 'jpeg' ? 'jpg' : 'png'] *)
Definition ext_of (type : ImageType) : string :=
  match type with jpeg => "jpg" | _ => "png" end.

(** [if (type === 'jpeg' && typeof quality === 'number') o.quality = quality] *)
Definition quality_for (type : ImageType) (quality : Z) : option Z :=
  match type with jpeg => Some quality | _ => None end.

Section Service.

Variable env : Env.

#[local] Instance world_runtime : Runtime World := {
  Math_random w := (random env (draws w), count_draw w);
  setTimeout_wait d w := add_slept d w
}.

(** *** [BrowserService.initialize] *)
Definition initialize : M World unit :=
  let! ready <- get (fun w => isInitialized w && bool_decide (browser w <> None)) in
  if (ready : bool) then ret tt
  else
    try_catch
      (let! n <- get launches in
       let! _ <- modify count_launch in
       let! _ <- ext (launch_r env n) in
       let! _ <- modify (set_browser (Some n) true) in
       let! _ <- emit EvLaunch in
       let! handle <- get cleanupIntervalHandle in
       match handle with
       | Some _ => ret tt
       | None =>
           let! ttl <- get screenshotTTL in
           let interval := Z.max (60 * 1000) (ttl / 6) in
           let! _ <- modify (set_cleanupIntervalHandle (Some interval)) in
           emit (EvSetInterval interval)
       end)
      (fun error =>
         throw (ErrorObj "Error"
                  ("Failed to initialize browser: " ++ message_or error "Unknown error"))).

(** *** [await this.acquireSlot()]

    The caller continues once its promise is resolved; if the call was
    queued, nothing in a world with no other holder resolves it.  The
    await is a suspension point: the browser may disconnect meanwhile
    ([lost]), which runs the ['disconnected'] handler. *)
Definition await_acquireSlot (lost : bool) : M World unit :=
  fun w =>
    let t := issued (slots w) in
    let w' := set_slots (acquireSlot (slots w)) w in
    if bool_decide (t ∈ resolved (slots w')) then
      (Normal tt, (if lost then on_disconnected else id) (add_log EvAcquired w'))
    else (Pending, w').

Definition call_releaseSlot : M World unit :=
  modify (fun w => add_log EvReleased (set_slots (releaseSlot (slots w)) w)).

(** *** [BrowserService.loadPage] *)
Definition load_failure (url : string) (options : AuditOptions) (error : Thrown)
    : PageLoadResult :=
  mkPageLoadResult false url None None None None
    (Some (mkApiError "PAGE_LOAD_FAILED"
             ("Failed to load page: " ++ message_or error "Unknown error")
             (Some (DetailsLoad (name_or error "UnknownError")
                                (number_or (opt_timeout options) 30000)))))
    None.

Definition loadPage (url : string) (options : AuditOptions) : M World PageLoadResult :=
  let! n <- get loads in
  let! _ <- modify count_load in
  let sc := page_script env n in
  let! _ <- initialize in
  let! _ <- await_acquireSlot (browser_lost sc) in
  let! b <- get browser in
  match b with
  | None => throw (ErrorObj "Error" "Browser not initialized")
  | Some _ =>
      try_finally
        (try_catch
           (let! _ <- ext (newPage_r sc) in
            let! _ <- emit EvNewPage in
            let! _ <- ext (configurePage_r sc) in
            let! _ <- emit (EvGoto url) in
            let! response <- ext (goto_r sc) in
            match response with
            | None =>
                (* [response!.headers()] dereferences null here; the explicit
                   [if (!response)] check below it is never reached with a
                   null response *)
                throw (ErrorObj "TypeError"
                         "Cannot read properties of null (reading 'headers')")
            | Some resp =>
                let headers := resp_headers resp in
                let loadTimeInMs := navigation_ms sc in
                let statusCode := resp_status resp in
                let! html <- ext (content_r sc) in
                let performanceMetrics := metrics_r sc in
                let finalUrl := page_url sc in
                ret (mkPageLoadResult true finalUrl (Some html) (Some statusCode)
                       (Some (Z.max loadTimeInMs (domContentLoaded performanceMetrics)))
                       (Some performanceMetrics) None (Some headers))
            end)
           (fun error => ret (load_failure url options error)))
        (let! _ <-
           match newPage_r sc with
           | Normal _ =>
               try_catch (let! _ <- ext (close_r sc) in emit EvClosePage)
                         (fun closeError => ret tt)
           | _ => ret tt
           end in
         try_catch call_releaseSlot (fun e => ret tt))
  end.

(** *** [BrowserService.screenshotUrl] *)
Definition screenshots_dir : string := "public/screenshots/".

Definition capture_to (sc : ShotScript) (k : nat) (c : CaptureOptions)
    (filename : string) (response : option Response) : M World ScreenshotInfo :=
  try_catch
    (let! _ <- emit (EvCapture c) in
     let! buffer <- ext (s_screenshot_r sc k) in
     let filePath := (screenshots_dir ++ filename)%string in
     let! _ <- ext (s_writeFile_r sc k) in
     let! _ <- emit (EvWriteFile filename) in
     let e := ext_of (cap_type c) in
     ret (mkShot filename filePath ("/screenshots/" ++ filename)
            ("data:image/" ++ e ++ ";base64," ++ toBase64 env buffer)
            (String.length buffer)
            (option_map resp_status response)
            (option_map resp_headers response)
            c))
    (fun err => throw err).

Definition numbered {A} (l : list A) : list (nat * A) :=
  combine (seq 0 (length l)) l.

Definition screenshotUrl (url : string) (opts : ScreenshotOpts)
    : M World (list ScreenshotInfo) :=
  let! n <- get shots in
  let! _ <- modify count_shot in
  let sc := shot_script env n in
  let! _ <- initialize in
  let! _ <- await_acquireSlot (s_browser_lost sc) in
  let! b <- get browser in
  match b with
  | None =>
      let! _ <- call_releaseSlot in
      throw (ErrorObj "Error" "Browser not initialized")
  | Some _ =>
      let! _ <- ext (s_newPage_r sc) in
      let! _ <- emit EvNewPage in
      try_finally
        (let type := default jpeg (so_type opts) in
         let quality := default 80 (so_quality opts) in
         let MAX_SINGLE_IMAGE_HEIGHT := default 15000 (so_maxHeight opts) in
         let! _ <- ext (s_setViewport_r sc) in
         let! _ <- emit (EvGoto url) in
         let! response <- ext (s_goto_r sc) in
         let! dims <- ext (s_dims_r sc) in
         let width := fst dims in
         let height := snd dims in
         let! _ <- ext (s_mkdir_r sc) in
         let safeName := safeName_of env url in
         let timestamp := s_timestamp sc in
         let e := ext_of type in
         if height <=? MAX_SINGLE_IMAGE_HEIGHT then
           let! shot <-
             capture_to sc 0 (mkCapture type (quality_for type quality) FullPage)
               (safeName ++ "_" ++ timestamp ++ "." ++ e)%string response in
           ret [shot]
         else
           for_each_push (numbered (split_parts height))
             (fun '(k, part) =>
                capture_to sc k
                  (mkCapture type (quality_for type quality) (clip_of width part))
                  (safeName ++ "_" ++ timestamp ++ "_" ++ part_suffix part ++ "." ++ e)%string
                  response))
        (let! _ <- ext (s_close_r sc) in
         let! _ <- emit EvClosePage in
         try_catch call_releaseSlot (fun e => ret tt))
  end.

(** *** [services/validator.ts] *)

(** The refinement of [urlSchema]: the protocol test inside its own
    try/catch. *)
Definition urlSchema_refine (url : string) : bool :=
  match new_URL env url with
  | inr parsedUrl =>
      String.eqb (protocol parsedUrl) "http:" || String.eqb (protocol parsedUrl) "https:"
  | inl _ => false
  end.

(** [urlSchema.safeParse]: the issues, or the accepted string. *)
Definition urlSchema_safeParse (s : string) : list string + string :=
  let issues :=
    zod_string_url env s ++
    (if urlSchema_refine s then [] else ["URL must use HTTP or HTTPS protocol"%string]) in
  match issues with
  | [] => inr s
  | _ => inl issues
  end.

Definition blockedDomains : list string := [].

Definition blockedPatterns : list (string -> bool) := [].

Definition isBlockedDomain (host : string) : bool :=
  if existsb (String.eqb (toLowerCase env host)) blockedDomains then true
  else existsb (fun pattern => pattern (toLowerCase env host)) blockedPatterns.

Definition performAdditionalValidations (url : URL) : list string :=
  (if (2048 <? Z.of_nat (String.length (href url)))
   then ["URL is too long (maximum 2048 characters)"%string] else []) ++
  (if negb (String.eqb (port url) "") then
     match parseInt env (port url) with
     | None => ["Invalid port number"%string]
     | Some portNum =>
         if (portNum <? 1) || (65535 <? portNum)
         then ["Invalid port number"%string] else []
     end
   else []) ++
  (if includes (pathname url) ".." || includes (pathname url) "//"
   then ["URL contains suspicious path patterns"%string] else []) ++
  (if negb (String.eqb (protocol url) "http:" || String.eqb (protocol url) "https:")
   then ["Only HTTP and HTTPS protocols are supported"%string] else []).

Definition invalid (code msg : string) (details : option ErrorDetails)
    : ValidationResult :=
  mkValidation false None None (Some (mkApiError code msg details)).

Definition validateUrl {St} (urlString : string) : M St ValidationResult :=
  try_catch
    (if String.eqb urlString "" || String.eqb (trim env urlString) "" then
       ret (invalid "MISSING_URL" "URL parameter is required" None)
     else
       let cleanUrl := trim env urlString in
       match urlSchema_safeParse cleanUrl with
       | inl issues =>
           ret (invalid "INVALID_URL_FORMAT"
                  "Invalid URL format. Please provide a valid HTTP or HTTPS URL."
                  (Some (DetailsIssues issues)))
       | inr data =>
           let! parsedUrl <- sync (new_URL env data) in
           if String.eqb (hostname parsedUrl) ""
              || String.eqb (trim env (hostname parsedUrl)) "" then
             ret (invalid "INVALID_HOSTNAME" "URL must have a valid hostname" None)
           else if isBlockedDomain (hostname parsedUrl) then
             ret (invalid "BLOCKED_DOMAIN" "This domain is not allowed for auditing" None)
           else
             let validationErrors := performAdditionalValidations parsedUrl in
             if (0 <? Z.of_nat (length validationErrors)) then
               ret (invalid "URL_VALIDATION_FAILED" "URL failed validation checks"
                      (Some (DetailsIssues validationErrors)))
             else
               ret (mkValidation true (Some (href parsedUrl)) (Some parsedUrl) None)
       end)
    (fun error =>
       ret (invalid "URL_PARSE_ERROR" "Failed to parse the provided URL"
              (Some (DetailsText (message_or error "Unknown error"))))).

(** *** [services/parser.ts]: [extractScripts] and [extractAuditData] *)
Definition extractScripts (html baseUrl : string) : list ScriptDetails :=
  flat_map
    (fun element =>
       match truthy (el_src element) with
       | Some src => [mkScript (Some (resolveUrl env src baseUrl)) None]
       | None =>
           match truthy (el_html element) with
           | Some inlineContent =>
               if negb (String.eqb (trim env inlineContent) "") then
                 let truncatedContent :=
                   if (1000 <? Z.of_nat (String.length inlineContent))
                   then (String.substring 0 1000 inlineContent ++ "...")%string
                   else inlineContent in
                 [mkScript None (Some truncatedContent)]
               else []
           | None => []
           end
       end)
    (script_elements env html).

Definition extractAuditData {St} (html baseUrl : string) (statusCode : Z)
    : M St ParsedAudit :=
  let! rest <- sync (extract_rest env html baseUrl) in
  ret (mkParsed baseUrl statusCode (ex_metadata rest) (ex_seo rest) (ex_content rest)
         (mkResources (ex_links rest) (extractScripts html baseUrl) (ex_styles rest))
         (ex_structuredData rest) (ex_formattedContent rest)).

(** *** [services/auditor.ts] *)

(** [measureExecutionTime] runs its argument between two clock
    readings and returns its result. *)
Definition measureExecutionTime {St A} (fn : M St A) : M St A := fn.

Definition loadPageWithRetry (url : string) (options : AuditOptions)
    : M World PageLoadResult :=
  retryWithBackoff
    (let! result <- loadPage url options in
     if negb (plr_success result) then
       throw (ErrorObj "Error"
                (string_or (from_option err_message "" (plr_error result))
                           "Page loading failed"))
     else ret result)
    2 1000%Q.

Definition parseHtmlContent (html url : string) : M World ParsedAudit :=
  let! auditData <- extractAuditData html url 200 in
  let! statistics <- sync (page_statistics env html url) in
  ret auditData.

(** [x || 0] on an optional number *)
Definition or_zero (x : option Z) : Z := default 0 x.

Definition auditWebsite (url : string) (options : AuditOptions) : M World AuditResult :=
  try_catch
    (let! validationResult <- validateUrl url in
     if negb (vr_success validationResult) then
       ret (mkAuditResult false None (vr_error validationResult) None)
     else
       let validatedUrl := default "" (vr_url validationResult) in
       let! pageLoadResult <-
         measureExecutionTime (loadPageWithRetry validatedUrl options) in
       if negb (plr_success pageLoadResult) then
         ret (mkAuditResult false None (plr_error pageLoadResult)
                (Some (mkDetails (Some "page_loading"%string) None)))
       else
         let html := default "" (plr_html pageLoadResult) in
         let! parseResult <-
           measureExecutionTime (parseHtmlContent html (plr_url pageLoadResult)) in
         let rest := pa_resources parseResult in
         let modifiedResources := mkResources (links rest) [] (styles rest) in
         let auditResult :=
           mkAudit (plr_url pageLoadResult) (plr_statusCode pageLoadResult)
             (pa_metadata parseResult) (pa_seo parseResult) (pa_content parseResult)
             modifiedResources
             (pa_structuredData parseResult) (pa_formattedContent parseResult)
             (or_zero (plr_loadTimeInMs pageLoadResult))
             (plr_headers pageLoadResult)
             (or_zero (plr_loadTimeInMs pageLoadResult))
             None None in
         let! auditResult <-
           (if opt_includeScreenshot options then
              try_catch
                (let shotOpts :=
                   mkShotOpts (opt_screenshotType options)
                              (opt_screenshotQuality options) None in
                 let! shots <- screenshotUrl (plr_url pageLoadResult) shotOpts in
                 ret (mkAudit (war_url auditResult) (war_statusCode auditResult)
                        (war_metadata auditResult) (war_seo auditResult)
                        (war_content auditResult) (war_resources auditResult)
                        (war_structuredData auditResult)
                        (war_formattedContent auditResult)
                        (war_performance_loadTimeInMs auditResult)
                        (war_response_headers auditResult)
                        (war_response_loadTimeInMs auditResult)
                        (Some shots) None))
                (fun shotErr =>
                   ret (mkAudit (war_url auditResult) (war_statusCode auditResult)
                          (war_metadata auditResult) (war_seo auditResult)
                          (war_content auditResult) (war_resources auditResult)
                          (war_structuredData auditResult)
                          (war_formattedContent auditResult)
                          (war_performance_loadTimeInMs auditResult)
                          (war_response_headers auditResult)
                          (war_response_loadTimeInMs auditResult)
                          (Some []) (Some (message_or_rendering shotErr))))
            else ret auditResult) in
         let! statistics <- sync (page_statistics env html (plr_url pageLoadResult)) in
         ret (mkAuditResult true (Some auditResult) None
                (Some (mkDetails None (Some (totalElements statistics))))))
    (fun error =>
       ret (mkAuditResult false None
              (Some (mkApiError "AUDIT_FAILED"
                       ("Audit failed: " ++ message_or error "Unknown error")
                       (Some (DetailsStep "unknown" (name_or error "UnknownError")))))
              None)).

End Service.

(** ** [BrowserService.cleanupScreenshots]

    The screenshot directory maps file names to their last-modified
    time in milliseconds.  File-system calls succeed or raise an I/O
    error; which calls fail is dictated from outside. *)
Record SweepScript := mkSweep {
  sw_isDirectory : bool;
  sw_readdir_error : option Thrown;
  sw_now : Z;
  sw_stat_error : string -> option Thrown;
  sw_unlink_error : string -> option Thrown
}.

Definition ENOENT : Thrown := ErrorObj "Error" "ENOENT: no such file or directory".

Definition fs_readdir (sw : SweepScript) : M (gmap string Z) (list string) :=
  fun dir =>
    match sw_readdir_error sw with
    | Some e => (Throws e, dir)
    | None => (Normal (elements (dom dir)), dir)
    end.

Definition fs_stat (sw : SweepScript) (file : string) : M (gmap string Z) Z :=
  fun dir =>
    match sw_stat_error sw file with
    | Some e => (Throws e, dir)
    | None =>
        match dir !! file with
        | Some mtimeMs => (Normal mtimeMs, dir)
        | None => (Throws ENOENT, dir)
        end
    end.

Definition fs_unlink (sw : SweepScript) (file : string) : M (gmap string Z) unit :=
  fun dir =>
    match sw_unlink_error sw file with
    | Some e => (Throws e, dir)
    | None =>
        match dir !! file with
        | Some _ => (Normal tt, delete file dir)
        | None => (Throws ENOENT, dir)
        end
    end.

Definition sweep_file (sw : SweepScript) (threshold : Z) (file : string)
    : M (gmap string Z) unit :=
  try_catch
    (let! mtimeMs <- fs_stat sw file in
     if mtimeMs <? threshold then fs_unlink sw file else ret tt)
    (fun err => ret tt).

Definition cleanupScreenshots (sw : SweepScript) (screenshotTTL : Z)
    : M (gmap string Z) unit :=
  try_catch
    (if negb (sw_isDirectory sw) then ret tt
     else
       let! files <- fs_readdir sw in
       let now := sw_now sw in
       let threshold := now - screenshotTTL in
       for_each files (sweep_file sw threshold))
    (fun err => ret tt).

(** The age of a file at the time of the sweep. *)
Definition age (sw : SweepScript) (mtimeMs : Z) : Z := sw_now sw - mtimeMs.

(** A file the sweep can remove: no I/O error on it. *)
Definition io_ok (sw : SweepScript) (file : string) : bool :=
  match sw_stat_error sw file, sw_unlink_error sw file with
  | None, None => true
  | _, _ => false
  end.

(** ** Scenarios

    A service that is up, with a free slot and nobody waiting. *)
Definition ready (w : World) : Prop :=
  isInitialized w = true /\ browser w <> None /\
  0 <= currentSlots (slots w) < maxConcurrentPages (slots w) /\
  queue (slots w) = [].

(** A [screenshotUrl] call during which no step fails and the page
    measures [width] by [height]. *)
Definition capture_succeeds (sc : ShotScript) (width height : Z) : Prop :=
  s_browser_lost sc = false /\
  s_newPage_r sc = Normal tt /\
  s_setViewport_r sc = Normal tt /\
  (exists response, s_goto_r sc = Normal response) /\
  s_dims_r sc = Normal (width, height) /\
  s_mkdir_r sc = Normal tt /\
  (forall k, exists buffer, s_screenshot_r sc k = Normal buffer) /\
  (forall k, s_writeFile_r sc k = Normal tt) /\
  s_close_r sc = Normal tt.

Definition regions (artifacts : list ScreenshotInfo) : list Region :=
  map (fun a => cap_region (shot_capture a)) artifacts.

(** Test doubles: a page that loads, a capture that works, and an
    environment assembled from per-call scripts. *)
Definition ok_response : Response :=
  mkResponse 200 [("content-type", "text/html")]%string.

Definition ok_page : PageScript :=
  mkPageScript false (Normal tt) (Normal tt) (Normal (Some ok_response)) 120
    (Normal "<html><head><script src='a.js'></script></head></html>"%string)
    (mkMetrics 80 100 0 0) "https://example.com/" (Normal tt).

Definition ok_shot (width height : Z) : ShotScript :=
  mkShotScript false (Normal tt) (Normal tt) (Normal (Some ok_response))
    (Normal (width, height)) (Normal tt) "1700000000000"
    (fun _ => Normal "IMAGEBYTES"%string) (fun _ => Normal tt) (Normal tt).

Definition fake_new_URL (s : string) : Thrown + URL :=
  if String.prefix "https://" s then
    inr (mkURL s "https:" "example.com" "" "/")
  else if String.prefix "http://" s then
    inr (mkURL s "http:" "example.com" "" "/")
  else inl (ErrorObj "TypeError" "Invalid URL").

Definition fake_zod_string_url (s : string) : list string :=
  match fake_new_URL s with
  | inr _ => []
  | inl _ => ["Invalid url"%string]
  end.

Definition ok_extracted : Extracted :=
  mkExtracted "{}" "{}" "{}"
    [mkLink "https://example.com/about" "About" true None]
    [mkStyle (Some "https://example.com/site.css"%string) None]
    "[]" "{}".

Definition test_env (pages : nat -> PageScript) (captures : nat -> ShotScript)
    (stats : Thrown + PageStatistics) : Env :=
  mkEnv (fun s => s) (fun s => s) (fun _ => None)
        fake_zod_string_url fake_new_URL
        (fun relative base => (base ++ relative)%string)
        (fun s => s) (fun s => "example_com"%string)
        (fun _ => Normal tt) pages captures (fun _ => 1 # 2)
        (fun _ => [mkScriptElement (Some "a.js"%string) None])
        (fun _ _ => inr ok_extracted)
        (fun _ _ => stats).

Definition ok_stats : Thrown + PageStatistics :=
  inr (mkStatistics 5 0 1 1 0 3).

Definition no_options : AuditOptions := mkOptions None false None None None.

Definition with_screenshot : AuditOptions := mkOptions None true None None None.

Definition no_shot_opts : ScreenshotOpts := mkShotOpts None None None.

(** The service after its first successful [initialize]. *)
Definition started (env : Env) : World :=
  snd (initialize env (newBrowserService None None)).

(** ** Slot accounting

    The number of slots a world has seen acquired and released, and
    the computations that leave the limiter, the browser handle and
    both counts untouched. *)
Definition acquired (w : World) : nat := count_event is_acquired w.
Definition released (w : World) : nat := count_event is_released w.

Definition quiet {A} (m : M World A) : Prop :=
  forall w r w', m w = (r, w') ->
    slots w' = slots w /\ browser w' = browser w /\
    acquired w' = acquired w /\ released w' = released w.

Definition slot_event (e : Event) : bool := is_acquired e || is_released e.

(** A page on which the browser is lost while the call waits for its
    slot. *)
Definition lost_page : PageScript :=
  mkPageScript true (Normal tt) (Normal tt) (Normal (Some ok_response)) 120
    (Normal "<html></html>"%string) (mkMetrics 80 100 0 0)
    "https://example.com/" (Normal tt).

(** Where a result names the step that failed: in its [details], or
    in the [details] of its error. *)
Definition stage_of (r : AuditResult) : option string :=
  match ar_details r with
  | Some (mkDetails (Some step) _) => Some step
  | _ =>
      match ar_error r with
      | Some (mkApiError _ _ (Some (DetailsStep step _))) => Some step
      | _ => None
      end
  end.

(** The directory after one file has been looked at. *)
Definition after_sweep_file (sw : SweepScript) (threshold : Z) (file : string)
    (dir : gmap string Z) : gmap string Z :=
  match dir !! file with
  | Some mtimeMs =>
      if (mtimeMs <? threshold) && io_ok sw file then delete file dir else dir
  | None => dir
  end.

(** ** Invariants of the limiter *)

(** The counter stays within [0, N] when the capacity is at least one. *)
Definition slots_bounded (s : BrowserSlots) : Prop :=
  0 <= currentSlots s <= maxConcurrentPages s.

(** FIFO invariant: resolution order followed by queue order is the
    arrival order, and a non-empty queue means the service is full,
    so no arriving call can take a slot past a waiter. *)
Definition fifo_inv (s : BrowserSlots) : Prop :=
  resolved s ++ queue s = seq 0 (issued s) /\
  (queue s <> [] -> maxConcurrentPages s <= currentSlots s).

(** ** What a log says was captured and written

    The options of the [page.screenshot] calls and the names of the
    files written, in the order of the calls. *)
Definition captures_in (events : list Event) : list CaptureOptions :=
  flat_map (fun e => match e with EvCapture c => [c] | _ => [] end) events.

Definition files_in (events : list Event) : list string :=
  flat_map (fun e => match e with EvWriteFile name => [name] | _ => [] end) events.

(** The events of the captures that made a list of artifacts. *)
Definition capture_events (artifacts : list ScreenshotInfo) : list Event :=
  flat_map (fun a => [EvCapture (shot_capture a); EvWriteFile (shot_filename a)])
           artifacts.

(** ** What a computation can return, throw and change

    [outcome m P Q]: whenever [m] returns, the value satisfies [P];
    whenever it throws, the value thrown satisfies [Q].  [effect m R]:
    the state after [m], however it ended, is related to the state
    before by [R]. *)

Definition outcome {St A} (m : M St A) (P : A -> Prop) (Q : Thrown -> Prop) : Prop :=
  forall st r st', m st = (r, st') ->
    match r with
    | Normal a => P a
    | Throws e => Q e
    | Pending => True
    end.

Definition effect {St A} (m : M St A) (R : St -> St -> Prop) : Prop :=
  forall st r st', m st = (r, st') -> R st st'.

(** The state relation "no call of [loadPage] was started and no
    backoff wait was made". *)
Definition same_load (w w' : World) : Prop :=
  loads w' = loads w /\ slept w' = slept w.

(** The state relation "at most [a] more calls of [loadPage] were
    started and at most [b] more backoff waits were made". *)
Definition within (a b : nat) (w w' : World) : Prop :=
  (loads w <= loads w' <= loads w + a)%nat /\
  (length (slept w) <= length (slept w') <= length (slept w) + b)%nat.

(** ** [BrowserService.close] and [BrowserService.isReady]

    [closing] is how [browser.close()] ends. *)
Definition close (closing : Completion unit) : M World unit :=
  let! b <- get browser in
  match b with
  | None => ret tt
  | Some _ =>
      try_finally
        (try_catch (ext closing) (fun error => ret tt))
        (modify (set_browser None false))
  end.

Definition isReady (w : World) : bool :=
  isInitialized w && bool_decide (browser w <> None).

(** What can happen to the service: a call of one of its methods, or
    the ['disconnected'] event of the browser. *)
Inductive Lifecycle :=
| CallInitialize
| CallLoadPage (url : string) (options : AuditOptions)
| CallScreenshotUrl (url : string) (opts : ScreenshotOpts)
| BrowserDisconnected
| CallClose (closing : Completion unit).

Definition is_set_interval (e : Event) : bool :=
  match e with EvSetInterval _ => true | _ => false end.

(** The number of [setInterval] calls made so far. *)
Definition timers (w : World) : nat := count_event is_set_interval w.

(** The cleanup timer between two states: untouched, or started once
    with the interval [initialize] computes. *)
Definition timer_kept (w w' : World) : Prop :=
  screenshotTTL w' = screenshotTTL w /\
  cleanupIntervalHandle w' = cleanupIntervalHandle w /\
  timers w' = timers w.

Definition timer_once (w w' : World) : Prop :=
  timer_kept w w' \/
  (screenshotTTL w' = screenshotTTL w /\
   cleanupIntervalHandle w = None /\
   cleanupIntervalHandle w' = Some (Z.max (60 * 1000) (screenshotTTL w / 6)) /\
   timers w' = S (timers w)).

(** ** Results of [quickAudit] and [checkUrlAccessibility] *)

Record QuickData := mkQuickData {
  qd_url : string;
  qd_statusCode : option Z;
  qd_title : string;
  qd_description : string;
  qd_loadTimeInMs : Z;
  qd_metadata : string;
  qd_statistics : PageStatistics
}.

Record QuickAuditResult := mkQuickResult {
  qr_success : bool;
  qr_data : option QuickData;
  qr_error : option ApiError
}.

Record AccessibilityResult := mkAccessibility {
  acc_accessible : bool;
  acc_statusCode : option Z;
  acc_error : option string;
  acc_loadTimeInMs : option Z;
  acc_finalUrl : option string
}.

Section Variants.

Variable env : Env.

(** [auditData.seo.title] and [auditData.seo.description]: two fields of
    the SEO object the parser returns. *)
Variable seo_title seo_description : string -> string.

Definition lifecycle_step (w : World) (step : Lifecycle) : World :=
  match step with
  | CallInitialize => snd (initialize env w)
  | CallLoadPage url options => snd (loadPage env url options w)
  | CallScreenshotUrl url opts => snd (screenshotUrl env url opts w)
  | BrowserDisconnected => on_disconnected w
  | CallClose closing => snd (close closing w)
  end.

Definition lifecycle (steps : list Lifecycle) (w : World) : World :=
  fold_left lifecycle_step steps w.

(** *** [WebsiteAuditor.quickAudit]

    [validationResult.url!], [pageResult.html!] and
    [pageResult.statusCode!] are read on results that report success,
    which carry them; the defaults below stand for the value
    [undefined] that the assertion [!] would let through. *)
Definition quickAudit (url : string) (options : AuditOptions) : M World QuickAuditResult :=
  try_catch
    (let! validationResult <- validateUrl env url in
     if negb (vr_success validationResult) then
       ret (mkQuickResult false None (vr_error validationResult))
     else
       let quickOptions :=
         mkOptions (Some (number_or (opt_timeout options) 10000))
                   (opt_includeScreenshot options) (opt_screenshotType options)
                   (opt_screenshotQuality options) (opt_userAgent options) in
       let! pageResult <-
         loadPage env (default "" (vr_url validationResult)) quickOptions in
       if negb (plr_success pageResult) then
         ret (mkQuickResult false None (plr_error pageResult))
       else
         let html := default "" (plr_html pageResult) in
         let! auditData <-
           extractAuditData env html (plr_url pageResult)
             (or_zero (plr_statusCode pageResult)) in
         let! statistics <- sync (page_statistics env html (plr_url pageResult)) in
         ret (mkQuickResult true
                (Some (mkQuickData (plr_url pageResult) (plr_statusCode pageResult)
                         (seo_title (pa_seo auditData))
                         (seo_description (pa_seo auditData))
                         (or_zero (plr_loadTimeInMs pageResult))
                         (pa_metadata auditData) statistics))
                None))
    (fun error =>
       ret (mkQuickResult false None
              (Some (mkApiError "QUICK_AUDIT_FAILED"
                       ("Quick audit failed: " ++ message_or error "Unknown error")
                       None)))).

(** *** [WebsiteAuditor.checkUrlAccessibility] *)
Definition checkUrlAccessibility (url : string) : M World AccessibilityResult :=
  try_catch
    (let! validationResult <- validateUrl env url in
     if negb (vr_success validationResult) then
       match vr_error validationResult with
       | Some e => ret (mkAccessibility false None (Some (err_message e)) None None)
       | None =>
           throw (ErrorObj "TypeError"
                    "Cannot read properties of undefined (reading 'message')")
       end
     else
       let! pageResult <-
         loadPage env (default "" (vr_url validationResult))
           (mkOptions (Some 5000) false None None None) in
       ret (mkAccessibility (plr_success pageResult)
              (plr_statusCode pageResult)
              (if negb (plr_success pageResult) then
                 truthy (option_map err_message (plr_error pageResult))
               else None)
              (plr_loadTimeInMs pageResult)
              (Some (plr_url pageResult))))
    (fun error =>
       ret (mkAccessibility false None (Some (message_or error "Unknown error"))
              None None)).

End Variants.

(** ** What [loadPage] hands back

    A result that reports success carries the markup, the status code,
    the headers and the load time; any other result is the failure
    record built in the [catch] block for the requested URL. *)
Definition good_load (url : string) (options : AuditOptions) (res : PageLoadResult)
    : Prop :=
  if plr_success res then
    is_Some (plr_html res) /\ is_Some (plr_statusCode res) /\
    is_Some (plr_headers res) /\ is_Some (plr_loadTimeInMs res) /\
    plr_error res = None
  else
    exists error, res = load_failure url options error.

(** The two exceptions raised before the [try] block. *)
Definition entry_failure (e : Thrown) : Prop :=
  e = ErrorObj "Error" "Browser not initialized" \/
  exists cause,
    e = ErrorObj "Error"
          ("Failed to initialize browser: " ++ message_or cause "Unknown error").

(** ** The shape of an [AuditResult]

    A success carries data and no error; a failure carries an error
    and no data. *)
Definition audit_shape (res : AuditResult) : Prop :=
  if ar_success res then is_Some (ar_data res) /\ ar_error res = None
  else ar_data res = None /\ is_Some (ar_error res).

(** The error codes [validateUrl] can produce. *)
Definition validator_codes : list string :=
  ["MISSING_URL"; "INVALID_URL_FORMAT"; "INVALID_HOSTNAME";
   "URL_VALIDATION_FAILED"; "URL_PARSE_ERROR"]%string.

(** The two kinds of failure [auditWebsite] reports: the validator's
    error as it is, without details, or the catch-all [AUDIT_FAILED]
    with the step ["unknown"]. *)
Definition audit_failure_kind (res : AuditResult) : Prop :=
  (ar_details res = None /\
   exists e, ar_error res = Some e /\ err_error e ∈ validator_codes /\
             forall step originalError,
               err_details e <> Some (DetailsStep step originalError)) \/
  (ar_details res = None /\
   exists e cause,
     ar_error res = Some e /\
     e = mkApiError "AUDIT_FAILED"
           ("Audit failed: " ++ message_or cause "Unknown error")
           (Some (DetailsStep "unknown" (name_or cause "UnknownError")))).

(** What [validateUrl] checked on a URL it accepts. *)
Definition accepted (env : Env) (urlString : string) (v : ValidationResult) : Prop :=
  exists parsedUrl,
    new_URL env (trim env urlString) = inr parsedUrl /\
    vr_parsedUrl v = Some parsedUrl /\
    vr_url v = Some (href parsedUrl) /\
    vr_error v = None /\
    zod_string_url env (trim env urlString) = [] /\
    (protocol parsedUrl = "http:" \/ protocol parsedUrl = "https:")%string /\
    hostname parsedUrl <> ""%string /\
    (String.length (href parsedUrl) <= 2048)%nat /\
    (port parsedUrl = ""%string \/
     exists portNum, parseInt env (port parsedUrl) = Some portNum /\
                     1 <= portNum <= 65535) /\
    includes (pathname parsedUrl) ".." = false /\
    includes (pathname parsedUrl) "//" = false.

Definition rejected (v : ValidationResult) : Prop :=
  vr_url v = None /\ vr_parsedUrl v = None /\
  exists e,
    vr_error v = Some e /\
    err_error e ∈ validator_codes /\
    err_error e <> "BLOCKED_DOMAIN"%string /\
    forall step originalError,
      err_details e <> Some (DetailsStep step originalError).

(** The result of [validateUrl] as a function of the string: the
    validator reads nothing but its argument. *)
Definition validation_of (env : Env) (urlString : string) : ValidationResult :=
  match fst (validateUrl env urlString tt) with
  | Normal v => v
  | _ => invalid "URL_PARSE_ERROR" "Failed to parse the provided URL" None
  end.

(** ** Further scenarios *)

(** A page whose navigation fails. *)
Definition unreachable_page : PageScript :=
  mkPageScript false (Normal tt) (Normal tt)
    (Throws (ErrorObj "Error" "net::ERR_NAME_NOT_RESOLVED")) 0
    (Normal ""%string) (mkMetrics 0 0 0 0) "" (Normal tt).

Definition unreachable_env : Env :=
  test_env (fun _ => unreachable_page) (fun _ => ok_shot 1280 800) ok_stats.

Definition reachable_env : Env :=
  test_env (fun _ => ok_page) (fun _ => ok_shot 1280 800) ok_stats.

(** The [PAGE_LOAD_FAILED] error of [loadPage]. *)
Definition load_error (cause : Thrown) (timeout : Z) : ApiError :=
  mkApiError "PAGE_LOAD_FAILED"
    ("Failed to load page: " ++ message_or cause "Unknown error")
    (Some (DetailsLoad (name_or cause "UnknownError") timeout)).

(** ** [BrowserService.getVersion], [WebsiteAuditor.getBrowserInfo] and
    [WebsiteAuditor.cleanup] *)

Record BrowserInfo := mkBrowserInfo {
  bi_version : string;
  bi_isReady : bool;
  bi_status : string;
  bi_error : option string
}.

(** ** The routes of [index.ts]

    A reply is a status code and a body. *)
Inductive Body :=
| JsonError (error message : string)
| JsonAudit (data : option WebsiteAuditResult)
| JsonQuick (data : option QuickData)
| JsonAccessibility (result : AccessibilityResult)
| JsonBrowserInfo (info : BrowserInfo)
| TextBody (text : string)
| FileBody (contentType data : string).

Record Reply := mkReply {
  reply_status : Z;
  reply_body : Body
}.

(** [s.endsWith(suffix)] *)
Definition endsWith (s suffix : string) : bool :=
  (String.length suffix <=? String.length s)%nat &&
  String.eqb
    (String.substring (String.length s - String.length suffix)
                      (String.length suffix) s)
    suffix.

(** [name.endsWith('.png') ? 'image/png' : 'image/jpeg'] *)
Definition contentType_of (name : string) : string :=
  if endsWith name ".png" then "image/png" else "image/jpeg".

(** The media type of an image of that type. *)
Definition media_type (type : ImageType) : string :=
  match type with
  | png => "image/png"
  | jpeg => "image/jpeg"
  | other_type name => ("image/" ++ name)%string
  end.

(** The media type a file with the extension of that type is served
    with. *)
Definition served_type (type : ImageType) : string :=
  match type with jpeg => "image/jpeg" | _ => "image/png" end.

Section Routes.

Variable env : Env.
Variable seo_title seo_description : string -> string.

(** [browser.version()] as it ends; [lost]: the browser disconnects
    while the call is awaited. *)
Variable version_r : Completion string.
Variable lost : bool.

(** [readFileSync] of a file of [public/screenshots], by its name. *)
Variable readFileSync : string -> Thrown + string.

Definition getVersion : M World string :=
  let! _ <- initialize env in
  let! b <- get browser in
  match b with
  | None => ret "Browser not initialized"%string
  | Some _ =>
      let! _ <- modify (if lost then on_disconnected else id) in
      ext version_r
  end.

Definition getBrowserInfo : M World BrowserInfo :=
  try_catch
    (let! version <- getVersion in
     let! isReady <- get isReady in
     ret (mkBrowserInfo version isReady
            (if isReady then "ready" else "initializing") None))
    (fun error =>
       ret (mkBrowserInfo "unknown" false "error"
              (Some (message_or error "Unknown error")))).

(** [cleanup]: [closing] is how [browser.close()] ends. *)
Definition cleanup (closing : Completion unit) : M World unit :=
  try_catch (close closing) (fun error => ret tt).

(** [x?.error || dflt] and [x?.message || dflt] on an optional error *)
Definition code_or (e : option ApiError) (dflt : string) : string :=
  string_or (from_option err_error "" e) dflt.

Definition text_or (e : option ApiError) (dflt : string) : string :=
  string_or (from_option err_message "" e) dflt.

(** [GET /audit].  [url] is [c.req.query('url')]; the three options
    are what the handler reads from the query, for a query whose
    [screenshotQuality] is a number. *)
Definition audit_route (url : option string) (includeScreenshot : bool)
    (screenshotType : ImageType) (screenshotQuality : Z) : M World Reply :=
  try_catch
    (match truthy url with
     | None =>
         ret (mkReply 400 (JsonError "MISSING_URL" "URL parameter is required"))
     | Some url =>
         let! validationResult <- validateUrl env url in
         if negb (vr_success validationResult) then
           ret (mkReply 400
                  (JsonError (code_or (vr_error validationResult) "INVALID_URL")
                             (text_or (vr_error validationResult)
                                      "Invalid URL provided")))
         else
           let validatedUrl := default "" (vr_url validationResult) in
           let! auditResult <-
             auditWebsite env validatedUrl
               (mkOptions None includeScreenshot (Some screenshotType)
                          (Some screenshotQuality) None) in
           if negb (ar_success auditResult) then
             ret (mkReply 500
                    (JsonError (code_or (ar_error auditResult) "AUDIT_FAILED")
                               (text_or (ar_error auditResult)
                                        "Failed to audit website")))
           else ret (mkReply 200 (JsonAudit (ar_data auditResult)))
     end)
    (fun error =>
       ret (mkReply 500 (JsonError "INTERNAL_ERROR" "An unexpected error occurred"))).

(** [GET /audit/quick] *)
Definition quick_route (url : option string) : M World Reply :=
  try_catch
    (match truthy url with
     | None =>
         ret (mkReply 400 (JsonError "MISSING_URL" "URL parameter is required"))
     | Some url =>
         let! validationResult <- validateUrl env url in
         if negb (vr_success validationResult) then
           ret (mkReply 400
                  (JsonError (code_or (vr_error validationResult) "INVALID_URL")
                             (text_or (vr_error validationResult)
                                      "Invalid URL provided")))
         else
           let! auditResult <-
             quickAudit env seo_title seo_description url
               (mkOptions None false None None None) in
           if negb (qr_success auditResult) then
             ret (mkReply 500
                    (JsonError (code_or (qr_error auditResult) "QUICK_AUDIT_FAILED")
                               (text_or (qr_error auditResult)
                                        "Failed to perform quick audit")))
           else ret (mkReply 200 (JsonQuick (qr_data auditResult)))
     end)
    (fun error =>
       ret (mkReply 500 (JsonError "INTERNAL_ERROR" "An unexpected error occurred"))).

(** [GET /audit/check] *)
Definition check_route (url : option string) : M World Reply :=
  try_catch
    (match truthy url with
     | None =>
         ret (mkReply 400 (JsonError "MISSING_URL" "URL parameter is required"))
     | Some url =>
         let! result <- checkUrlAccessibility env url in
         ret (mkReply 200 (JsonAccessibility result))
     end)
    (fun error =>
       ret (mkReply 500 (JsonError "INTERNAL_ERROR" "An unexpected error occurred"))).

(** [GET /browser/info] *)
Definition browser_info_route : M World Reply :=
  try_catch
    (let! info <- getBrowserInfo in
     ret (mkReply 200 (JsonBrowserInfo info)))
    (fun error =>
       ret (mkReply 500
              (JsonError "BROWSER_INFO_FAILED" "Failed to get browser information"))).

(** [GET /screenshots/:name] *)
Definition screenshot_route (name : string) : Reply :=
  match readFileSync name with
  | inr data => mkReply 200 (FileBody (contentType_of name) data)
  | inl e => mkReply 404 (TextBody "Not found")
  end.

End Routes.

(** What the three audit routes can answer. *)
Definition audit_reply (reply : Reply) : Prop :=
  match reply_body reply with
  | JsonError code _ =>
      (reply_status reply = 400 /\ code ∈ validator_codes) \/
      (reply_status reply = 500 /\
       (code = "AUDIT_FAILED"%string \/ code ∈ validator_codes))
  | JsonAudit data => reply_status reply = 200 /\ is_Some data
  | _ => False
  end.

Definition quick_reply (reply : Reply) : Prop :=
  match reply_body reply with
  | JsonError code _ =>
      (reply_status reply = 400 /\ code ∈ validator_codes) \/
      (reply_status reply = 500 /\
       (code = "PAGE_LOAD_FAILED"%string \/ code = "QUICK_AUDIT_FAILED"%string))
  | JsonQuick data => reply_status reply = 200 /\ is_Some data
  | _ => False
  end.

Definition check_reply (url : option string) (reply : Reply) : Prop :=
  match truthy url with
  | None =>
      reply = mkReply 400 (JsonError "MISSING_URL" "URL parameter is required")
  | Some _ =>
      exists result,
        reply = mkReply 200 (JsonAccessibility result) /\
        (acc_accessible result = false -> is_Some (acc_error result))
  end.

(** A screenshot record made for the type [type]: the file name
    ends in the extension chosen for the type, the URL is the route of
    that file, and the data URL names the extension as its media
    type. *)
Definition shot_of_type (type : ImageType) (shot : ScreenshotInfo) : Prop :=
  cap_type (shot_capture shot) = type /\
  (exists base, shot_filename shot = (base ++ "." ++ ext_of type)%string) /\
  shot_url shot = ("/screenshots/" ++ shot_filename shot)%string /\
  (exists payload,
     shot_base64 shot
     = ("data:image/" ++ ext_of type ++ ";base64," ++ payload)%string).

(** ** [extractDomain] and [isSameDomain] ([services/validator.ts]);
    [isValidUrl] and [getDomainFromUrl] ([utils/helpers.ts]) *)

Definition extractDomain (env : Env) (urlString : string) : option string :=
  match new_URL env urlString with
  | inr url => Some (hostname url)
  | inl _ => None
  end.

(** [!domain1 || !domain2]: a missing and an empty host name are both
    falsy. *)
Definition isSameDomain (env : Env) (url1 url2 : string) : bool :=
  match truthy (extractDomain env url1), truthy (extractDomain env url2) with
  | Some domain1, Some domain2 =>
      String.eqb (toLowerCase env domain1) (toLowerCase env domain2)
  | _, _ => false
  end.

Definition isValidUrl (env : Env) (str : string) : bool :=
  match new_URL env str with
  | inr _ => true
  | inl _ => false
  end.

Definition getDomainFromUrl (env : Env) (url : string) : option string :=
  match new_URL env url with
  | inr u => Some (hostname u)
  | inl _ => None
  end.

(** ** [truncateText] ([utils/helpers.ts])

    [text.slice(0, end)] for an integer [end]: a negative end counts
    from the end of the string, and the result is clamped to the
    string. *)
Definition slice_to (text : string) (end_ : Z) : string :=
  let len := Z.of_nat (String.length text) in
  let to := if end_ <? 0 then Z.max (len + end_) 0 else Z.min end_ len in
  String.substring 0 (Z.to_nat to) text.

Definition truncateText (text : string) (maxLength : Z) (suffix : string) : string :=
  if Z.of_nat (String.length text) <=? maxLength then text
  else (slice_to text (maxLength - Z.of_nat (String.length suffix)) ++ suffix)%string.

(** ** The file name stem of a screenshot ([screenshotUrl])

    [url.replace(/(^\w+:|\/\/)|[^a-z0-9]/gi, '_').slice(0, 120)] *)
Definition code (c : Ascii.ascii) : nat := Ascii.nat_of_ascii c.

Definition underscore : Ascii.ascii := Ascii.ascii_of_nat 95.
Definition slash : Ascii.ascii := Ascii.ascii_of_nat 47.
Definition colon : Ascii.ascii := Ascii.ascii_of_nat 58.

Definition is_digit (c : Ascii.ascii) : bool :=
  (48 <=? code c)%nat && (code c <=? 57)%nat.

Definition is_upper (c : Ascii.ascii) : bool :=
  (65 <=? code c)%nat && (code c <=? 90)%nat.

Definition is_lower (c : Ascii.ascii) : bool :=
  (97 <=? code c)%nat && (code c <=? 122)%nat.

(** [[a-z0-9]] under the flag [i] *)
Definition is_alnum (c : Ascii.ascii) : bool := is_digit c || is_upper c || is_lower c.

(** [\w] *)
Definition is_word (c : Ascii.ascii) : bool := is_alnum c || Ascii.eqb c underscore.

(** What is left after the longest run of word characters. *)
Fixpoint skip_word (s : string) : string :=
  match s with
  | String c rest => if is_word c then skip_word rest else s
  | EmptyString => EmptyString
  end.

(** [^\w+:] at the start of the string: the rest after the colon. *)
Definition after_scheme (s : string) : option string :=
  match s with
  | String c _ =>
      if is_word c then
        match skip_word s with
        | String c' rest => if Ascii.eqb c' colon then Some rest else None
        | EmptyString => None
        end
      else None
  | EmptyString => None
  end.

(** The other matches, from left to right: [//] becomes one [_], and
    so does every other character that is not a letter or a digit. *)
Fixpoint replace_unsafe (s : string) : string :=
  match s with
  | String c rest =>
      if Ascii.eqb c slash then
        match rest with
        | String c' rest' =>
            if Ascii.eqb c' slash then String underscore (replace_unsafe rest')
            else String underscore (replace_unsafe rest)
        | EmptyString => String underscore EmptyString
        end
      else String (if is_alnum c then c else underscore) (replace_unsafe rest)
  | EmptyString => EmptyString
  end.

Definition safeName (url : string) : string :=
  String.substring 0 120
    (match after_scheme url with
     | Some rest => String underscore (replace_unsafe rest)
     | None => replace_unsafe url
     end).

(** Every character of a string satisfies a test. *)
Fixpoint all_chars (p : Ascii.ascii -> bool) (s : string) : bool :=
  match s with
  | String c rest => p c && all_chars p rest
  | EmptyString => true
  end.

(** ** [extractStyles] ([services/parser.ts])

    [stylesheet_hrefs] gives [attr('href')] of every
    [link[rel="stylesheet"]] of the document and [style_contents] gives
    [html()] of every [style] element, both in document order. *)
Section Styles.

Variable env : Env.
Variable stylesheet_hrefs : string -> list (option string).
Variable style_contents : string -> list (option string).

Definition extractStyles (html baseUrl : string) : list StyleDetails :=
  flat_map
    (fun href =>
       match truthy href with
       | Some href => [mkStyle (Some (resolveUrl env href baseUrl)) None]
       | None => []
       end)
    (stylesheet_hrefs html)
  ++
  flat_map
    (fun content =>
       match truthy content with
       | Some content =>
           if negb (String.eqb (trim env content) "") then
             let truncatedContent :=
               if (2000 <? Z.of_nat (String.length content))
               then (String.substring 0 2000 content ++ "...")%string
               else content in
             [mkStyle None (Some truncatedContent)]
           else []
       | None => []
       end)
    (style_contents html).

End Styles.

(** An entry of [resources.scripts] or [resources.styles]: it names an
    external file, or it carries inline text of at most [limit]
    characters and the three dots. *)
Definition external_or_inline (limit : nat) (src inlineContent : option string) : Prop :=
  (is_Some src /\ inlineContent = None) \/
  (src = None /\
   exists content,
     inlineContent = Some content /\ content <> ""%string /\
     (String.length content <= limit + 3)%nat).

Definition is_external (s : StyleDetails) : bool :=
  match style_href s with Some _ => true | None => false end.

(** ** The waits of a retried operation

    [backoff_delay] adds and multiplies exactly; the program computes
    the same expression in floating point, rounding the product with
    the base delay, the product with 1000 and the sum.  [rounding fl]
    is what the bounds below need of a rounding: it keeps the order,
    and it leaves the whole numbers up to 2 ^ 53 as they are, as the
    rounding of doubles to nearest does.  A power of two is a double
    itself. *)
Definition rounding (fl : Q -> Q) : Prop :=
  (forall x y, (x <= y)%Q -> (fl x <= fl y)%Q) /\
  (forall n : Z, Z.abs n <= 2 ^ 53 -> (fl (inject_Z n) == inject_Z n)%Q).

(** [baseDelay * Math.pow(2, attempt) + Math.random() * 1000] under
    the rounding [fl] *)
Definition rounded_delay (fl : Q -> Q) (baseDelay : Q) (attempt : Z) (r : Q) : Q :=
  fl (fl (baseDelay * inject_Z (2 ^ attempt)) + fl (r * 1000))%Q.

(** The delays after the failed attempts [attempt], [attempt + 1], ...
    for the draws [rs] of [Math.random()]. *)
Fixpoint waits (fl : Q -> Q) (baseDelay : Q) (attempt : Z) (rs : list Q) : list Q :=
  match rs with
  | [] => []
  | r :: rest =>
      rounded_delay fl baseDelay attempt r :: waits fl baseDelay (attempt + 1) rest
  end.

(** No rounding at all. *)
Definition exactly (q : Q) : Q := q.

(** [delays_from baseDelay attempt ds]: each of the delays [ds],
    slept after the failed attempts [attempt], [attempt + 1], ..., is
    at least its exponential base and at most one second more. *)
Fixpoint delays_from (baseDelay : Q) (attempt : Z) (ds : list Q) : Prop :=
  match ds with
  | [] => True
  | d :: rest =>
      (baseDelay * inject_Z (2 ^ attempt) <= d
       /\ d <= baseDelay * inject_Z (2 ^ attempt) + 1000)%Q /\
      delays_from baseDelay (attempt + 1) rest
  end.

(** The total of a list of delays. *)
Definition total (ds : list Q) : Q := fold_right Qplus 0%Q ds.

(** [Math.random()] returns a number from 0 up to, not including, 1. *)
Definition in_range (r : Q) : Prop := (0 <= r /\ r < 1)%Q.

Definition random_in_range (env : Env) : Prop :=
  forall n, in_range (random env n).

(** What one audit waits: the delays for at most two draws, which are
    in range when the random source is. *)
Definition audit_waits (w w' : World) : Prop :=
  exists rs,
    (length rs <= 2)%nat /\ Forall in_range rs /\
    slept w' = slept w ++ waits exactly 1000 0 rs.

(** ** [cleanText] and [sanitizeFilename] ([utils/helpers.ts])

    A JavaScript string is a sequence of UTF-16 code units; the two
    functions look at single code units only, so here a text is the
    list of its code units. *)
Definition Text := list N.

Definition SPACE : N := 32.
Definition NEWLINE : N := 10.
Definition UNDERSCORE : N := 95.

(** [\s], and what [trim] removes: the white space and line
    terminators of ECMAScript. *)
Definition is_space (c : N) : bool :=
  ((9 <=? c) && (c <=? 13) || (c =? 32) || (c =? 160) || (c =? 5760)
   || (8192 <=? c) && (c <=? 8202) || (c =? 8232) || (c =? 8233)
   || (c =? 8239) || (c =? 8287) || (c =? 12288) || (c =? 65279))%N.

(** [.replace(/\s+/g, ' ')]: every longest run of white space becomes
    one space, written when the run ends. *)
Fixpoint collapse_spaces (s : Text) : Text :=
  match s with
  | [] => []
  | c :: rest =>
      if is_space c then
        match rest with
        | c' :: _ => if is_space c' then collapse_spaces rest
                     else SPACE :: collapse_spaces rest
        | [] => [SPACE]
        end
      else c :: collapse_spaces rest
  end.

(** Is there a newline in the run of white space a text starts with? *)
Fixpoint newline_in_run (s : Text) : bool :=
  match s with
  | c :: rest => is_space c && ((c =? NEWLINE)%N || newline_in_run rest)
  | [] => false
  end.

(** [.replace(/\n\s*\n/g, '\n')]: a match starts at a newline that is
    followed, within the same run of white space, by another newline;
    being greedy it ends at the last newline of that run.  [inside]
    says that the text read so far ends inside a match. *)
Fixpoint squeeze_newlines (inside : bool) (s : Text) : Text :=
  match s with
  | [] => []
  | c :: rest =>
      if inside then
        if (c =? NEWLINE)%N && negb (newline_in_run rest)
        then squeeze_newlines false rest
        else squeeze_newlines true rest
      else if (c =? NEWLINE)%N && newline_in_run rest
      then NEWLINE :: squeeze_newlines true rest
      else c :: squeeze_newlines false rest
  end.

Fixpoint drop_spaces (s : Text) : Text :=
  match s with
  | c :: rest => if is_space c then drop_spaces rest else s
  | [] => []
  end.

(** [.trim()] *)
Definition trim_text (s : Text) : Text :=
  reverse (drop_spaces (reverse (drop_spaces s))).

Definition cleanText (text : Text) : Text :=
  trim_text (squeeze_newlines false (collapse_spaces text)).

(** No character [c] twice in a row. *)
Fixpoint no_double (c : N) (s : Text) : bool :=
  match s with
  | a :: rest =>
      match rest with
      | b :: _ => negb ((a =? c)%N && (b =? c)%N)
      | [] => true
      end && no_double c rest
  | [] => true
  end.

(** [[a-z0-9.-]] under the flag [i] *)
Definition is_name_char (c : N) : bool :=
  ((48 <=? c) && (c <=? 57) || (65 <=? c) && (c <=? 90)
   || (97 <=? c) && (c <=? 122) || (c =? 46) || (c =? 45))%N.

(** [.replace(/[^a-z0-9.-]/gi, '_')] *)
Definition replace_other (s : Text) : Text :=
  map (fun c => if is_name_char c then c else UNDERSCORE) s.

(** [.replace(/_+/g, '_')] *)
Fixpoint collapse_underscores (s : Text) : Text :=
  match s with
  | [] => []
  | c :: rest =>
      if (c =? UNDERSCORE)%N then
        match rest with
        | c' :: _ => if (c' =? UNDERSCORE)%N then collapse_underscores rest
                     else UNDERSCORE :: collapse_underscores rest
        | [] => [UNDERSCORE]
        end
      else c :: collapse_underscores rest
  end.

(** [_$], looked for after the first character of the text *)
Definition strip_last (s : Text) : Text :=
  match reverse s with
  | c :: before => if (c =? UNDERSCORE)%N then reverse before else s
  | [] => s
  end.

(** [.replace(/^_|_$/g, '')]: an underscore at the start is the first
    match, an underscore at the end after it the second. *)
Definition strip_ends (s : Text) : Text :=
  match s with
  | c :: rest => if (c =? UNDERSCORE)%N then strip_last rest else strip_last s
  | [] => []
  end.

(** [.toLowerCase()] of a code unit that is a letter of ASCII; the
    text it is applied to holds no other letters. *)
Definition lower (c : N) : N :=
  if ((65 <=? c) && (c <=? 90))%N then (c + 32)%N else c.

Definition sanitizeFilename (filename : Text) : Text :=
  map lower (strip_ends (collapse_underscores (replace_other filename))).

(** The characters of a sanitized name: small letters, digits, dot,
    hyphen and underscore. *)
Definition is_sanitized_char (c : N) : bool :=
  ((48 <=? c) && (c <=? 57) || (97 <=? c) && (c <=? 122)
   || (c =? 46) || (c =? 45) || (c =? 95))%N.

(** ** Slots over a whole audit

    [idle]: nobody waits for a slot and one is free.  [balanced]: as
    many slots were released as were acquired, and the limiter counts
    as before.  [untouched]: the limiter and both counts are as
    before. *)
Definition idle (w : World) : Prop :=
  queue (slots w) = [] /\
  0 <= currentSlots (slots w) < maxConcurrentPages (slots w).

Definition balanced (w w' : World) : Prop :=
  currentSlots (slots w') = currentSlots (slots w) /\
  maxConcurrentPages (slots w') = maxConcurrentPages (slots w) /\
  queue (slots w') = queue (slots w) /\
  (acquired w' + released w = acquired w + released w')%nat.

Definition untouched (w w' : World) : Prop :=
  slots w' = slots w /\ acquired w' = acquired w /\ released w' = released w.

(** A computation that, started with a free slot and not left
    pending, gives back what it took. *)
Definition returns_slots {A} (m : M World A) : Prop :=
  forall w r w', idle w -> m w = (r, w') -> r <> Pending -> balanced w w'.

(** The browser is not lost while a page load waits for its slot. *)
Definition pages_keep_browser (env : Env) : Prop :=
  forall n, browser_lost (page_script env n) = false.

(** A screenshot call either finds the browser gone, or opens its page
    and closes it again. *)
Definition shots_close (env : Env) : Prop :=
  forall n,
    s_browser_lost (shot_script env n) = true \/
    (s_newPage_r (shot_script env n) = Normal tt /\
     s_close_r (shot_script env n) = Normal tt).

(** ** A scenario for the served files *)

(** An environment like [reachable_env] whose file name stems are
    those of the code, and a reader that finds one file. *)
Definition named_env : Env :=
  mkEnv (trim reachable_env) (toLowerCase reachable_env) (parseInt reachable_env)
        (zod_string_url reachable_env) (new_URL reachable_env)
        (resolveUrl reachable_env) (toBase64 reachable_env) safeName
        (launch_r reachable_env) (page_script reachable_env)
        (shot_script reachable_env) (random reachable_env)
        (script_elements reachable_env) (extract_rest reachable_env)
        (page_statistics reachable_env).

Definition one_file (name data : string) (asked : string) : Thrown + string :=
  if String.eqb asked name then inr data
  else inl (ErrorObj "Error" "ENOENT: no such file or directory").

(** An environment with the file name stems of the code, a page that
    loads and a document 30001 pixels high. *)
Definition tall_page_env : Env :=
  let env := test_env (fun _ => ok_page) (fun _ => ok_shot 1280 30001) ok_stats in
  mkEnv (trim env) (toLowerCase env) (parseInt env)
        (zod_string_url env) (new_URL env)
        (resolveUrl env) (toBase64 env) safeName
        (launch_r env) (page_script env)
        (shot_script env) (random env)
        (script_elements env) (extract_rest env)
        (page_statistics env).

(** * Properties *)

(** ** The limiter *)

Example limiter_run_2 :
  let s := run_calls [Acquire; Acquire; Acquire; Acquire; Release] (initSlots 2) in
  currentSlots s = 2 /\ resolved s = [0; 1; 2]%nat /\ queue s = [3%nat].
Proof. vm_compute. auto. Qed.

Example newSlots_default :
  maxConcurrentPages (newSlots None) = 2 /\
  maxConcurrentPages (newSlots (Some 0)) = 2 /\
  maxConcurrentPages (newSlots (Some 5)) = 5.
Proof. vm_compute. auto. Qed.

(** A service is constructed with no slot taken and a capacity that is
    never zero. *)
Lemma newSlots_initSlots env :
  newSlots env = initSlots (number_or env 2) /\ number_or env 2 <> 0.
Proof.
  split; [reflexivity|]. unfold number_or.
  destruct env as [v|]; [|lia]. destruct (Z.eqb_spec v 0); lia.
Qed.

(** The capacity is fixed at construction. *)
Lemma max_acquireSlot s : maxConcurrentPages (acquireSlot s) = maxConcurrentPages s.
Proof. unfold acquireSlot. by destruct (_ <? _). Qed.

Lemma max_releaseSlot s : maxConcurrentPages (releaseSlot s) = maxConcurrentPages s.
Proof. unfold releaseSlot. by destruct (queue s). Qed.

Lemma max_run_calls cs s : maxConcurrentPages (run_calls cs s) = maxConcurrentPages s.
Proof.
  revert s. induction cs as [|c cs IH]; intros s; simpl; [done|].
  rewrite IH. destruct c; [apply max_acquireSlot | apply max_releaseSlot].
Qed.

(** Every call keeps the counter between zero and the capacity. *)
Lemma bounded_acquireSlot s : slots_bounded s -> slots_bounded (acquireSlot s).
Proof.
  unfold slots_bounded, acquireSlot. intros H.
  destruct (currentSlots s <? maxConcurrentPages s) eqn:E; simpl; lia.
Qed.

Lemma bounded_releaseSlot s :
  1 <= maxConcurrentPages s -> slots_bounded s -> slots_bounded (releaseSlot s).
Proof.
  unfold slots_bounded, releaseSlot. intros HN H.
  destruct (queue s); simpl; lia.
Qed.

Lemma bounded_run_calls cs s :
  1 <= maxConcurrentPages s -> slots_bounded s -> slots_bounded (run_calls cs s).
Proof.
  revert s. induction cs as [|c cs IH]; intros s HN H; simpl; [done|].
  destruct c; simpl; apply IH.
  - by rewrite max_acquireSlot.
  - by apply bounded_acquireSlot.
  - by rewrite max_releaseSlot.
  - by apply bounded_releaseSlot.
Qed.

(** While the service is full, further [acquireSlot] calls only grow
    the queue. *)
Lemma acquire_when_full s :
  maxConcurrentPages s <= currentSlots s ->
  acquireSlot s =
    mkSlots (maxConcurrentPages s) (currentSlots s) (queue s ++ [issued s])
            (resolved s) (S (issued s)).
Proof.
  intros H. unfold acquireSlot.
  destruct (currentSlots s <? maxConcurrentPages s) eqn:E; [lia|done].
Qed.

Lemma acquires_when_full cs s :
  Forall (fun c => c = Acquire) cs ->
  maxConcurrentPages s <= currentSlots s ->
  let s' := run_calls cs s in
  resolved s' = resolved s /\ currentSlots s' = currentSlots s /\
  maxConcurrentPages s' = maxConcurrentPages s /\
  exists later, queue s' = queue s ++ later.
Proof.
  revert s. induction cs as [|c cs IH]; intros s Hall Hfull; simpl.
  - repeat split. exists []. by rewrite app_nil_r.
  - inversion Hall as [|? ? Hc Hall']; subst. simpl.
    rewrite (acquire_when_full s Hfull).
    match goal with |- context [run_calls cs ?x] => specialize (IH x Hall') end.
    simpl in IH. destruct (IH Hfull) as (Hr & Hc & Hm & later & Hq).
    repeat split; [done..|].
    exists (issued s :: later). rewrite Hq. by rewrite <- app_assoc.
Qed.

(** Every call keeps the FIFO invariant. *)
Lemma fifo_acquireSlot s : fifo_inv s -> fifo_inv (acquireSlot s).
Proof.
  unfold fifo_inv, acquireSlot. intros [Hseq Hfull].
  destruct (currentSlots s <? maxConcurrentPages s) eqn:E;
    cbn [resolved queue issued currentSlots maxConcurrentPages].
  - assert (Hq : queue s = []).
    { destruct (queue s) eqn:Eq; [done|].
      assert (maxConcurrentPages s <= currentSlots s) by (apply Hfull; done). lia. }
    rewrite Hq in *. rewrite app_nil_r in *. split; [|done].
    rewrite seq_S. simpl. by rewrite Hseq.
  - split; [|lia].
    rewrite seq_S. simpl. by rewrite app_assoc, Hseq.
Qed.

Lemma fifo_releaseSlot s : fifo_inv s -> fifo_inv (releaseSlot s).
Proof.
  unfold fifo_inv, releaseSlot. intros [Hseq Hfull].
  destruct (queue s) as [|next rest] eqn:Eq;
    cbn [run_resolver resolved queue issued currentSlots maxConcurrentPages].
  - split; [done|]. intros; done.
  - split.
    + rewrite <- Hseq. by rewrite <- app_assoc.
    + intros _.
      assert (maxConcurrentPages s <= currentSlots s) by (apply Hfull; done). lia.
Qed.

Lemma fifo_run_calls cs s : fifo_inv s -> fifo_inv (run_calls cs s).
Proof.
  revert s. induction cs as [|c cs IH]; intros s H; simpl; [done|].
  apply IH. destruct c; [by apply fifo_acquireSlot | by apply fifo_releaseSlot].
Qed.

Lemma fifo_init N : fifo_inv (initSlots N).
Proof. split; [done|]. simpl. done. Qed.

Lemma fifo_resolved_seq s :
  fifo_inv s ->
  resolved s = seq 0 (length (resolved s)) /\
  queue s = seq (length (resolved s)) (length (queue s)).
Proof.
  intros [Hseq _].
  assert (Hlen : issued s = (length (resolved s) + length (queue s))%nat).
  { rewrite <- (length_seq (issued s) 0), <- Hseq. by rewrite length_app. }
  rewrite Hlen, seq_app in Hseq. simpl in Hseq.
  apply app_inj_1 in Hseq; [done|]. by rewrite length_seq.
Qed.


Lemma fifo_reachable N calls : fifo_inv (run_calls calls (initSlots N)).
Proof. apply fifo_run_calls, fifo_init. Qed.

Lemma issued_not_resolved s : fifo_inv s -> issued s ∉ resolved s.
Proof.
  intros [Hseq _] Hin.
  assert (Hin' : issued s ∈ seq 0 (issued s)).
  { rewrite <- Hseq. apply elem_of_app. by left. }
  apply elem_of_seq in Hin'. lia.
Qed.

Lemma release_grants_head s t rest :
  queue s = t :: rest ->
  resolved (releaseSlot s) = resolved s ++ [t] /\ queue (releaseSlot s) = rest.
Proof. intros Hq. unfold releaseSlot. rewrite Hq. done. Qed.

Lemma head_is_longest_waiting s t rest :
  fifo_inv s -> queue s = t :: rest -> Forall (fun u => (t < u)%nat) rest.
Proof.
  intros Hinv Hq. destruct (fifo_resolved_seq s Hinv) as [_ Hqs].
  rewrite Hq in Hqs. simpl in Hqs. injection Hqs as Ht Hrest.
  rewrite Hrest. apply Forall_forall. intros u Hu.
  apply elem_of_seq in Hu. lia.
Qed.

Lemma no_overtaking s i j :
  fifo_inv s -> (i < j)%nat -> j ∈ resolved s ->
  exists p q, (p < q)%nat /\ resolved s !! p = Some i /\ resolved s !! q = Some j.
Proof.
  intros Hinv Hij Hj. destruct (fifo_resolved_seq s Hinv) as [Hr _].
  rewrite Hr in Hj. apply elem_of_seq in Hj.
  exists i, j. split; [done|]. rewrite Hr.
  split; apply lookup_seq; lia.
Qed.

Lemma no_barging s : fifo_inv s -> queue s <> [] -> resolved (acquireSlot s) = resolved s.
Proof.
  intros [_ Hfull] Hq. rewrite acquire_when_full; [done|]. by apply Hfull.
Qed.

(** C2.  For every interleaving of [acquireSlot] and [releaseSlot]
    calls on a service of capacity [N >= 1], [currentSlots] never
    exceeds [N].  When [N] slots are outstanding, a further
    [acquireSlot] is queued and its promise stays unresolved whatever
    other [acquireSlot] calls follow; with nobody queued ahead of it,
    the next [releaseSlot] resolves it. *)
Theorem slots_never_exceed_capacity (N : Z) (calls : list SlotCall) :
  1 <= N ->
  let s := run_calls calls (initSlots N) in
  currentSlots s <= N /\
  (currentSlots s = N ->
   forall more, Forall (fun c => c = Acquire) more ->
     let s' := run_calls more (acquireSlot s) in
     (issued s ∉ resolved s') /\ (issued s ∈ queue s') /\ currentSlots s' = N /\
     (queue s = [] -> issued s ∈ resolved (releaseSlot s'))).
Proof.
  intros HN s.
  assert (Hmax : maxConcurrentPages s = N) by (unfold s; by rewrite max_run_calls).
  assert (Hb : slots_bounded s).
  { unfold s. apply bounded_run_calls; simpl; [lia|]. unfold slots_bounded. simpl. lia. }
  split; [unfold slots_bounded in Hb; lia|].
  intros Hfull more Hmore s'.
  assert (Hinv : fifo_inv s) by apply fifo_reachable.
  assert (Hacq := acquire_when_full s ltac:(lia)).
  destruct (acquires_when_full more (acquireSlot s) Hmore) as (Hr & Hc & _ & later & Hq).
  { rewrite Hacq. simpl. lia. }
  fold s' in Hr, Hc, Hq. rewrite Hacq in Hr, Hc, Hq. simpl in Hr, Hc, Hq.
  repeat split.
  - rewrite Hr. by apply issued_not_resolved.
  - rewrite Hq. apply elem_of_app. left. apply elem_of_app. right. by apply list_elem_of_singleton.
  - lia.
  - intros Hempty. rewrite Hempty in Hq. simpl in Hq.
    destruct (release_grants_head s' _ _ Hq) as [Hres _].
    rewrite Hres. apply elem_of_app. right. by apply list_elem_of_singleton.
Qed.

Lemma slots_never_exceed_capacity_witness :
  let s := run_calls [Acquire; Acquire; Release; Acquire] (initSlots 2) in
  currentSlots s = 2 /\
  (3%nat ∈ queue (run_calls [Acquire] (acquireSlot s))) /\
  (3%nat ∈ resolved (releaseSlot (run_calls [Acquire] (acquireSlot s)))).
Proof.
  pose proof (slots_never_exceed_capacity 2 [Acquire; Acquire; Release; Acquire]
                ltac:(lia)) as [_ H].
  specialize (H eq_refl [Acquire] ltac:(repeat constructor)).
  destruct H as (_ & Hq & _ & Hr).
  split; [reflexivity|]. split; [exact Hq | exact (Hr eq_refl)].
Defined.

(** C3.  The waiting queue is first-in first-out.  Over every
    interleaving, the tickets resolved so far followed by the tickets
    still queued are exactly the arrival order; a [releaseSlot] that
    finds waiters resolves the head of the queue, which arrived before
    every other waiter; a ticket is never resolved before an earlier
    one; and while somebody waits an arriving [acquireSlot] is queued
    rather than served. *)
Theorem slot_queue_is_fifo (N : Z) (calls : list SlotCall) :
  let s := run_calls calls (initSlots N) in
  resolved s ++ queue s = seq 0 (issued s) /\
  (forall t rest, queue s = t :: rest ->
     resolved (releaseSlot s) = resolved s ++ [t] /\
     queue (releaseSlot s) = rest /\
     Forall (fun u => (t < u)%nat) rest) /\
  (forall i j, (i < j)%nat -> j ∈ resolved s ->
     exists p q, (p < q)%nat /\ resolved s !! p = Some i /\ resolved s !! q = Some j) /\
  (queue s <> [] -> resolved (acquireSlot s) = resolved s).
Proof.
  intros s. assert (Hinv : fifo_inv s) by apply fifo_reachable.
  split; [apply Hinv|]. split; [|split].
  - intros t rest Hq. destruct (release_grants_head s t rest Hq) as [H1 H2].
    repeat split; [done..|]. by eapply head_is_longest_waiting.
  - intros i j. by apply no_overtaking.
  - by apply no_barging.
Qed.

Lemma slot_queue_is_fifo_witness :
  let s := run_calls [Acquire; Acquire; Acquire; Release; Acquire] (initSlots 1) in
  resolved (releaseSlot s) = [0; 1; 2]%nat /\
  queue (releaseSlot s) = [3%nat] /\
  (exists p q, (p < q)%nat /\ resolved s !! p = Some 0%nat /\ resolved s !! q = Some 1%nat) /\
  resolved (acquireSlot s) = [0; 1]%nat.
Proof.
  pose proof (slot_queue_is_fifo 1 [Acquire; Acquire; Acquire; Release; Acquire])
    as (_ & Hrel & Hord & Hbarge).
  destruct (Hrel 2%nat [3%nat] eq_refl) as (H1 & H2 & _).
  split; [exact H1|]. split; [exact H2|]. split.
  - apply (Hord 0%nat 1%nat); [lia|]. vm_compute. apply list_elem_of_In. simpl. auto.
  - apply Hbarge. discriminate.
Defined.

(** ** [retryWithBackoff] *)

Example retry_three_failures :
  retry_scripted (T := Z) (fun _ => Throws (ErrorObj "Error" "unreachable"))
    (fun _ => 1 # 2) 2 1000 =
  (Throws (ErrorObj "Error" "unreachable"),
   mkHarness 3 2
     [Invoked 0; Waited (backoff_delay 1000 0 (1 # 2)); Invoked 1;
      Waited (backoff_delay 1000 1 (1 # 2)); Invoked 2]).
Proof. reflexivity. Qed.

Example retry_second_succeeds :
  fst (retry_scripted
         (fun i => if Nat.eqb i 0 then Throws (NonError "boom") else Normal 7)
         (fun _ => 0%Q) 3 1000) = Normal 7.
Proof. reflexivity. Qed.

Example retry_negative_budget :
  retry_scripted (T := Z) (fun _ => Normal 1) (fun _ => 0%Q) (-1) 1000 =
  (Throws (NonError "undefined"), harness0).
Proof. reflexivity. Qed.

Lemma as_Error_of_Error e : instanceof_Error e = true -> as_Error e = e.
Proof. unfold as_Error. by intros ->. Qed.

Lemma as_Error_of_other e :
  instanceof_Error e = false -> as_Error e = ErrorObj "Error" "Unknown error".
Proof. unfold as_Error. by intros ->. Qed.

Lemma delay_before_step c d j rest i :
  delay_before (Invoked c :: Waited d :: Invoked j :: rest) i =
  if Nat.eqb j i then Some d else delay_before (Invoked j :: rest) i.
Proof. reflexivity. Qed.

Section RetryRun.

(** One run of [retryWithBackoff] in the harness: the operation is any
    sequence of outcomes, the random source any sequence of draws. *)
Context {T : Type} (outcomes : nat -> Completion T) (random : nat -> Q).
Context (maxRetries : Z) (baseDelay : Q).

(** The run of the loop from any attempt on: it makes [n >= 1]
    invocations, every one but the last threw, only the last one of
    the budget may throw at the end, and the timeline alternates
    invocations and waits. *)
Lemma retry_from_shape (R : nat) :
  forall (h : Harness) (attempt : Z) (lastError : option Thrown),
    attempt = Z.of_nat (h_calls h) ->
    h_draws h = h_calls h ->
    attempt + Z.of_nat R = maxRetries + 1 ->
    (1 <= R)%nat ->
    exists n h',
      @retry_from Harness T (harness_runtime random) (scripted outcomes)
        maxRetries baseDelay R attempt lastError h
      = (final_of (outcomes (h_calls h + n - 1)%nat), h') /\
      (1 <= n <= R)%nat /\
      h_calls h' = (h_calls h + n)%nat /\
      h_timeline h' = h_timeline h ++ timeline_from baseDelay random (h_calls h) n /\
      (forall i, (i < n - 1)%nat -> is_throw (outcomes (h_calls h + i)%nat)) /\
      ((n < R)%nat -> ~ is_throw (outcomes (h_calls h + n - 1)%nat)).
Proof.
  induction R as [|R IH]; intros h attempt lastError Hatt Hdr Hsum HR; [lia|].
  cbn [retry_from]. unfold try_catch at 1. unfold scripted at 1.
  destruct (outcomes (h_calls h)) as [v|e|] eqn:Eo;
    [ | destruct (attempt =? maxRetries) eqn:Elast | ].
  1,2,4: exists 1%nat; eexists;
    replace (h_calls h + 1 - 1)%nat with (h_calls h) by lia;
    rewrite Eo; split; [reflexivity|]; cbn;
    split; [lia|]; split; [lia|]; split; [reflexivity|];
    split; [intros i Hi; lia|].
  - intros _ [e He]. congruence.
  - intros HR1. lia.
  - intros _ [e He]. congruence.
  - assert (HR' : (1 <= R)%nat) by lia.
    unfold bindM at 1. cbn [Math_random harness_runtime h_draws h_calls h_timeline].
    unfold bindM at 1. unfold modify at 1.
    cbn [setTimeout_wait harness_runtime h_draws h_calls h_timeline].
    match goal with |- context [retry_from _ _ _ R _ _ ?hh] => set (h3 := hh) end.
    destruct (IH h3 (attempt + 1) (Some (as_Error e)))
      as (n & h' & Hrun & Hn & Hc & Htl & Hpre & Hlast).
    { subst h3. cbn. lia. }
    { subst h3. cbn. lia. }
    { lia. }
    { exact HR'. }
    exists (S n), h'.
    assert (Hc3 : h_calls h3 = S (h_calls h)) by (subst h3; reflexivity).
    rewrite Hc3 in *.
    replace (h_calls h + S n - 1)%nat with (S (h_calls h) + n - 1)%nat by lia.
    split; [exact Hrun|]. split; [lia|]. split; [lia|]. split; [|split].
    + rewrite Htl. subst h3. cbn [h_timeline].
      rewrite <- !app_assoc. f_equal.
      destruct n as [|n']; [lia|]. cbn [timeline_from app].
      rewrite Hdr, Hatt. reflexivity.
    + intros i Hi. destruct i as [|i].
      * rewrite Nat.add_0_r. by exists e.
      * replace (h_calls h + S i)%nat with (S (h_calls h) + i)%nat by lia.
        apply Hpre. lia.
    + intros HnR. apply Hlast. lia.
Qed.

Lemma timeline_from_S c m :
  timeline_from baseDelay random c (S (S m)) =
  Invoked c :: Waited (backoff_delay baseDelay (Z.of_nat c) (random c))
    :: timeline_from baseDelay random (S c) (S m).
Proof. reflexivity. Qed.

Lemma timeline_from_head c m :
  exists rest, timeline_from baseDelay random c (S m) = Invoked c :: rest.
Proof. eexists. reflexivity. Qed.

Lemma delay_before_timeline (n : nat) :
  forall c i, (c < i < c + n)%nat ->
    delay_before (timeline_from baseDelay random c n) i =
    Some (backoff_delay baseDelay (Z.of_nat (i - 1)) (random (i - 1)%nat)).
Proof.
  induction n as [|m IH]; intros c i Hi; [lia|].
  destruct m as [|m']; [lia|].
  rewrite timeline_from_S.
  destruct (timeline_from_head (S c) m') as [rest Hrest].
  specialize (IH (S c) i). rewrite Hrest in *.
  rewrite delay_before_step.
  destruct (Nat.eqb (S c) i) eqn:E.
  - apply Nat.eqb_eq in E. subst i.
    replace (S c - 1)%nat with c by lia. reflexivity.
  - apply Nat.eqb_neq in E. apply IH. lia.
Qed.

Lemma retry_scripted_shape :
  0 <= maxRetries ->
  exists n h',
    retry_scripted outcomes random maxRetries baseDelay
    = (final_of (outcomes (n - 1)%nat), h') /\
    (1 <= n <= Z.to_nat maxRetries + 1)%nat /\
    h_calls h' = n /\
    h_timeline h' = timeline_from baseDelay random 0 n /\
    (forall i, (i < n - 1)%nat -> is_throw (outcomes i)) /\
    ((n < Z.to_nat maxRetries + 1)%nat -> ~ is_throw (outcomes (n - 1)%nat)).
Proof.
  intros Hpos. unfold retry_scripted, retryWithBackoff.
  destruct (retry_from_shape (Z.to_nat (maxRetries + 1)) harness0 0 None)
    as (n & h' & Hrun & Hn & Hc & Htl & Hpre & Hlast); try reflexivity; try lia.
  exists n, h'. cbn [h_calls h_timeline harness0 Nat.add app] in *.
  replace (Z.to_nat (maxRetries + 1)) with (Z.to_nat maxRetries + 1)%nat in * by lia.
  repeat split; try assumption; lia.
Qed.

Lemma retry_scripted_no_budget :
  maxRetries < 0 ->
  retry_scripted outcomes random maxRetries baseDelay
  = (Throws (NonError "undefined"), harness0).
Proof.
  intros Hneg. unfold retry_scripted, retryWithBackoff.
  replace (Z.to_nat (maxRetries + 1)) with 0%nat by lia. reflexivity.
Qed.

(** C4, as the code has it.  In every run of [retryWithBackoff], every
    attempt [i >= 1] that is made is immediately preceded by one wait,
    and that wait is [baseDelay * 2^(i-1)] plus a jitter of
    [Math.random() * 1000], which lies in [0, 1000) because
    [Math.random()] lies in [0, 1). *)
Theorem retry_delay_before_attempt (i : nat) :
  (forall k, 0 <= random k < 1)%Q ->
  let h := snd (retry_scripted outcomes random maxRetries baseDelay) in
  (1 <= i < h_calls h)%nat ->
  exists d jitter,
    delay_before (h_timeline h) i = Some d /\
    jitter = (random (i - 1)%nat * 1000)%Q /\
    (0 <= jitter < 1000)%Q /\
    (d == baseDelay * inject_Z (2 ^ (Z.of_nat i - 1)) + jitter)%Q.
Proof.
  intros Hrand h Hi.
  destruct (Z_lt_ge_dec maxRetries 0) as [Hneg|Hpos].
  - unfold h in Hi. rewrite retry_scripted_no_budget in Hi by assumption.
    cbn in Hi. lia.
  - destruct (retry_scripted_shape ltac:(lia))
      as (n & h' & Hrun & Hn & Hc & Htl & _).
    unfold h in *. rewrite Hrun in *. cbn [snd] in *.
    rewrite Hc in Hi. rewrite Htl.
    exists (backoff_delay baseDelay (Z.of_nat (i - 1)) (random (i - 1)%nat)),
           (random (i - 1)%nat * 1000)%Q.
    split; [apply delay_before_timeline; lia|]. split; [reflexivity|].
    split.
    + destruct (Hrand (i - 1)%nat). split; lra.
    + unfold backoff_delay. replace (Z.of_nat (i - 1)) with (Z.of_nat i - 1) by lia.
      reflexivity.
Qed.

(** C5, as the code has it.  For an operation that throws on its
    first [k] invocations and returns [v] on the next one, and a retry
    budget [maxRetries >= 0]: with [k <= maxRetries] the call returns
    [v] after exactly [k + 1] invocations; with [maxRetries < k] it
    makes exactly [maxRetries + 1] invocations and throws what the last
    one threw if that is an [Error] instance, and a fresh
    [Error('Unknown error')] in place of any other thrown value. *)
Theorem retry_attempts_and_final_error (k : nat) (v : T) :
  0 <= maxRetries ->
  (forall i, (i < k)%nat -> is_throw (outcomes i)) ->
  outcomes k = Normal v ->
  let run := retry_scripted outcomes random maxRetries baseDelay in
  (Z.of_nat k <= maxRetries ->
     fst run = Normal v /\ h_calls (snd run) = (k + 1)%nat) /\
  (maxRetries < Z.of_nat k ->
     h_calls (snd run) = (Z.to_nat maxRetries + 1)%nat /\
     exists e,
       outcomes (Z.to_nat maxRetries) = Throws e /\
       fst run = Throws (as_Error e) /\
       (instanceof_Error e = true -> fst run = Throws e) /\
       (instanceof_Error e = false ->
        fst run = Throws (ErrorObj "Error" "Unknown error"))).
Proof.
  intros Hpos Hfail Hok run.
  destruct (retry_scripted_shape Hpos)
    as (n & h' & Hrun & Hn & Hc & _ & Hpre & Hlast).
  unfold run. rewrite Hrun. cbn [fst snd].
  assert (Hnk : (n - 1 <= k)%nat).
  { destruct (le_lt_dec (n - 1) k) as [|Hlt]; [done|].
    destruct (Hpre k Hlt) as [e He]. congruence. }
  split.
  - intros Hk.
    assert (n - 1 = k)%nat as Heq.
    { destruct (Nat.eq_dec (n - 1) k) as [|Hne]; [done|].
      exfalso. apply Hlast; [lia|]. apply Hfail. lia. }
    rewrite Heq, Hok. split; [reflexivity|lia].
  - intros Hk.
    assert (n = Z.to_nat maxRetries + 1)%nat as Heq.
    { destruct (Nat.eq_dec n (Z.to_nat maxRetries + 1)) as [|Hne]; [done|].
      exfalso. apply Hlast; [lia|]. apply Hfail. lia. }
    split; [lia|].
    replace (n - 1)%nat with (Z.to_nat maxRetries) by lia.
    destruct (Hfail (Z.to_nat maxRetries) ltac:(lia)) as [e He].
    exists e. rewrite He. cbn [final_of].
    split; [reflexivity|]. split; [reflexivity|].
    split; intros Hi; [by rewrite as_Error_of_Error | by rewrite as_Error_of_other].
Qed.

End RetryRun.

Lemma retry_delay_before_attempt_witness :
  exists d jitter,
    delay_before
      (h_timeline (snd (retry_scripted (T := Z)
                          (fun _ => Throws (ErrorObj "Error" "unreachable"))
                          (fun _ => 1 # 2) 2 1000))) 2 = Some d /\
    jitter = ((1 # 2) * 1000)%Q /\
    (0 <= jitter < 1000)%Q /\
    (d == 1000 * inject_Z (2 ^ (Z.of_nat 2 - 1)) + jitter)%Q.
Proof.
  apply (retry_delay_before_attempt (T := Z)
           (fun _ => Throws (ErrorObj "Error" "unreachable")) (fun _ => 1 # 2) 2 1000 2).
  - intros k. split; [discriminate | reflexivity].
  - vm_compute. lia.
Defined.

(** C4 as stated fails: with [baseDelay = 1000] and a draw of [1/2] the
    wait before attempt 1 is 1500 ms, which is not [1000 * 2^1] plus a
    jitter in [0, 1000). *)
Lemma retry_delay_is_not_base_times_two_to_the_i :
  let h := snd (retry_scripted (T := Z)
                  (fun _ => Throws (ErrorObj "Error" "unreachable"))
                  (fun _ => 1 # 2) 2 1000) in
  (1 <= 1 < h_calls h)%nat /\
  exists d, delay_before (h_timeline h) 1 = Some d /\
    ~ exists jitter, (0 <= jitter < 1000)%Q /\
        (d == 1000 * inject_Z (2 ^ 1) + jitter)%Q.
Proof.
  cbn zeta. split; [vm_compute; lia|].
  eexists. split; [reflexivity|].
  intros (jitter & [Hlo Hhi] & Heq).
  unfold backoff_delay in Heq.
  change (inject_Z (2 ^ 0)) with 1%Q in Heq.
  change (inject_Z (2 ^ 1)) with 2%Q in Heq. lra.
Qed.

Lemma retry_attempts_and_final_error_witness :
  let outcomes := fun i : nat =>
    if Nat.ltb i 3 then Throws (ErrorObj "Error" "Failed to load page: timeout")
    else Normal 200 in
  let random := fun _ : nat => 1 # 4 in
  (fst (retry_scripted outcomes random 3 1000) = Normal 200 /\
   h_calls (snd (retry_scripted outcomes random 3 1000)) = 4%nat) /\
  (h_calls (snd (retry_scripted outcomes random 2 1000)) = 3%nat /\
   fst (retry_scripted outcomes random 2 1000)
   = Throws (ErrorObj "Error" "Failed to load page: timeout")).
Proof.
  intros outcomes random.
  assert (Hfail : forall i, (i < 3)%nat -> is_throw (outcomes i)).
  { intros i Hi. exists (ErrorObj "Error" "Failed to load page: timeout").
    unfold outcomes. destruct (Nat.ltb_spec i 3); [reflexivity|lia]. }
  split.
  - apply (retry_attempts_and_final_error outcomes random 3 1000 3 200
             ltac:(lia) Hfail eq_refl). simpl. lia.
  - destruct (retry_attempts_and_final_error outcomes random 2 1000 3 200
                ltac:(lia) Hfail eq_refl) as [_ H].
    destruct H as (Hc & e & He & _ & Hsame & _); [simpl; lia|].
    split; [exact Hc|].
    injection He as <-. apply Hsame. reflexivity.
Defined.

(** C5 as stated fails: an operation that throws the string ["boom"]
    once and then succeeds, retried with [maxRetries = 0], ends with
    [Error('Unknown error')]; the value that was thrown is lost. *)
Lemma retry_replaces_a_thrown_non_error :
  let outcomes := fun i : nat =>
    if Nat.eqb i 0 then Throws (NonError "boom") else Normal 200 in
  let run := retry_scripted outcomes (fun _ => 0%Q) 0 1000 in
  outcomes 0%nat = Throws (NonError "boom") /\
  outcomes 1%nat = Normal 200 /\
  h_calls (snd run) = 1%nat /\
  fst run = Throws (ErrorObj "Error" "Unknown error") /\
  fst run <> Throws (NonError "boom").
Proof. cbn zeta. repeat split. discriminate. Qed.

(** ** [screenshotUrl]: one capture or two overlapping ones *)

Lemma Math_ceil_half_spec (height : Z) :
  height <= 2 * Math_ceil_half height < height + 2.
Proof.
  unfold Math_ceil_half.
  assert (Hq : (inject_Z height / 2 * 2 == inject_Z height)%Q) by field.
  pose proof (Qle_ceiling (inject_Z height / 2)) as Hle.
  pose proof (Qceiling_lt (inject_Z height / 2)) as Hlt.
  set (x := (inject_Z height / 2)%Q) in *.
  set (c := Qceiling x) in *. clearbody c. clearbody x.
  replace (c - 1) with (c + -1) in Hlt by lia.
  rewrite inject_Z_plus in Hlt. change (inject_Z (-1)) with (-1)%Q in Hlt.
  assert (H1 : (inject_Z height <= inject_Z (2 * c))%Q).
  { rewrite inject_Z_mult. change (inject_Z 2) with 2%Q. lra. }
  assert (H2 : (inject_Z (2 * c) < inject_Z (height + 2))%Q).
  { rewrite inject_Z_mult, inject_Z_plus. change (inject_Z 2) with 2%Q. lra. }
  rewrite <- Zle_Qle in H1. rewrite <- Zlt_Qlt in H2. lia.
Qed.

Example split_parts_30001 :
  split_parts 30001 = [mkPart 0 15081 "part1"; mkPart 14921 15080 "part2"].
Proof. reflexivity. Qed.

Lemma initialize_ready env w :
  isInitialized w = true -> browser w <> None ->
  initialize env w = (Normal tt, w).
Proof.
  intros Hi Hb. unfold initialize, bindM, get. rewrite Hi.
  rewrite bool_decide_eq_true_2 by done. reflexivity.
Qed.

Lemma acquire_free_slot s :
  currentSlots s < maxConcurrentPages s ->
  acquireSlot s =
    mkSlots (maxConcurrentPages s) (currentSlots s + 1) (queue s)
            (resolved s ++ [issued s]) (S (issued s)).
Proof.
  intros H. unfold acquireSlot.
  destruct (currentSlots s <? maxConcurrentPages s) eqn:E; [done|lia].
Qed.

Lemma await_acquireSlot_free lost w :
  currentSlots (slots w) < maxConcurrentPages (slots w) ->
  await_acquireSlot lost w =
    (Normal tt,
     (if lost then on_disconnected else id)
       (add_log EvAcquired (set_slots (acquireSlot (slots w)) w))).
Proof.
  intros H. unfold await_acquireSlot. cbn [slots set_slots].
  rewrite (acquire_free_slot _ H). cbn [resolved].
  rewrite bool_decide_eq_true_2; [reflexivity|].
  apply elem_of_app. right. by apply list_elem_of_singleton.
Qed.

(** *** Equations of the effect monad *)

Lemma bind_normal {St A B} (m : M St A) (k : A -> M St B) st a st' :
  m st = (Normal a, st') -> bindM m k st = k a st'.
Proof. intros H. unfold bindM. by rewrite H. Qed.

Lemma bind_throws {St A B} (m : M St A) (k : A -> M St B) st e st' :
  m st = (Throws e, st') -> bindM m k st = (Throws e, st').
Proof. intros H. unfold bindM. by rewrite H. Qed.

Lemma bind_pending {St A B} (m : M St A) (k : A -> M St B) st st' :
  m st = (Pending, st') -> bindM m k st = (Pending, st').
Proof. intros H. unfold bindM. by rewrite H. Qed.

Lemma bind_ret {St A B} (a : A) (k : A -> M St B) st :
  bindM (ret a) k st = k a st.
Proof. reflexivity. Qed.

Lemma bind_ext {St A B} (a : A) (k : A -> M St B) st :
  bindM (ext (Normal a)) k st = k a st.
Proof. reflexivity. Qed.

Lemma bind_get {St A B} (f : St -> A) (k : A -> M St B) st :
  bindM (get f) k st = k (f st) st.
Proof. reflexivity. Qed.

Lemma bind_modify {St B} (f : St -> St) (k : unit -> M St B) st :
  bindM (modify f) k st = k tt (f st).
Proof. reflexivity. Qed.

Lemma bind_emit {B} (e : Event) (k : unit -> M World B) w :
  bindM (emit e) k w = k tt (add_log e w).
Proof. reflexivity. Qed.

Lemma try_finally_normal {St A} (m : M St A) (f : M St unit) st r st' st'' :
  m st = (r, st') -> r <> Pending -> f st' = (Normal tt, st'') ->
  try_finally m f st = (r, st'').
Proof.
  intros Hm Hr Hf. unfold try_finally. rewrite Hm.
  destruct r; [by rewrite Hf | by rewrite Hf | done].
Qed.

Lemma release_step w :
  try_catch call_releaseSlot (fun _ => ret tt) w =
  (Normal tt, add_log EvReleased (set_slots (releaseSlot (slots w)) w)).
Proof. reflexivity. Qed.

Ltac mstep :=
  first [ rewrite bind_ret | rewrite bind_ext | rewrite bind_get
        | rewrite bind_emit | rewrite bind_modify ];
  cbn beta.

Lemma capture_to_ok env sc k c filename response w :
  (exists buffer, s_screenshot_r sc k = Normal buffer) ->
  s_writeFile_r sc k = Normal tt ->
  exists a,
    capture_to env sc k c filename response w =
      (Normal a, add_log (EvWriteFile filename) (add_log (EvCapture c) w)) /\
    shot_capture a = c /\ shot_filename a = filename.
Proof.
  intros [buffer Hb] Hw. unfold capture_to, try_catch.
  rewrite bind_emit, Hb, bind_ext, Hw, bind_ext, bind_emit.
  eexists. split; [reflexivity|]. done.
Qed.

Lemma for_each_push_normal {St A B} (body : A -> M St B) (P : A -> B -> Prop)
    (l : list A) :
  (forall x st, exists y st', body x st = (Normal y, st') /\ P x y) ->
  forall st, exists ys st',
    for_each_push l body st = (Normal ys, st') /\ Forall2 P l ys.
Proof.
  intros Hbody. induction l as [|x l IH]; intros st.
  - exists [], st. split; [reflexivity|constructor].
  - destruct (Hbody x st) as (y & st1 & Hx & HP).
    destruct (IH st1) as (ys & st2 & Hl & HPs).
    exists (y :: ys), st2. cbn [for_each_push].
    rewrite (bind_normal _ _ _ _ _ Hx). cbn beta.
    rewrite (bind_normal _ _ _ _ _ Hl). cbn beta.
    split; [reflexivity|by constructor].
Qed.

Lemma captures_in_capture_events artifacts :
  captures_in (capture_events artifacts) = map shot_capture artifacts.
Proof.
  unfold captures_in, capture_events.
  induction artifacts as [|a l IH]; [reflexivity|].
  cbn [flat_map app map]. by rewrite IH.
Qed.

Lemma files_in_capture_events artifacts :
  files_in (capture_events artifacts) = map shot_filename artifacts.
Proof.
  unfold files_in, capture_events.
  induction artifacts as [|a l IH]; [reflexivity|].
  cbn [flat_map app map]. by rewrite IH.
Qed.

(** A loop of captures that all succeed: one artifact per element, and
    in the log one capture and one file per artifact. *)
Lemma for_each_push_captures {A} (body : A -> M World ScreenshotInfo)
    (c : A -> CaptureOptions) (f : A -> string) (l : list A) :
  (forall x st, exists a,
     body x st = (Normal a, add_log (EvWriteFile (f x)) (add_log (EvCapture (c x)) st)) /\
     shot_capture a = c x /\ shot_filename a = f x) ->
  forall st, exists ys st',
    for_each_push l body st = (Normal ys, st') /\
    map shot_capture ys = map c l /\
    log st' = log st ++ capture_events ys.
Proof.
  intros Hbody. induction l as [|x l IH]; intros st.
  - exists [], st. split; [reflexivity|]. split; [reflexivity|].
    by rewrite app_nil_r.
  - destruct (Hbody x st) as (y & Hx & Hc & Hf).
    destruct (IH (add_log (EvWriteFile (f x)) (add_log (EvCapture (c x)) st)))
      as (ys & st2 & Hl & Hcs & Hlog).
    exists (y :: ys), st2. cbn [for_each_push].
    rewrite (bind_normal _ _ _ _ _ Hx). cbn beta.
    rewrite (bind_normal _ _ _ _ _ Hl). cbn beta.
    split; [reflexivity|]. split; [cbn [map]; by rewrite Hc, Hcs|].
    rewrite Hlog. cbn [log add_log capture_events flat_map].
    rewrite Hc, Hf, <- !app_assoc. reflexivity.
Qed.

(** C6.  When no step of the capture fails and the page measures a
    positive height [H]: if [H] is at most the single-capture limit [M]
    (15000 unless [maxHeight] is given), [screenshotUrl] returns
    exactly one artifact, a full-page capture; if [H > M] it returns
    exactly two, the first clipped at [y = 0] with height
    [min(ceil(H/2) + 80, H)], the second at [y = max(ceil(H/2) - 80, 0)]
    with height [H - y]; the two heights add up to more than [H].
    The artifacts are what the call did: [page.screenshot] was called
    once per artifact, in this order and with these regions, the image
    type asked for and its quality, and one file was written per
    artifact, under the name the artifact carries. *)
Theorem screenshot_single_or_split env url opts w W H :
  ready w ->
  capture_succeeds (shot_script env (shots w)) W H ->
  0 < H ->
  let M := default 15000 (so_maxHeight opts) in
  let half := Math_ceil_half H in
  let type := default jpeg (so_type opts) in
  let quality := quality_for type (default 80 (so_quality opts)) in
  exists artifacts w',
    screenshotUrl env url opts w = (Normal artifacts, w') /\
    captures_in (log w') = captures_in (log w) ++ map shot_capture artifacts /\
    files_in (log w') = files_in (log w) ++ map shot_filename artifacts /\
    Forall (fun a => cap_type (shot_capture a) = type /\
                     cap_quality (shot_capture a) = quality) artifacts /\
    (H <= M -> regions artifacts = [FullPage]) /\
    (M < H ->
     regions artifacts =
       [Clip 0 0 (Z.max 1 W) (Z.min (half + 80) H);
        Clip 0 (Z.max (half - 80) 0) (Z.max 1 W) (H - Z.max (half - 80) 0)] /\
     H < Z.min (half + 80) H + (H - Z.max (half - 80) 0)) /\
    H <= 2 * half < H + 2.
Proof.
  intros (Hinit & Hbrowser & [_ Hfree] & _)
         (Hlost & Hnew & Hview & [response Hgoto] & Hdims & Hmkdir & Hshot & Hwrite & Hclose)
         Hpos M half type quality.
  pose proof (Math_ceil_half_spec H) as Hhalf. fold half in Hhalf.
  unfold screenshotUrl. do 2 mstep.
  rewrite (bind_normal _ _ _ _ _ (initialize_ready env (count_shot w) Hinit Hbrowser)).
  rewrite (bind_normal _ _ _ _ _ (await_acquireSlot_free _ (count_shot w) Hfree)).
  rewrite Hlost. mstep. cbn [id browser add_log set_slots count_shot].
  destruct (browser w) as [b|] eqn:Eb; [|done].
  rewrite Hnew. do 2 mstep.
  match goal with
  | |- context [try_finally ?body ?fin ?w0] =>
      assert (Hfin : forall st, fin st =
        (Normal tt, add_log EvReleased
                      (set_slots (releaseSlot (slots (add_log EvClosePage st)))
                                 (add_log EvClosePage st))))
        by (intros st; rewrite Hclose, bind_ext, bind_emit; apply release_step);
      assert (Hlog0 : log w0 = log w ++ [EvAcquired; EvNewPage])
        by (cbn [log add_log set_slots count_shot]; by rewrite <- app_assoc);
      assert (Hbody : exists artifacts st',
        body w0 = (Normal artifacts, st') /\
        log st' = log w0 ++ EvGoto url :: capture_events artifacts /\
        map shot_capture artifacts =
          (if H <=? M then [mkCapture type quality FullPage]
           else map (fun part => mkCapture type quality (clip_of W part))
                    (split_parts H)))
  end.
  { rewrite Hview. do 2 mstep. rewrite Hgoto. mstep. rewrite Hdims. mstep.
    rewrite Hmkdir. mstep. cbn [fst snd]. fold M type. fold quality.
    destruct (Z.leb_spec H M) as [Hle|Hgt].
    - match goal with |- context [bindM (capture_to env ?sc ?k ?c ?f ?r) _ ?st] =>
        destruct (capture_to_ok env sc k c f r st (Hshot _) (Hwrite _))
          as (a & Hcap & Ha & Hf)
      end.
      rewrite (bind_normal _ _ _ _ _ Hcap). cbn beta.
      eexists. eexists. split; [reflexivity|].
      split; [|cbn [map]; by rewrite Ha].
      cbn [log add_log capture_events flat_map app].
      rewrite Ha, Hf, <- !app_assoc. reflexivity.
    - match goal with |- context [for_each_push ?l ?body ?st0] =>
        destruct (for_each_push_captures body
                    (fun x => mkCapture type quality (clip_of W (snd x)))
                    (fun x => (safeName_of env url ++ "_" ++
                               s_timestamp (shot_script env (shots w)) ++ "_" ++
                               part_suffix (snd x) ++ "." ++ ext_of type)%string)
                    l)
          with (st := st0) as (ys & st' & Hrun & Hcs & Hlog)
      end.
      { intros [k part] st. cbn [snd].
        match goal with |- context [capture_to env ?sc ?k ?c ?f ?r ?st] =>
          destruct (capture_to_ok env sc k c f r st (Hshot _) (Hwrite _))
            as (a & Hcap & Ha & Hf)
        end.
        by exists a. }
      exists ys, st'. split; [exact Hrun|]. split.
      + rewrite Hlog. cbn [log add_log]. by rewrite <- app_assoc.
      + rewrite Hcs. reflexivity. }
  destruct Hbody as (artifacts & st' & Hbody & Hlog & Hcaps).
  exists artifacts. eexists.
  split.
  { eapply try_finally_normal; [exact Hbody | discriminate | apply Hfin]. }
  assert (Hevents :
    log (add_log EvReleased
           (set_slots (releaseSlot (slots (add_log EvClosePage st')))
                      (add_log EvClosePage st')))
    = log w ++ [EvAcquired; EvNewPage; EvGoto url] ++ capture_events artifacts
            ++ [EvClosePage; EvReleased]).
  { cbn [log add_log set_slots]. rewrite Hlog, Hlog0, <- !app_assoc. reflexivity. }
  split.
  { rewrite Hevents. unfold captures_in. rewrite !flat_map_app.
    fold (captures_in (log w)) (captures_in (capture_events artifacts)).
    rewrite captures_in_capture_events. cbn [flat_map app].
    by rewrite app_nil_r. }
  split.
  { rewrite Hevents. unfold files_in. rewrite !flat_map_app.
    fold (files_in (log w)) (files_in (capture_events artifacts)).
    rewrite files_in_capture_events. cbn [flat_map app].
    by rewrite app_nil_r. }
  assert (Hregions : regions artifacts = map cap_region (map shot_capture artifacts)).
  { unfold regions. by rewrite map_map. }
  split.
  { apply Forall_forall. intros a Hin.
    assert (Hc : shot_capture a ∈ map shot_capture artifacts).
    { apply list_elem_of_fmap. by exists a. }
    rewrite Hcaps in Hc. destruct (H <=? M).
    - apply list_elem_of_singleton in Hc. by rewrite Hc.
    - apply list_elem_of_fmap in Hc as (part & -> & _). done. }
  split.
  { intros Hle. rewrite Hregions, Hcaps.
    destruct (Z.leb_spec H M); [reflexivity|lia]. }
  split; [|exact Hhalf].
  intros Hgt. split; [|lia]. rewrite Hregions, Hcaps.
  destruct (Z.leb_spec H M); [lia|].
  unfold split_parts, clip_of, OVERLAP. fold half. cbn [map part_y part_height cap_region].
  rewrite (Z.max_r 1 (Z.min (half + 80) H)) by lia.
  rewrite (Z.max_r 0 (Z.max (half - 80) 0)) by lia.
  rewrite (Z.max_r 1 (H - Z.max (half - 80) 0)) by lia.
  reflexivity.
Qed.

Lemma screenshot_single_or_split_witness :
  let env := tall_page_env in
  exists artifacts w',
    screenshotUrl env "https://example.com/" no_shot_opts (started env)
    = (Normal artifacts, w') /\
    captures_in (log w') =
      [mkCapture jpeg (Some 80) (Clip 0 0 1280 15081);
       mkCapture jpeg (Some 80) (Clip 0 14921 1280 15080)] /\
    files_in (log w') =
      ["__example_com__1700000000000_part1.jpg";
       "__example_com__1700000000000_part2.jpg"]%string /\
    map shot_filename artifacts = files_in (log w') /\
    regions artifacts =
      [Clip 0 0 (Z.max 1 1280) (Z.min (Math_ceil_half 30001 + 80) 30001);
       Clip 0 (Z.max (Math_ceil_half 30001 - 80) 0) (Z.max 1 1280)
            (30001 - Z.max (Math_ceil_half 30001 - 80) 0)].
Proof.
  intros env.
  assert (Hready : ready (started env)).
  { split; [reflexivity|]. split; [vm_compute; discriminate|].
    split; [split; [discriminate|reflexivity] | reflexivity]. }
  assert (Hok : capture_succeeds (shot_script env (shots (started env))) 1280 30001).
  { unfold capture_succeeds. repeat (split; [reflexivity|]).
    split; [by eexists|]. repeat (split; [reflexivity|]).
    split; [intros k; by eexists|]. split; [intros k|]; reflexivity. }
  destruct (screenshot_single_or_split env "https://example.com/" no_shot_opts
              (started env) 1280 30001 Hready Hok ltac:(lia))
    as (artifacts & w' & Hrun & Hcaps & Hfiles & _ & _ & Hsplit & _).
  exists artifacts, w'. split; [exact Hrun|].
  assert (Hw : (Normal artifacts, w')
               = screenshotUrl env "https://example.com/" no_shot_opts (started env))
    by (symmetry; exact Hrun).
  assert (Hw' : w' = snd (screenshotUrl env "https://example.com/" no_shot_opts
                            (started env))) by (by rewrite <- Hw).
  assert (Ha : artifacts = match fst (screenshotUrl env "https://example.com/"
                                        no_shot_opts (started env)) with
                           | Normal a => a | _ => [] end) by (by rewrite <- Hw).
  split; [rewrite Hw'; vm_compute; reflexivity|].
  split; [rewrite Hw'; vm_compute; reflexivity|].
  split; [rewrite Ha, Hw'; vm_compute; reflexivity|].
  apply Hsplit. reflexivity.
Defined.

(** ** Slot accounting of [loadPage] and [screenshotUrl] *)

Lemma count_event_add_log P e w :
  count_event P (add_log e w) = (count_event P w + (if P e then 1 else 0))%nat.
Proof.
  unfold count_event, add_log. cbn [log].
  rewrite filter_app, length_app. f_equal.
  cbn [filter]. unfold filter. cbn. destruct (P e); cbn.
  - destruct (decide_rel eq true true); [reflexivity|done].
  - destruct (decide_rel eq false true); [done|reflexivity].
Qed.

Lemma count_event_log P w w' : log w' = log w -> count_event P w' = count_event P w.
Proof. unfold count_event. by intros ->. Qed.

Lemma count_event_app P w w' l :
  log w' = log w ++ l ->
  count_event P w' = (count_event P w + length (filter (fun e => P e = true) l))%nat.
Proof. unfold count_event. intros ->. by rewrite filter_app, length_app. Qed.

Lemma acquired_app w w' l :
  log w' = log w ++ l ->
  acquired w' = (acquired w + length (filter (fun e => is_acquired e = true) l))%nat.
Proof. apply count_event_app. Qed.

Lemma released_app w w' l :
  log w' = log w ++ l ->
  released w' = (released w + length (filter (fun e => is_released e = true) l))%nat.
Proof. apply count_event_app. Qed.

Ltac log_suffix := cbn; rewrite <- ?app_assoc; reflexivity.

Ltac count_suffix :=
  repeat match goal with
         | |- context [length (filter ?P ?l)] =>
             let n := eval vm_compute in (length (filter P l)) in
             change (length (filter P l)) with n
         end;
  lia.

Lemma quiet_ret {A} (a : A) : quiet (ret a).
Proof. intros w r w' H. injection H as <- <-. done. Qed.

Lemma quiet_throw {A} e : quiet (@throw World A e).
Proof. intros w r w' H. injection H as <- <-. done. Qed.

Lemma quiet_ext {A} (c : Completion A) : quiet (ext c).
Proof. intros w r w' H. injection H as <- <-. done. Qed.

Lemma quiet_emit e : slot_event e = false -> quiet (emit e).
Proof.
  intros He w r w' H. injection H as <- <-.
  apply orb_false_iff in He as [Ha Hr].
  unfold acquired, released. rewrite !count_event_add_log, Ha, Hr.
  repeat split; lia.
Qed.

Lemma quiet_bind {A B} (m : M World A) (k : A -> M World B) :
  quiet m -> (forall a, quiet (k a)) -> quiet (bindM m k).
Proof.
  intros Hm Hk w r w' H. unfold bindM in H.
  destruct (m w) as [[a|e|] w1] eqn:Em.
  - destruct (Hm _ _ _ Em) as (? & ? & ? & ?).
    destruct (Hk a _ _ _ H) as (? & ? & ? & ?). repeat split; congruence.
  - injection H as <- <-. by apply (Hm _ _ _ Em).
  - injection H as <- <-. by apply (Hm _ _ _ Em).
Qed.

Lemma quiet_try_catch {A} (m : M World A) (h : Thrown -> M World A) :
  quiet m -> (forall e, quiet (h e)) -> quiet (try_catch m h).
Proof.
  intros Hm Hh w r w' H. unfold try_catch in H.
  destruct (m w) as [[a|e|] w1] eqn:Em.
  - injection H as <- <-. by apply (Hm _ _ _ Em).
  - destruct (Hm _ _ _ Em) as (? & ? & ? & ?).
    destruct (Hh e _ _ _ H) as (? & ? & ? & ?). repeat split; congruence.
  - injection H as <- <-. by apply (Hm _ _ _ Em).
Qed.

Lemma quiet_for_each_push {A B} (l : list A) (body : A -> M World B) :
  (forall x, quiet (body x)) -> quiet (for_each_push l body).
Proof.
  intros Hb. induction l as [|x l IH]; cbn [for_each_push].
  - apply quiet_ret.
  - apply quiet_bind; [apply Hb|]. intros y.
    apply quiet_bind; [apply IH|]. intros ys. apply quiet_ret.
Qed.

Ltac quiet_step :=
  first [ apply quiet_ret | apply quiet_throw | apply quiet_ext
        | apply quiet_emit; reflexivity
        | apply quiet_bind; [|intros ?]
        | apply quiet_try_catch; [|intros ?]
        | match goal with
          | |- quiet (if ?b then _ else _) => destruct b
          | |- quiet (match ?x with _ => _ end) => destruct x
          end ].

Lemma quiet_capture_to env sc k c filename response :
  quiet (capture_to env sc k c filename response).
Proof. unfold capture_to. repeat quiet_step. Qed.

Lemma quiet_loadPage_try (sc : PageScript) url options :
  quiet
    (try_catch
       (let! _ <- ext (newPage_r sc) in
        let! _ <- emit EvNewPage in
        let! _ <- ext (configurePage_r sc) in
        let! _ <- emit (EvGoto url) in
        let! response <- ext (goto_r sc) in
        match response with
        | None =>
            throw (ErrorObj "TypeError"
                     "Cannot read properties of null (reading 'headers')")
        | Some resp =>
            let! html <- ext (content_r sc) in
            ret (mkPageLoadResult true (page_url sc) (Some html) (Some (resp_status resp))
                   (Some (Z.max (navigation_ms sc) (domContentLoaded (metrics_r sc))))
                   (Some (metrics_r sc)) None (Some (resp_headers resp)))
        end)
       (fun error => ret (load_failure url options error))).
Proof. repeat quiet_step. Qed.

Lemma bind_inv {St A B} (m : M St A) (k : A -> M St B) st r st' :
  bindM m k st = (r, st') ->
  (exists a st1, m st = (Normal a, st1) /\ k a st1 = (r, st')) \/
  (exists e, m st = (Throws e, st') /\ r = Throws e) \/
  (m st = (Pending, st') /\ r = Pending).
Proof.
  unfold bindM. destruct (m st) as [[a|e|] st1]; intros H.
  - left. by exists a, st1.
  - right. left. injection H as <- <-. by exists e.
  - right. right. by injection H as <- <-.
Qed.

Lemma try_finally_inv {St A} (m : M St A) (f : M St unit) st r st'' :
  try_finally m f st = (r, st'') -> r <> Pending ->
  exists r1 st',
    m st = (r1, st') /\ r1 <> Pending /\
    ((f st' = (Normal tt, st'') /\ r = r1) \/
     (exists e, f st' = (Throws e, st'') /\ r = Throws e)).
Proof.
  unfold try_finally. destruct (m st) as [r1 st'] eqn:Em. intros H Hr.
  exists r1, st'. split; [reflexivity|].
  destruct r1 as [a|e|]; [| |injection H as <- <-; done];
    (split; [discriminate|]);
    destruct (f st') as [[[]|e'|] st2]; injection H as <- <-;
    try done; [by left | right; by exists e' | by left | right; by exists e'].
Qed.

Lemma released_after_release w :
  released (add_log EvReleased (set_slots (releaseSlot (slots w)) w)) = (released w + 1)%nat /\
  acquired (add_log EvReleased (set_slots (releaseSlot (slots w)) w)) = acquired w.
Proof.
  unfold released, acquired. rewrite !count_event_add_log.
  change (count_event is_released (set_slots (releaseSlot (slots w)) w))
    with (count_event is_released w).
  change (count_event is_acquired (set_slots (releaseSlot (slots w)) w))
    with (count_event is_acquired w).
  cbn [is_released is_acquired]. split; lia.
Qed.

Lemma slot_returns s :
  0 <= currentSlots s < maxConcurrentPages s -> queue s = [] ->
  currentSlots (releaseSlot (acquireSlot s)) = currentSlots s /\
  queue (releaseSlot (acquireSlot s)) = [].
Proof.
  intros Hcs Hq. rewrite acquire_free_slot by lia.
  unfold releaseSlot. cbn. rewrite Hq. cbn. split; [lia|reflexivity].
Qed.

Lemma slot_kept s :
  0 <= currentSlots s < maxConcurrentPages s ->
  currentSlots (acquireSlot s) = currentSlots s + 1.
Proof. intros Hcs. rewrite acquire_free_slot by lia. reflexivity. Qed.

(** The close step of [loadPage]'s finaliser never throws. *)
Lemma loadPage_close_step (sc : PageScript) w c w' :
  (match newPage_r sc with
   | Normal _ =>
       try_catch (let! _ <- ext (close_r sc) in emit EvClosePage)
                 (fun closeError => ret tt)
   | _ => ret tt
   end) w = (c, w') ->
  c <> Pending ->
  c = Normal tt /\ slots w' = slots w /\
  acquired w' = acquired w /\ released w' = released w.
Proof.
  intros H Hc.
  assert (Hq : quiet (match newPage_r sc with
                      | Normal _ =>
                          try_catch (let! _ <- ext (close_r sc) in emit EvClosePage)
                                    (fun closeError => ret tt)
                      | _ => ret tt
                      end)) by repeat quiet_step.
  destruct (Hq _ _ _ H) as (Hs & _ & Ha & Hr).
  split; [|done].
  destruct (newPage_r sc); [|by injection H as <- <-..].
  unfold try_catch, bindM, ext in H.
  destruct (close_r sc) as [[]|e|]; cbn in H; injection H as <- <-; done.
Qed.

Lemma loadPage_slot_accounting env url options w r w' :
  ready w ->
  loadPage env url options w = (r, w') ->
  r <> Pending ->
  acquired w' = (acquired w + 1)%nat /\
  if browser_lost (page_script env (loads w)) then
    r = Throws (ErrorObj "Error" "Browser not initialized") /\
    released w' = released w /\
    currentSlots (slots w') = currentSlots (slots w) + 1
  else
    released w' = (released w + 1)%nat /\
    currentSlots (slots w') = currentSlots (slots w).
Proof.
  intros (Hinit & Hbrowser & Hfree & Hqueue) Hrun Hr.
  unfold loadPage in Hrun. rewrite bind_get, bind_modify in Hrun. cbn beta in Hrun.
  rewrite (bind_normal _ _ _ _ _ (initialize_ready env (count_load w) Hinit Hbrowser)) in Hrun.
  rewrite (bind_normal _ _ _ _ _
             (await_acquireSlot_free _ (count_load w) ltac:(cbn; lia))) in Hrun.
  rewrite bind_get in Hrun. cbn beta in Hrun.
  destruct (browser_lost (page_script env (loads w))) eqn:Elost.
  - cbn [browser on_disconnected set_browser] in Hrun. unfold throw in Hrun.
    injection Hrun as <- <-.
    split; [|split; [reflexivity|split]].
    + unfold acquired.
      rewrite (count_event_log _ (add_log EvAcquired w)) by reflexivity.
      by rewrite count_event_add_log.
    + unfold released.
      rewrite (count_event_log is_released (add_log EvAcquired w)) by reflexivity.
      rewrite count_event_add_log. cbn [is_released]. lia.
    + cbn [slots set_browser add_log set_slots count_load]. apply slot_kept. lia.
  - cbn [id browser add_log set_slots count_load] in Hrun.
    destruct (browser w) as [b|] eqn:Eb; [|done].
    apply try_finally_inv in Hrun; [|done].
    destruct Hrun as (r1 & w3 & Hbody & Hr1 & Hfin).
    pose proof (quiet_loadPage_try _ _ _ _ _ _ Hbody) as (Hs3 & _ & Ha3 & Hrel3).
    assert (Hfin' : acquired w' = acquired w3 /\
                    released w' = (released w3 + 1)%nat /\
                    slots w' = releaseSlot (slots w3)).
    { destruct Hfin as [[Hf _]|(e & Hf & _)];
        apply bind_inv in Hf;
        destruct Hf as [(a & w4 & Hclose & Hrel)|[(e' & Hclose & _)|(Hclose & ?)]];
        try (apply loadPage_close_step in Hclose; [|done]; destruct Hclose; done);
        try done.
      all: apply loadPage_close_step in Hclose; [|done].
      all: destruct Hclose as (_ & Hs4 & Ha4 & Hr4).
      all: rewrite release_step in Hrel; injection Hrel as <-.
      all: destruct (released_after_release w4) as [Hx Hy].
      all: rewrite Hx, Hy, Ha4, Hr4; cbn [slots add_log set_slots]; rewrite Hs4; done. }
    destruct Hfin' as (Ha' & Hr' & Hs').
    rewrite Ha', Hr', Hs', Ha3, Hrel3, Hs3.
    unfold acquired, released. rewrite !count_event_add_log.
    rewrite !(count_event_log _ w (set_slots _ (count_load w))) by reflexivity.
    cbn [is_acquired is_released slots set_slots add_log count_load].
    split; [lia|]. split; [lia|].
    apply slot_returns; done.
Qed.

Ltac quiet_steps :=
  repeat first [ quiet_step
               | apply quiet_capture_to
               | apply quiet_for_each_push; intros [? ?] ].

Lemma screenshotUrl_slot_accounting env url opts w r w' :
  ready w ->
  screenshotUrl env url opts w = (r, w') ->
  r <> Pending ->
  let sc := shot_script env (shots w) in
  acquired w' = (acquired w + 1)%nat /\
  if s_browser_lost sc then
    released w' = (released w + 1)%nat /\
    currentSlots (slots w') = currentSlots (slots w)
  else
    match s_newPage_r sc, s_close_r sc with
    | Normal _, Normal _ =>
        released w' = (released w + 1)%nat /\
        currentSlots (slots w') = currentSlots (slots w)
    | _, _ =>
        released w' = released w /\
        currentSlots (slots w') = currentSlots (slots w) + 1 /\
        exists e, r = Throws e
    end.
Proof.
  intros (Hinit & Hbrowser & Hfree & Hqueue) Hrun Hr sc.
  unfold screenshotUrl in Hrun. rewrite bind_get, bind_modify in Hrun. cbn beta in Hrun.
  rewrite (bind_normal _ _ _ _ _ (initialize_ready env (count_shot w) Hinit Hbrowser)) in Hrun.
  rewrite (bind_normal _ _ _ _ _
             (await_acquireSlot_free _ (count_shot w) ltac:(cbn; lia))) in Hrun.
  rewrite bind_get in Hrun. cbn beta in Hrun. fold sc in Hrun.
  set (w2 := add_log EvAcquired (set_slots (acquireSlot (slots (count_shot w))) (count_shot w))) in *.
  assert (Ha2 : acquired w2 = (acquired w + 1)%nat).
  { unfold acquired, w2. rewrite count_event_add_log.
    by rewrite (count_event_log _ w (set_slots _ (count_shot w))). }
  assert (Hr2 : released w2 = released w).
  { unfold released, w2. rewrite count_event_add_log.
    rewrite (count_event_log _ w (set_slots _ (count_shot w))) by reflexivity.
    cbn [is_released]. lia. }
  assert (Hs2 : slots w2 = acquireSlot (slots w)) by reflexivity.
  destruct (s_browser_lost sc) eqn:Elost.
  - cbn [browser on_disconnected set_browser] in Hrun.
    unfold call_releaseSlot in Hrun. rewrite bind_modify in Hrun. unfold throw in Hrun.
    injection Hrun as <- <-.
    split; [|split].
    + rewrite (acquired_app w _ [EvAcquired; EvReleased]) by (unfold w2; log_suffix).
      count_suffix.
    + rewrite (released_app w _ [EvAcquired; EvReleased]) by (unfold w2; log_suffix).
      count_suffix.
    + cbn [slots add_log set_slots set_browser]. by apply slot_returns.
  - cbn [id] in Hrun.
    assert (Hb2 : browser w2 = browser w) by reflexivity. rewrite Hb2 in Hrun.
    destruct (browser w) as [b|] eqn:Eb; [|done].
    destruct (s_newPage_r sc) as [[]|e|] eqn:Enew.
    + rewrite bind_ext, bind_emit in Hrun.
      apply try_finally_inv in Hrun; [|done].
      destruct Hrun as (r1 & w3 & Hbody & Hr1 & Hfin).
      match type of Hbody with ?body _ = _ =>
        assert (Hq : quiet body) by quiet_steps
      end.
      destruct (Hq _ _ _ Hbody) as (Hs3 & _ & Ha3 & Hrel3).
      assert (Ha2' : acquired (add_log EvNewPage w2) = acquired w2).
      { unfold acquired. rewrite count_event_add_log. cbn [is_acquired]. lia. }
      assert (Hr2' : released (add_log EvNewPage w2) = released w2).
      { unfold released. rewrite count_event_add_log. cbn [is_released]. lia. }
      assert (Ha4 : acquired (add_log EvClosePage w3) = acquired w3).
      { unfold acquired. rewrite count_event_add_log. cbn [is_acquired]. lia. }
      assert (Hr4 : released (add_log EvClosePage w3) = released w3).
      { unfold released. rewrite count_event_add_log. cbn [is_released]. lia. }
      destruct (s_close_r sc) as [[]|e|] eqn:Eclose.
      * destruct Hfin as [[Hf _]|(e & Hf & _)];
          rewrite bind_ext, bind_emit, release_step in Hf; [|done].
        injection Hf as <-.
        split; [|split].
        -- rewrite (acquired_app w3 _ [EvClosePage; EvReleased]) by log_suffix.
           rewrite Ha3, Ha2', Ha2. count_suffix.
        -- rewrite (released_app w3 _ [EvClosePage; EvReleased]) by log_suffix.
           rewrite Hrel3, Hr2', Hr2. count_suffix.
        -- cbn [slots add_log set_slots]. rewrite Hs3. cbn [slots add_log].
           rewrite Hs2. by apply slot_returns.
      * destruct Hfin as [[Hf _]|(e' & Hf & ->)]; [done|].
        injection Hf as _ <-.
        split; [|split; [|split]].
        -- rewrite Ha3, Ha2'. exact Ha2.
        -- rewrite Hrel3, Hr2'. exact Hr2.
        -- rewrite Hs3. cbn [slots add_log]. rewrite Hs2. apply slot_kept. lia.
        -- by eexists.
      * destruct Hfin as [[Hf _]|(e' & Hf & _)]; done.
    + unfold bindM, ext in Hrun. injection Hrun as <- <-.
      split; [exact Ha2|]. split; [exact Hr2|]. split; [|by eexists].
      rewrite Hs2. apply slot_kept. lia.
    + unfold bindM, ext in Hrun. by injection Hrun as <- <-.
Qed.

(** C1 (the code leaks on three paths).  For a call on a service that
    is up with a free slot, and that returns or throws: the call
    acquires exactly one slot.  [loadPage] releases it exactly once,
    unless the browser was lost while the call waited for the slot:
    then it throws ['Browser not initialized'] without releasing.
    [screenshotUrl] releases it exactly once on that path and when the
    page opens and closes, but not when [newPage] or [page.close]
    throws. *)
Theorem slot_accounting_of_page_calls env w :
  ready w ->
  (forall url options r w',
     loadPage env url options w = (r, w') -> r <> Pending ->
     acquired w' = (acquired w + 1)%nat /\
     if browser_lost (page_script env (loads w)) then
       r = Throws (ErrorObj "Error" "Browser not initialized") /\
       released w' = released w /\
       currentSlots (slots w') = currentSlots (slots w) + 1
     else
       released w' = (released w + 1)%nat /\
       currentSlots (slots w') = currentSlots (slots w)) /\
  (forall url opts r w',
     screenshotUrl env url opts w = (r, w') -> r <> Pending ->
     acquired w' = (acquired w + 1)%nat /\
     if s_browser_lost (shot_script env (shots w)) then
       released w' = (released w + 1)%nat /\
       currentSlots (slots w') = currentSlots (slots w)
     else
       match s_newPage_r (shot_script env (shots w)),
             s_close_r (shot_script env (shots w)) with
       | Normal _, Normal _ =>
           released w' = (released w + 1)%nat /\
           currentSlots (slots w') = currentSlots (slots w)
       | _, _ =>
           released w' = released w /\
           currentSlots (slots w') = currentSlots (slots w) + 1 /\
           exists e, r = Throws e
       end).
Proof.
  intros Hready. split.
  - intros url options r w'. by apply loadPage_slot_accounting.
  - intros url opts r w'. by apply screenshotUrl_slot_accounting.
Qed.

Lemma slot_accounting_of_page_calls_witness :
  let env := test_env (fun _ => lost_page) (fun _ => ok_shot 1280 800) ok_stats in
  let run := loadPage env "https://example.com/" no_options (started env) in
  fst run = Throws (ErrorObj "Error" "Browser not initialized") /\
  acquired (snd run) = (acquired (started env) + 1)%nat /\
  released (snd run) = released (started env) /\
  currentSlots (slots (snd run)) = currentSlots (slots (started env)) + 1.
Proof.
  intros env run.
  assert (Hready : ready (started env)).
  { split; [reflexivity|]. split; [vm_compute; discriminate|].
    split; [split; [discriminate|reflexivity] | reflexivity]. }
  destruct (slot_accounting_of_page_calls env (started env) Hready) as [Hload _].
  destruct (Hload "https://example.com/"%string no_options (fst run) (snd run))
    as (Ha & Hr & Hrel & Hcs).
  - unfold run. by destruct (loadPage env _ _ _).
  - vm_compute. discriminate.
  - repeat split; assumption.
Defined.

(** After the leak a service of capacity one is stuck: the next
    [loadPage] relaunches the browser, is queued behind the slot that
    was never given back, and nothing resolves its promise. *)
Example leaked_slot_blocks_next_load :
  let env := test_env (fun n => if Nat.eqb n 0 then lost_page else ok_page)
                      (fun _ => ok_shot 1280 800) ok_stats in
  let w0 := newBrowserService (Some 1) None in
  let first := loadPage env "https://example.com/" no_options w0 in
  let second := loadPage env "https://example.com/" no_options (snd first) in
  fst first = Throws (ErrorObj "Error" "Browser not initialized") /\
  currentSlots (slots (snd first)) = 1 /\
  fst second = Pending /\
  queue (slots (snd second)) = [1%nat].
Proof. vm_compute. repeat split. Qed.

(** The same event in [screenshotUrl], which gives the slot back before
    it throws. *)
Example screenshotUrl_releases_when_browser_is_lost :
  let lost_shot :=
    mkShotScript true (Normal tt) (Normal tt) (Normal (Some ok_response))
      (Normal (1280, 800)) (Normal tt) "1700000000000"
      (fun _ => Normal "IMAGEBYTES"%string) (fun _ => Normal tt) (Normal tt) in
  let env := test_env (fun _ => ok_page) (fun _ => lost_shot) ok_stats in
  let run := screenshotUrl env "https://example.com/" no_shot_opts (started env) in
  fst run = Throws (ErrorObj "Error" "Browser not initialized") /\
  acquired (snd run) = 1%nat /\ released (snd run) = 1%nat /\
  currentSlots (slots (snd run)) = 0.
Proof. vm_compute. repeat split. Qed.

(** ** [validateUrl] and [auditWebsite] *)

Lemma try_catch_normal {St A} (m : M St A) (h : Thrown -> M St A) st a st' :
  m st = (Normal a, st') -> try_catch m h st = (Normal a, st').
Proof. intros H. unfold try_catch. by rewrite H. Qed.

Lemma try_catch_throws {St A} (m : M St A) (h : Thrown -> M St A) st e st' :
  m st = (Throws e, st') -> try_catch m h st = h e st'.
Proof. intros H. unfold try_catch. by rewrite H. Qed.

Lemma try_catch_inv {St A} (m : M St A) (h : Thrown -> M St A) st r st' :
  try_catch m h st = (r, st') ->
  (m st = (r, st') /\ forall e, r <> Throws e) \/
  (exists e st1, m st = (Throws e, st1) /\ h e st1 = (r, st')).
Proof.
  unfold try_catch. destruct (m st) as [[a|e|] st1]; intros H.
  - left. injection H as <- <-. split; [done|]. intros e. discriminate.
  - right. by exists e, st1.
  - left. injection H as <- <-. split; [done|]. intros e. discriminate.
Qed.

(** [validateUrl] returns a result for every string and leaves the
    state alone; a failure carries an error, which names no step; a
    success carries the URL. *)
Lemma validateUrl_total {St} env (urlString : string) (st : St) :
  exists v,
    validateUrl env urlString st = (Normal v, st) /\
    (vr_success v = false ->
     exists e, vr_error v = Some e /\
               forall step o, err_details e <> Some (DetailsStep step o)) /\
    (vr_success v = true -> is_Some (vr_url v)).
Proof.
  unfold validateUrl, try_catch.
  destruct (String.eqb urlString "" || String.eqb (trim env urlString) "").
  { eexists. split; [reflexivity|]. split; [by eexists | discriminate]. }
  destruct (urlSchema_safeParse env (trim env urlString)) as [issues|data].
  { eexists. split; [reflexivity|]. split; [by eexists | discriminate]. }
  unfold bindM, sync.
  destruct (new_URL env data) as [e|parsedUrl]; cbn [throw ret].
  { eexists. split; [reflexivity|]. split; [by eexists | discriminate]. }
  destruct (String.eqb (hostname parsedUrl) ""
            || String.eqb (trim env (hostname parsedUrl)) "").
  { eexists. split; [reflexivity|]. split; [by eexists | discriminate]. }
  destruct (isBlockedDomain env (hostname parsedUrl)).
  { eexists. split; [reflexivity|]. split; [by eexists | discriminate]. }
  destruct (0 <? Z.of_nat (length (performAdditionalValidations env parsedUrl))).
  { eexists. split; [reflexivity|]. split; [by eexists | discriminate]. }
  eexists. split; [reflexivity|]. split; [discriminate | by eexists].
Qed.

(** C9, as the code has it.  [validateUrl] returns a structured result
    for every string and never throws.  When it reports a failure,
    [auditWebsite] returns at once a result with [success = false] and
    the validator's error, with no [details] and no step recorded
    anywhere in it; the service is left exactly as it was: no slot
    acquired, no page loaded, no retry, no wait. *)
Theorem invalid_url_short_circuits env (url : string) (options : AuditOptions)
    (w : World) :
  exists v,
    validateUrl env url w = (Normal v, w) /\
    (vr_success v = false ->
     exists e,
       vr_error v = Some e /\
       auditWebsite env url options w
       = (Normal (mkAuditResult false None (Some e) None), w) /\
       stage_of (mkAuditResult false None (Some e) None) = None).
Proof.
  destruct (validateUrl_total env url w) as (v & Hv & Hfail & _).
  exists v. split; [exact Hv|]. intros Hs.
  destruct (Hfail Hs) as (e & He & Hstep). exists e. split; [exact He|]. split.
  - unfold auditWebsite. apply try_catch_normal.
    rewrite (bind_normal _ _ _ _ _ Hv). cbn beta. rewrite Hs. cbn [negb].
    by rewrite He.
  - unfold stage_of. cbn [ar_details ar_error].
    destruct e as [code msg [[| | |step o]|]]; try reflexivity.
    by destruct (Hstep step o).
Qed.

Lemma invalid_url_short_circuits_witness :
  let env := test_env (fun _ => ok_page) (fun _ => ok_shot 1280 800) ok_stats in
  exists e,
    auditWebsite env "ftp://example.com/" with_screenshot (started env)
    = (Normal (mkAuditResult false None (Some e) None), started env) /\
    err_error e = "INVALID_URL_FORMAT"%string.
Proof.
  intros env.
  destruct (invalid_url_short_circuits env "ftp://example.com/" with_screenshot
              (started env)) as (v & Hv & H).
  injection Hv as <-.
  destruct (H eq_refl) as (e & He & Hrun & _).
  exists e. split; [exact Hrun|]. by injection He as <-.
Defined.

(** C9 as stated fails on the stage: the result for a rejected URL has
    no [details] and its error names no step, so no stage
    ["validation"] is attributed. *)
Lemma invalid_url_result_names_no_stage :
  let env := test_env (fun _ => ok_page) (fun _ => ok_shot 1280 800) ok_stats in
  exists res,
    auditWebsite env "" no_options (started env) = (Normal res, started env) /\
    ar_success res = false /\
    ar_details res = None /\
    stage_of res <> Some "validation"%string.
Proof. intros env. eexists. split; [reflexivity|]. repeat split. discriminate. Qed.

Lemma parseHtmlContent_ok env html url rest statistics (w : World) :
  extract_rest env html url = inr rest ->
  page_statistics env html url = inr statistics ->
  parseHtmlContent env html url w
  = (Normal (mkParsed url 200 (ex_metadata rest) (ex_seo rest) (ex_content rest)
               (mkResources (ex_links rest) (extractScripts env html url) (ex_styles rest))
               (ex_structuredData rest) (ex_formattedContent rest)), w).
Proof.
  intros Hrest Hstat. unfold parseHtmlContent, extractAuditData, bindM, sync.
  by rewrite Hrest, Hstat.
Qed.

(** C7.  When the URL is valid, the page loads, the parser succeeds and
    a screenshot is requested, an exception thrown by [screenshotUrl]
    does not fail the audit: the result has [success = true], an empty
    screenshot list and the message of the exception in
    [screenshotError]. *)
Theorem screenshot_failure_is_recorded env (url : string) (options : AuditOptions)
    (w w1 w2 : World) (v : ValidationResult) (validatedUrl html : string)
    (page : PageLoadResult) (rest : Extracted) (statistics : PageStatistics)
    (shotErr : Thrown) :
  validateUrl env url w = (Normal v, w) ->
  vr_success v = true ->
  vr_url v = Some validatedUrl ->
  loadPageWithRetry env validatedUrl options w = (Normal page, w1) ->
  plr_success page = true ->
  plr_html page = Some html ->
  extract_rest env html (plr_url page) = inr rest ->
  page_statistics env html (plr_url page) = inr statistics ->
  opt_includeScreenshot options = true ->
  screenshotUrl env (plr_url page)
    (mkShotOpts (opt_screenshotType options) (opt_screenshotQuality options) None) w1
  = (Throws shotErr, w2) ->
  exists res data,
    auditWebsite env url options w = (Normal res, w2) /\
    ar_success res = true /\
    ar_error res = None /\
    ar_data res = Some data /\
    war_screenshot data = Some [] /\
    war_screenshotError data = Some (message_or_rendering shotErr).
Proof.
  intros Hv Hs Hu Hload Hp Hh Hrest Hstat Hinc Hshot.
  unfold auditWebsite.
  eexists. eexists. split.
  - apply try_catch_normal.
    rewrite (bind_normal _ _ _ _ _ Hv). cbn beta. rewrite Hs, Hu. cbn [negb default from_option id].
    unfold measureExecutionTime.
    rewrite (bind_normal _ _ _ _ _ Hload). cbn beta. rewrite Hp, Hh. cbn [negb default from_option id].
    rewrite (bind_normal _ _ _ _ _ (parseHtmlContent_ok _ _ _ _ _ w1 Hrest Hstat)).
    cbn beta. rewrite Hinc.
    rewrite (bind_normal _ _ (w1) _ w2
               (try_catch_throws _ _ _ _ _
                  (bind_throws _ _ _ _ _ Hshot))).
    cbn beta. rewrite Hstat. unfold sync. rewrite bind_ret. reflexivity.
  - cbn. repeat split.
Qed.

Lemma screenshot_failure_is_recorded_witness :
  let failing_shot :=
    mkShotScript false (Normal tt) (Normal tt)
      (Throws (ErrorObj "TimeoutError" "Navigation timeout of 30000 ms exceeded"))
      (Normal (1280, 800)) (Normal tt) "1700000000000"
      (fun _ => Normal "IMAGEBYTES"%string) (fun _ => Normal tt) (Normal tt) in
  let env := test_env (fun _ => ok_page) (fun _ => failing_shot) ok_stats in
  exists res data w2,
    auditWebsite env "https://example.com/" with_screenshot (started env)
    = (Normal res, w2) /\
    ar_success res = true /\
    ar_data res = Some data /\
    war_screenshot data = Some [] /\
    war_screenshotError data = Some "Navigation timeout of 30000 ms exceeded"%string.
Proof.
  intros failing_shot env.
  destruct (screenshot_failure_is_recorded env "https://example.com/" with_screenshot
              (started env)
              (snd (loadPageWithRetry env "https://example.com/" with_screenshot
                      (started env)))
              (snd (screenshotUrl env "https://example.com/" (mkShotOpts None None None)
                      (snd (loadPageWithRetry env "https://example.com/" with_screenshot
                              (started env)))))
              (mkValidation true (Some "https://example.com/"%string)
                 (Some (mkURL "https://example.com/" "https:" "example.com" "" "/")) None)
              "https://example.com/"
              "<html><head><script src='a.js'></script></head></html>"
              (mkPageLoadResult true "https://example.com/"
                 (Some "<html><head><script src='a.js'></script></head></html>"%string)
                 (Some 200) (Some 120) (Some (mkMetrics 80 100 0 0)) None
                 (Some [("content-type", "text/html")]%string))
              ok_extracted (mkStatistics 5 0 1 1 0 3)
              (ErrorObj "TimeoutError" "Navigation timeout of 30000 ms exceeded"))
    as (res & data & Hrun & Hs & _ & Hd & Hshots & Herr);
    try (vm_compute; reflexivity).
  exists res, data. eexists. repeat split; eassumption.
Defined.

(** What [auditWebsite] returns after the load: every way through the
    optional screenshot step leaves the resources as assembled. *)
Lemma screenshot_step_keeps_resources env (options : AuditOptions) (url : string)
    (a : WebsiteAuditResult) w r w' :
  (if opt_includeScreenshot options then
     try_catch
       (let! shots <-
          screenshotUrl env url
            (mkShotOpts (opt_screenshotType options) (opt_screenshotQuality options) None) in
        ret (mkAudit (war_url a) (war_statusCode a) (war_metadata a) (war_seo a)
               (war_content a) (war_resources a) (war_structuredData a)
               (war_formattedContent a) (war_performance_loadTimeInMs a)
               (war_response_headers a) (war_response_loadTimeInMs a)
               (Some shots) None))
       (fun shotErr =>
          ret (mkAudit (war_url a) (war_statusCode a) (war_metadata a) (war_seo a)
                 (war_content a) (war_resources a) (war_structuredData a)
                 (war_formattedContent a) (war_performance_loadTimeInMs a)
                 (war_response_headers a) (war_response_loadTimeInMs a)
                 (Some []) (Some (message_or_rendering shotErr))))
   else ret a) w = (Normal r, w') ->
  war_resources r = war_resources a /\ war_url r = war_url a.
Proof.
  destruct (opt_includeScreenshot options).
  - intros H. apply try_catch_inv in H.
    destruct H as [[H _]|(e & w1 & _ & H)].
    + apply bind_inv in H.
      destruct H as [(shots & w1 & _ & H)|[(e & _ & ?)|[_ ?]]]; try discriminate.
      by injection H as <- <-.
    + by injection H as <- <-.
  - intros H. by injection H as <- <-.
Qed.



(** The page of the test double carries a script, which the parser
    extracts and the audit result omits. *)
Example audit_omits_the_extracted_script :
  let env := test_env (fun _ => ok_page) (fun _ => ok_shot 1280 800) ok_stats in
  let html := "<html><head><script src='a.js'></script></head></html>"%string in
  extractScripts env html "https://example.com/"
  = [mkScript (Some "https://example.com/a.js"%string) None] /\
  exists res data w',
    auditWebsite env "https://example.com/" no_options (started env)
    = (Normal res, w') /\
    ar_success res = true /\ ar_data res = Some data /\
    war_resources data =
      mkResources [mkLink "https://example.com/about" "About" true None] []
                  [mkStyle (Some "https://example.com/site.css"%string) None].
Proof.
  cbn zeta. split; [reflexivity|].
  eexists. eexists. eexists. split; [vm_compute; reflexivity|]. repeat split.
Qed.

(** ** The cleanup scheduler and [cleanupScreenshots] *)

Lemma sweep_file_run sw threshold file (dir : gmap string Z) :
  sweep_file sw threshold file dir
  = (Normal tt, after_sweep_file sw threshold file dir).
Proof.
  unfold sweep_file, after_sweep_file, try_catch, bindM, fs_stat, fs_unlink, io_ok.
  destruct (sw_stat_error sw file) as [e|]; cbn.
  { destruct (dir !! file) as [m|]; [|reflexivity].
    by rewrite andb_false_r. }
  destruct (dir !! file) as [m|] eqn:Ef; cbn; [|reflexivity].
  destruct (m <? threshold); cbn; [|reflexivity].
  destruct (sw_unlink_error sw file) as [e|]; cbn; [reflexivity|].
  by rewrite Ef.
Qed.

Lemma for_each_sweep sw threshold (files : list string) :
  forall dir : gmap string Z,
    for_each files (sweep_file sw threshold) dir
    = (Normal tt, foldl (fun d f => after_sweep_file sw threshold f d) dir files).
Proof.
  induction files as [|f files IH]; intros dir; [reflexivity|].
  cbn [for_each foldl].
  rewrite (bind_normal _ _ _ _ _ (sweep_file_run sw threshold f dir)).
  apply IH.
Qed.

Lemma after_sweep_file_lookup sw threshold file (dir : gmap string Z) f :
  after_sweep_file sw threshold file dir !! f =
  match dir !! f with
  | Some mtimeMs =>
      if bool_decide (f = file) && (mtimeMs <? threshold) && io_ok sw f
      then None else Some mtimeMs
  | None => None
  end.
Proof.
  unfold after_sweep_file.
  destruct (decide (f = file)) as [->|Hne].
  - rewrite bool_decide_eq_true_2 by done. cbn [andb].
    destruct (dir !! file) as [m|] eqn:Ef; [|by rewrite Ef].
    destruct ((m <? threshold) && io_ok sw file).
    + by rewrite lookup_delete_eq.
    + by rewrite Ef.
  - rewrite bool_decide_eq_false_2 by done. cbn [andb].
    destruct (dir !! file) as [m|]; [|by destruct (_ !! f)].
    destruct ((m <? threshold) && io_ok sw file).
    + rewrite lookup_delete_ne by done. by destruct (_ !! f).
    + by destruct (_ !! f).
Qed.

Lemma sweep_fold_lookup sw threshold (files : list string) f :
  forall dir : gmap string Z,
    foldl (fun d x => after_sweep_file sw threshold x d) dir files !! f =
    match dir !! f with
    | Some mtimeMs =>
        if bool_decide (f ∈ files) && (mtimeMs <? threshold) && io_ok sw f
        then None else Some mtimeMs
    | None => None
    end.
Proof.
  induction files as [|x files IH]; intros dir.
  - cbn [foldl]. destruct (dir !! f); [|reflexivity].
    rewrite bool_decide_eq_false_2; [reflexivity|]. apply not_elem_of_nil.
  - cbn [foldl]. rewrite IH, after_sweep_file_lookup.
    destruct (dir !! f) as [m|]; [|reflexivity].
    destruct (decide (f = x)) as [->|Hne].
    + rewrite (bool_decide_eq_true_2 (x = x)) by done.
      rewrite (bool_decide_eq_true_2 (x ∈ x :: files)) by apply elem_of_cons, or_introl, eq_refl.
      cbn [andb]. destruct ((m <? threshold) && io_ok sw x) eqn:E; [reflexivity|].
      by rewrite <- andb_assoc, E, andb_false_r.
    + rewrite (bool_decide_eq_false_2 (f = x)) by done. cbn [andb].
      rewrite (bool_decide_ext (f ∈ files) (f ∈ x :: files)); [reflexivity|].
      rewrite elem_of_cons.
      split; [intros; by right | intros [Heq|Hin]; [by destruct Hne | done]].
Qed.

Lemma cleanupScreenshots_never_throws sw ttl (dir : gmap string Z) :
  fst (cleanupScreenshots sw ttl dir) = Normal tt.
Proof.
  unfold cleanupScreenshots, try_catch.
  destruct (sw_isDirectory sw); cbn [negb]; [|reflexivity].
  unfold bindM, fs_readdir.
  destruct (sw_readdir_error sw); [reflexivity|].
  by rewrite for_each_sweep.
Qed.

Lemma initialize_first_launch env w w' :
  isInitialized w = false ->
  cleanupIntervalHandle w = None ->
  initialize env w = (Normal tt, w') ->
  cleanupIntervalHandle w' = Some (Z.max (60 * 1000) (screenshotTTL w / 6)) /\
  screenshotTTL w' = screenshotTTL w /\
  last (log w') = Some (EvSetInterval (Z.max (60 * 1000) (screenshotTTL w / 6))).
Proof.
  intros Hi Hh. unfold initialize. rewrite bind_get. cbn beta. rewrite Hi. cbn [andb].
  unfold try_catch. rewrite bind_get, bind_modify. cbn beta.
  unfold bindM at 1. unfold ext at 1.
  destruct (launch_r env (launches w)) as [[]|e|]; [|discriminate..].
  rewrite bind_modify, bind_emit, bind_get. cbn beta.
  cbn [cleanupIntervalHandle add_log set_browser count_launch]. rewrite Hh.
  rewrite bind_get, bind_modify. cbn beta. unfold emit, modify.
  intros H. injection H as <-. cbn. split; [reflexivity|]. split; [reflexivity|].
  by rewrite last_snoc.
Qed.

(** C8.  On the first launch [initialize] schedules the sweep every
    [max(60000, floor(TTL / 6))] milliseconds, with a TTL of 30 minutes
    unless configured.  A sweep never throws.  A sweep that can list
    the directory removes a file exactly when its age, taken from its
    last-modified time, exceeds the TTL and neither [stat] nor [unlink]
    fails on that file; every other file is left as it was, so an
    error on one file does not keep the sweep from the others. *)
Theorem cleanup_interval_and_sweep env (w w' : World) (sw : SweepScript)
    (dir : gmap string Z) :
  screenshotTTL (newBrowserService None None) = 30 * 60 * 1000 /\
  (isInitialized w = false ->
   cleanupIntervalHandle w = None ->
   initialize env w = (Normal tt, w') ->
   cleanupIntervalHandle w' = Some (Z.max (60 * 1000) (screenshotTTL w / 6))) /\
  fst (cleanupScreenshots sw (screenshotTTL w) dir) = Normal tt /\
  (sw_isDirectory sw = true ->
   sw_readdir_error sw = None ->
   forall file,
     snd (cleanupScreenshots sw (screenshotTTL w) dir) !! file =
     match dir !! file with
     | Some mtimeMs =>
         if (screenshotTTL w <? age sw mtimeMs) && io_ok sw file
         then None else Some mtimeMs
     | None => None
     end).
Proof.
  split; [reflexivity|]. split.
  { intros Hi Hh Hrun. by destruct (initialize_first_launch env w w' Hi Hh Hrun). }
  split; [apply cleanupScreenshots_never_throws|].
  intros Hdir Hread file.
  unfold cleanupScreenshots, try_catch. rewrite Hdir. cbn [negb].
  unfold bindM at 1. unfold fs_readdir. rewrite Hread.
  rewrite for_each_sweep. cbn [snd]. rewrite sweep_fold_lookup.
  destruct (dir !! file) as [m|] eqn:Ef; [|reflexivity].
  rewrite bool_decide_eq_true_2.
  2:{ apply elem_of_elements, elem_of_dom. by eexists. }
  cbn [andb]. unfold age.
  replace (m <? sw_now sw - screenshotTTL w)
    with (screenshotTTL w <? sw_now sw - m); [reflexivity|].
  destruct (Z.ltb_spec (screenshotTTL w) (sw_now sw - m)),
           (Z.ltb_spec m (sw_now sw - screenshotTTL w)); try reflexivity; lia.
Qed.

Lemma cleanup_interval_and_sweep_witness :
  let env := test_env (fun _ => ok_page) (fun _ => ok_shot 1280 800) ok_stats in
  let w := newBrowserService None None in
  let sw :=
    mkSweep true None 10000000 (fun _ => None)
      (fun f => if String.eqb f "locked.jpg"
                then Some (ErrorObj "Error" "EPERM: operation not permitted")
                else None) in
  let dir : gmap string Z :=
    <["old.jpg"%string := 1000]>
      (<["locked.jpg"%string := 2000]> (<["fresh.jpg"%string := 9000000]> ∅)) in
  cleanupIntervalHandle (snd (initialize env w)) = Some 300000 /\
  snd (cleanupScreenshots sw (screenshotTTL w) dir) !! "old.jpg"%string = None /\
  snd (cleanupScreenshots sw (screenshotTTL w) dir) !! "locked.jpg"%string = Some 2000 /\
  snd (cleanupScreenshots sw (screenshotTTL w) dir) !! "fresh.jpg"%string = Some 9000000.
Proof.
  intros env w sw dir.
  destruct (cleanup_interval_and_sweep env w (snd (initialize env w)) sw dir)
    as (_ & Hinterval & _ & Hsweep).
  split; [exact (Hinterval eq_refl eq_refl eq_refl)|].
  rewrite !(Hsweep eq_refl eq_refl).
  repeat split; vm_compute; reflexivity.
Defined.

(** ** The whole pipeline on the test doubles *)

Example audit_of_a_reachable_page :
  let env := test_env (fun _ => ok_page) (fun _ => ok_shot 1280 800) ok_stats in
  let run := auditWebsite env "https://example.com/" with_screenshot (started env) in
  exists res data shot,
    fst run = Normal res /\ ar_success res = true /\ ar_data res = Some data /\
    war_statusCode data = Some 200 /\
    war_screenshot data = Some [shot] /\
    shot_filename shot = "example_com_1700000000000.jpg"%string /\
    acquired (snd run) = 2%nat /\ released (snd run) = 2%nat /\
    currentSlots (slots (snd run)) = 0.
Proof.
  cbn zeta. eexists. eexists. eexists.
  split; [vm_compute; reflexivity|]. repeat split.
Qed.

(** A page that never loads is tried three times, with two waits in
    between; each try takes and returns a slot.  The operation wrapped
    by [loadPageWithRetry] turns the load failure into a plain [Error]
    carrying its message only, and [auditWebsite] reports what
    [retryWithBackoff] throws through its catch-all handler. *)
Example audit_of_an_unreachable_page :
  let dead_page :=
    mkPageScript false (Normal tt) (Normal tt)
      (Throws (ErrorObj "Error" "net::ERR_NAME_NOT_RESOLVED")) 0
      (Normal ""%string) (mkMetrics 0 0 0 0) "" (Normal tt) in
  let env := test_env (fun _ => dead_page) (fun _ => ok_shot 1280 800) ok_stats in
  let run := auditWebsite env "https://example.com/" no_options (started env) in
  exists res e,
    fst run = Normal res /\ ar_success res = false /\ ar_error res = Some e /\
    err_error e = "AUDIT_FAILED"%string /\
    err_message e
    = "Audit failed: Failed to load page: net::ERR_NAME_NOT_RESOLVED"%string /\
    stage_of res = Some "unknown"%string /\
    loads (snd run) = 3%nat /\
    slept (snd run) = [backoff_delay 1000 0 (1 # 2); backoff_delay 1000 1 (1 # 2)] /\
    acquired (snd run) = 3%nat /\ released (snd run) = 3%nat.
Proof.
  cbn zeta. eexists. eexists.
  split; [vm_compute; reflexivity|]. repeat split.
Qed.

(** * Properties of the further functions *)

(** ** Rules for [outcome] and [effect] *)

Lemma outcome_ret {St A} (a : A) (P : A -> Prop) Q : P a -> outcome (@ret St A a) P Q.
Proof. intros HP st r st' H. injection H as <- <-. exact HP. Qed.

Lemma outcome_throw {St A} e (P : A -> Prop) (Q : Thrown -> Prop) :
  Q e -> outcome (@throw St A e) P Q.
Proof. intros HQ st r st' H. injection H as <- <-. exact HQ. Qed.

Lemma outcome_ext {St A} (c : Completion A) :
  outcome (@ext St A c) (fun a => c = Normal a) (fun e => c = Throws e).
Proof. intros st r st' H. injection H as <- <-. by destruct c. Qed.

Lemma outcome_sync {St A} (c : Thrown + A) :
  outcome (@sync St A c) (fun a => c = inr a) (fun e => c = inl e).
Proof. intros st r st' H. destruct c; injection H as <- <-; reflexivity. Qed.

Lemma outcome_get {St A} (f : St -> A) Q : outcome (get f) (fun _ => True) Q.
Proof. intros st r st' H. by injection H as <- <-. Qed.

Lemma outcome_modify {St} (f : St -> St) Q : outcome (modify f) (fun _ => True) Q.
Proof. intros st r st' H. by injection H as <- <-. Qed.

Lemma outcome_weaken {St A} (m : M St A) (P P' : A -> Prop) (Q Q' : Thrown -> Prop) :
  outcome m P Q -> (forall a, P a -> P' a) -> (forall e, Q e -> Q' e) ->
  outcome m P' Q'.
Proof.
  intros Hm HP HQ st r st' H. specialize (Hm _ _ _ H).
  destruct r; [by apply HP | by apply HQ | done].
Qed.

Lemma outcome_bind {St A B} (m : M St A) (k : A -> M St B)
    (P1 : A -> Prop) (P : B -> Prop) (Q : Thrown -> Prop) :
  outcome m P1 Q -> (forall a, P1 a -> outcome (k a) P Q) ->
  outcome (bindM m k) P Q.
Proof.
  intros Hm Hk st r st' H. unfold bindM in H.
  destruct (m st) as [[a|e|] st1] eqn:Em.
  - exact (Hk a (Hm _ _ _ Em) _ _ _ H).
  - injection H as <- <-. exact (Hm _ _ _ Em).
  - by injection H as <- <-.
Qed.

Lemma outcome_try_catch {St A} (m : M St A) (h : Thrown -> M St A)
    (P : A -> Prop) (Q1 Q : Thrown -> Prop) :
  outcome m P Q1 -> (forall e, Q1 e -> outcome (h e) P Q) ->
  outcome (try_catch m h) P Q.
Proof.
  intros Hm Hh st r st' H. unfold try_catch in H.
  destruct (m st) as [[a|e|] st1] eqn:Em.
  - injection H as <- <-. exact (Hm _ _ _ Em).
  - exact (Hh e (Hm _ _ _ Em) _ _ _ H).
  - by injection H as <- <-.
Qed.

Lemma outcome_try_finally {St A} (m : M St A) (f : M St unit)
    (P : A -> Prop) (Q : Thrown -> Prop) :
  outcome m P Q -> outcome f (fun _ => True) Q ->
  outcome (try_finally m f) P Q.
Proof.
  intros Hm Hf st r st' H. unfold try_finally in H.
  destruct (m st) as [r1 st1] eqn:Em. specialize (Hm _ _ _ Em).
  destruct r1 as [a|e|]; [| |by injection H as <- <-];
    destruct (f st1) as [[[]|e'|] st2] eqn:Ef; specialize (Hf _ _ _ Ef);
    injection H as <- <-; done.
Qed.

Lemma effect_ret {St A} (a : A) (R : St -> St -> Prop) :
  (forall st, R st st) -> effect (ret a) R.
Proof. intros HR st r st' H. injection H as <- <-. apply HR. Qed.

Lemma effect_throw {St A} e (R : St -> St -> Prop) :
  (forall st, R st st) -> effect (@throw St A e) R.
Proof. intros HR st r st' H. injection H as <- <-. apply HR. Qed.

Lemma effect_ext {St A} (c : Completion A) (R : St -> St -> Prop) :
  (forall st, R st st) -> effect (ext c) R.
Proof. intros HR st r st' H. injection H as <- <-. apply HR. Qed.

Lemma effect_sync {St A} (c : Thrown + A) (R : St -> St -> Prop) :
  (forall st, R st st) -> effect (sync c) R.
Proof. intros HR st r st' H. destruct c; injection H as <- <-; apply HR. Qed.

Lemma effect_get {St A} (f : St -> A) (R : St -> St -> Prop) :
  (forall st, R st st) -> effect (get f) R.
Proof. intros HR st r st' H. injection H as <- <-. apply HR. Qed.

Lemma effect_modify {St} (f : St -> St) (R : St -> St -> Prop) :
  (forall st, R st (f st)) -> effect (modify f) R.
Proof. intros HR st r st' H. injection H as <- <-. apply HR. Qed.

Lemma effect_bind {St A B} (m : M St A) (k : A -> M St B) (R : St -> St -> Prop) :
  (forall a b c, R a b -> R b c -> R a c) ->
  effect m R -> (forall a, effect (k a) R) -> effect (bindM m k) R.
Proof.
  intros Htrans Hm Hk st r st' H. unfold bindM in H.
  destruct (m st) as [[a|e|] st1] eqn:Em.
  - exact (Htrans _ _ _ (Hm _ _ _ Em) (Hk a _ _ _ H)).
  - injection H as <- <-. exact (Hm _ _ _ Em).
  - injection H as <- <-. exact (Hm _ _ _ Em).
Qed.

Lemma effect_try_catch {St A} (m : M St A) (h : Thrown -> M St A)
    (R : St -> St -> Prop) :
  (forall a b c, R a b -> R b c -> R a c) ->
  effect m R -> (forall e, effect (h e) R) -> effect (try_catch m h) R.
Proof.
  intros Htrans Hm Hh st r st' H. unfold try_catch in H.
  destruct (m st) as [[a|e|] st1] eqn:Em.
  - injection H as <- <-. exact (Hm _ _ _ Em).
  - exact (Htrans _ _ _ (Hm _ _ _ Em) (Hh e _ _ _ H)).
  - injection H as <- <-. exact (Hm _ _ _ Em).
Qed.

Lemma effect_try_finally {St A} (m : M St A) (f : M St unit) (R : St -> St -> Prop) :
  (forall a b c, R a b -> R b c -> R a c) ->
  effect m R -> effect f R -> effect (try_finally m f) R.
Proof.
  intros Htrans Hm Hf st r st' H. unfold try_finally in H.
  destruct (m st) as [r1 st1] eqn:Em. specialize (Hm _ _ _ Em).
  destruct r1 as [a|e|]; [| |by injection H as <- <-];
    destruct (f st1) as [[[]|e'|] st2] eqn:Ef; specialize (Hf _ _ _ Ef);
    injection H as <- <-; by eapply Htrans.
Qed.

Lemma effect_for_each_push {St A B} (l : list A) (body : A -> M St B)
    (R : St -> St -> Prop) :
  (forall st, R st st) -> (forall a b c, R a b -> R b c -> R a c) ->
  (forall x, effect (body x) R) -> effect (for_each_push l body) R.
Proof.
  intros Hrefl Htrans Hb. induction l as [|x l IH]; cbn [for_each_push].
  - by apply effect_ret.
  - apply effect_bind; [done | apply Hb |]. intros y.
    apply effect_bind; [done | apply IH |]. intros ys. by apply effect_ret.
Qed.

(** ** What [loadPage] returns and throws *)

Lemma outcome_any {St A} (m : M St A) : outcome m (fun _ => True) (fun _ => True).
Proof. intros st r st' _. by destruct r. Qed.

Lemma outcome_emit e Q : outcome (emit e) (fun _ => True) Q.
Proof. apply outcome_modify. Qed.

Lemma outcome_await_acquireSlot lost Q :
  outcome (await_acquireSlot lost) (fun _ => True) Q.
Proof.
  intros w r w' H. unfold await_acquireSlot in H.
  destruct (bool_decide _); by injection H as <- <-.
Qed.

Lemma outcome_release Q :
  outcome (try_catch call_releaseSlot (fun _ => ret tt)) (fun _ => True) Q.
Proof. intros w r w' H. rewrite release_step in H. by injection H as <- <-. Qed.

Lemma outcome_initialize env :
  outcome (initialize env) (fun _ => True) entry_failure.
Proof.
  unfold initialize.
  eapply outcome_bind; [apply outcome_get|]. intros ready _.
  destruct ready; [by apply outcome_ret|].
  eapply outcome_try_catch; [apply outcome_any|].
  intros e _. apply outcome_throw. right. by exists e.
Qed.

Lemma outcome_loadPage env (url : string) (options : AuditOptions) :
  outcome (loadPage env url options) (good_load url options) entry_failure.
Proof.
  unfold loadPage.
  eapply outcome_bind; [apply outcome_get|]. intros n _.
  eapply outcome_bind; [apply outcome_modify|]. intros _ _.
  eapply outcome_bind; [apply outcome_initialize|]. intros _ _.
  eapply outcome_bind; [apply outcome_await_acquireSlot|]. intros _ _.
  eapply outcome_bind; [apply outcome_get|]. intros b _.
  destruct b as [b|]; [|apply outcome_throw; by left].
  apply outcome_try_finally.
  - eapply outcome_try_catch.
    + eapply outcome_bind; [apply outcome_any|]. intros _ _.
      eapply outcome_bind; [apply outcome_any|]. intros _ _.
      eapply outcome_bind; [apply outcome_any|]. intros _ _.
      eapply outcome_bind; [apply outcome_any|]. intros _ _.
      eapply outcome_bind; [apply outcome_any|]. intros response _.
      destruct response as [resp|]; [|by apply outcome_throw].
      eapply outcome_bind; [apply outcome_any|]. intros html _.
      apply outcome_ret. unfold good_load. cbn. repeat split; by eexists.
    + intros e _. apply outcome_ret. unfold good_load. cbn. by exists e.
  - apply outcome_bind with (P1 := fun _ => True);
      [|intros _ _; apply outcome_release].
    destruct (newPage_r (page_script env n)); try by apply outcome_ret.
    eapply outcome_try_catch; [apply outcome_any|].
    intros e _. by apply outcome_ret.
Qed.

Lemma outcome_loadPage_returns env (url : string) (options : AuditOptions) :
  outcome (loadPage env url options) (good_load url options) (fun _ => True).
Proof.
  eapply outcome_weaken; [apply outcome_loadPage|intros a Ha; exact Ha|done].
Qed.

(** ** [validateUrl]: what is accepted and what is reported *)

Lemma isBlockedDomain_false env host : isBlockedDomain env host = false.
Proof. reflexivity. Qed.

Lemma urlSchema_safeParse_inr env s data :
  urlSchema_safeParse env s = inr data ->
  data = s /\ zod_string_url env s = [] /\ urlSchema_refine env s = true.
Proof.
  unfold urlSchema_safeParse.
  destruct (zod_string_url env s) as [|i issues] eqn:Ez; [|discriminate].
  destruct (urlSchema_refine env s); cbn; [|discriminate].
  intros H. by injection H as <-.
Qed.

Lemma performAdditionalValidations_nil env url :
  performAdditionalValidations env url = [] ->
  (String.length (href url) <= 2048)%nat /\
  (port url = ""%string \/
   exists portNum, parseInt env (port url) = Some portNum /\ 1 <= portNum <= 65535) /\
  includes (pathname url) ".." = false /\
  includes (pathname url) "//" = false /\
  (protocol url = "http:" \/ protocol url = "https:")%string.
Proof.
  unfold performAdditionalValidations. intros H.
  apply app_eq_nil in H as [H1 H]. apply app_eq_nil in H as [H2 H].
  apply app_eq_nil in H as [H3 H4].
  split; [|split; [|split; [|split]]].
  - destruct (Z.ltb_spec 2048 (Z.of_nat (String.length (href url)))); [discriminate|lia].
  - destruct (String.eqb_spec (port url) ""); [by left|]. cbn [negb] in H2.
    destruct (parseInt env (port url)) as [p|]; [|discriminate].
    right. exists p. split; [reflexivity|].
    destruct (Z.ltb_spec p 1); [discriminate|].
    destruct (Z.ltb_spec 65535 p); [discriminate|]. lia.
  - destruct (includes (pathname url) ".."); [discriminate|reflexivity].
  - destruct (includes (pathname url) ".."); [discriminate|].
    destruct (includes (pathname url) "//"); [discriminate|reflexivity].
  - destruct (String.eqb_spec (protocol url) "http:"); [by left|].
    destruct (String.eqb_spec (protocol url) "https:"); [by right|]. discriminate.
Qed.

Lemma rejected_invalid code msg details :
  code ∈ validator_codes ->
  (forall step originalError, details <> Some (DetailsStep step originalError)) ->
  rejected (invalid code msg details).
Proof.
  intros Hc Hd. split; [reflexivity|]. split; [reflexivity|].
  eexists. split; [reflexivity|]. split; [exact Hc|]. split; [|exact Hd].
  cbn. intros ->. vm_compute in Hc.
  repeat (apply elem_of_cons in Hc as [Hc|Hc]; [discriminate|]).
  by apply elem_of_nil in Hc.
Qed.

Ltac validator_code :=
  apply rejected_invalid;
  [ unfold validator_codes;
    repeat first [ apply list_elem_of_here | apply list_elem_of_further ]
  | intros; discriminate ].

(** X9 and X10 rest on this: the result of [validateUrl] on any string. *)
Lemma validateUrl_cases {St} env (urlString : string) (st : St) :
  exists v,
    validateUrl env urlString st = (Normal v, st) /\
    if vr_success v then accepted env urlString v else rejected v.
Proof.
  unfold validateUrl, try_catch.
  destruct (String.eqb urlString "" || String.eqb (trim env urlString) "").
  { eexists. split; [reflexivity|]. cbn. validator_code. }
  destruct (urlSchema_safeParse env (trim env urlString)) as [issues|data] eqn:Eparse.
  { eexists. split; [reflexivity|]. cbn. validator_code. }
  apply urlSchema_safeParse_inr in Eparse as (-> & Hzod & Hrefine).
  unfold bindM, sync.
  destruct (new_URL env (trim env urlString)) as [e|parsedUrl] eqn:Eurl; cbn [throw ret].
  { eexists. split; [reflexivity|]. cbn. validator_code. }
  destruct (String.eqb (hostname parsedUrl) ""
            || String.eqb (trim env (hostname parsedUrl)) "") eqn:Ehost.
  { eexists. split; [reflexivity|]. cbn. validator_code. }
  rewrite isBlockedDomain_false.
  destruct (0 <? Z.of_nat (length (performAdditionalValidations env parsedUrl))) eqn:Elen.
  { eexists. split; [reflexivity|]. cbn. validator_code. }
  eexists. split; [reflexivity|]. cbn [vr_success].
  assert (Hnil : performAdditionalValidations env parsedUrl = []).
  { destruct (performAdditionalValidations env parsedUrl); [reflexivity|].
    cbn [length] in Elen. apply Z.ltb_ge in Elen. lia. }
  destruct (performAdditionalValidations_nil env parsedUrl Hnil)
    as (Hlen & Hport & Hdots & Hslashes & Hproto).
  exists parsedUrl. cbn. repeat split; try done.
  apply orb_false_iff in Ehost as [Hh _].
  by destruct (String.eqb_spec (hostname parsedUrl) "").
Qed.

Lemma validateUrl_eq {St} env (urlString : string) (st : St) :
  validateUrl env urlString st = (Normal (validation_of env urlString), st).
Proof.
  unfold validation_of, validateUrl, try_catch.
  destruct (String.eqb urlString "" || String.eqb (trim env urlString) "");
    [reflexivity|].
  destruct (urlSchema_safeParse env (trim env urlString)) as [issues|data];
    [reflexivity|].
  unfold bindM, sync.
  destruct (new_URL env data) as [e|parsedUrl]; cbn [throw ret]; [reflexivity|].
  destruct (String.eqb (hostname parsedUrl) ""
            || String.eqb (trim env (hostname parsedUrl)) ""); [reflexivity|].
  rewrite isBlockedDomain_false.
  by destruct (0 <? Z.of_nat (length (performAdditionalValidations env parsedUrl))).
Qed.

Lemma validation_of_cases env (urlString : string) :
  if vr_success (validation_of env urlString)
  then accepted env urlString (validation_of env urlString)
  else rejected (validation_of env urlString).
Proof.
  destruct (validateUrl_cases env urlString tt) as (v & Hv & Hcase).
  rewrite validateUrl_eq in Hv. by injection Hv as <-.
Qed.

(** ** What the retries and [auditWebsite] return and throw *)

Lemma outcome_retry_from {St T} `{Runtime St} (fn : M St T)
    (P : T -> Prop) (Q : Thrown -> Prop) maxRetries baseDelay remaining :
  outcome fn P Q ->
  forall attempt lastError,
    outcome (retry_from fn maxRetries baseDelay remaining attempt lastError)
            P (fun _ => True).
Proof.
  intros Hfn. induction remaining as [|remaining IH]; intros attempt lastError.
  - by apply outcome_throw.
  - cbn [retry_from]. eapply outcome_try_catch; [exact Hfn|].
    intros error _. destruct (attempt =? maxRetries); [by apply outcome_throw|].
    apply outcome_bind with (P1 := fun _ => True).
    + intros st r st' Hr. destruct (Math_random st). by injection Hr as <- <-.
    + intros r _. eapply outcome_bind; [apply outcome_modify|].
      intros _ _. apply IH.
Qed.

Lemma outcome_loadPageWithRetry env (url : string) (options : AuditOptions) :
  outcome (loadPageWithRetry env url options)
          (fun res => plr_success res = true /\ good_load url options res)
          (fun _ => True).
Proof.
  unfold loadPageWithRetry, retryWithBackoff.
  eapply outcome_retry_from with (Q := fun _ => True).
  eapply outcome_bind.
  - eapply outcome_weaken; [apply outcome_loadPage| |]; [intros a Ha; exact Ha|done].
  - intros res Hres. cbn beta. destruct (plr_success res) eqn:Hs; cbn [negb].
    + by apply outcome_ret.
    + by apply outcome_throw.
Qed.

Lemma outcome_validateUrl {St} env (urlString : string) :
  outcome (validateUrl env (St := St) urlString)
          (fun v => v = validation_of env urlString /\
                    if vr_success v then accepted env urlString v else rejected v)
          (fun _ => True).
Proof.
  intros st r st' H. rewrite validateUrl_eq in H. injection H as <- <-.
  split; [reflexivity | apply validation_of_cases].
Qed.

Lemma outcome_validateUrl_total {St} env (urlString : string) :
  outcome (validateUrl env (St := St) urlString)
          (fun v => v = validation_of env urlString /\
                    if vr_success v then accepted env urlString v else rejected v)
          (fun _ => False).
Proof.
  intros st r st' H. rewrite validateUrl_eq in H. injection H as <- <-.
  split; [reflexivity | apply validation_of_cases].
Qed.

Lemma outcome_auditWebsite env (url : string) (options : AuditOptions) :
  outcome (auditWebsite env url options)
          (fun res => audit_shape res /\
                      (ar_success res = false -> audit_failure_kind res))
          (fun _ => False).
Proof.
  unfold auditWebsite, measureExecutionTime.
  eapply outcome_try_catch with (Q1 := fun _ => True).
  - eapply outcome_bind; [apply outcome_validateUrl|].
    intros v [Hveq Hv]. destruct (vr_success v) eqn:Hs; cbn [negb].
    + eapply outcome_bind; [apply outcome_loadPageWithRetry|].
      intros page [Hpage _]. rewrite Hpage. cbn [negb].
      eapply outcome_bind; [apply outcome_any|]. intros parseResult _.
      eapply outcome_bind; [apply outcome_any|]. intros auditResult _.
      eapply outcome_bind; [apply outcome_any|]. intros statistics _.
      apply outcome_ret. split; [|discriminate].
      unfold audit_shape. cbn. by split; [eexists|].
    + apply outcome_ret. destruct Hv as (_ & _ & e & He & Hcode & _ & Hdet).
      split.
      * unfold audit_shape. cbn. split; [reflexivity|]. rewrite He. by eexists.
      * intros _. left. cbn. split; [reflexivity|]. by exists e.
  - intros error _. apply outcome_ret. split.
    + unfold audit_shape. cbn. by split; [|eexists].
    + intros _. right. cbn. split; [reflexivity|]. by eexists _, error.
Qed.

(** ** How many page loads and waits a call makes *)

Lemma same_load_refl w : same_load w w.
Proof. by split. Qed.

Lemma same_load_trans a b c : same_load a b -> same_load b c -> same_load a c.
Proof. intros [H1 H2] [H3 H4]. split; congruence. Qed.

Lemma within_refl a b w : within a b w w.
Proof. unfold within. lia. Qed.

Lemma within_comp a1 b1 a2 b2 w1 w2 w3 :
  within a1 b1 w1 w2 -> within a2 b2 w2 w3 -> within (a1 + a2) (b1 + b2) w1 w3.
Proof. unfold within. lia. Qed.

Lemma within_mono a b a' b' w w' :
  (a <= a')%nat -> (b <= b')%nat -> within a b w w' -> within a' b' w w'.
Proof. unfold within. lia. Qed.

Lemma same_load_within w w' : same_load w w' -> within 0 0 w w'.
Proof. intros [H1 H2]. unfold within. rewrite H1, H2. lia. Qed.

Lemma effect_weaken {St A} (m : M St A) (R R' : St -> St -> Prop) :
  effect m R -> (forall s s', R s s' -> R' s s') -> effect m R'.
Proof. intros Hm HR st r st' H. apply HR. by eapply Hm. Qed.

(** Sequencing with a relation per part. *)
Lemma effect_bind_seq {St A B} (m : M St A) (k : A -> M St B)
    (R1 R2 R : St -> St -> Prop) :
  effect m R1 -> (forall a, effect (k a) R2) ->
  (forall s s', R1 s s' -> R s s') ->
  (forall s s' s'', R1 s s' -> R2 s' s'' -> R s s'') ->
  effect (bindM m k) R.
Proof.
  intros Hm Hk H1 H12 st r st' H. unfold bindM in H.
  destruct (m st) as [[a|e|] st1] eqn:Em.
  - eapply H12; [by eapply Hm | by eapply Hk].
  - injection H as <- <-. eapply H1. by eapply Hm.
  - injection H as <- <-. eapply H1. by eapply Hm.
Qed.

Lemma effect_try_catch_seq {St A} (m : M St A) (h : Thrown -> M St A)
    (R1 R2 R : St -> St -> Prop) :
  effect m R1 -> (forall e, effect (h e) R2) ->
  (forall s s', R1 s s' -> R s s') ->
  (forall s s' s'', R1 s s' -> R2 s' s'' -> R s s'') ->
  effect (try_catch m h) R.
Proof.
  intros Hm Hh H1 H12 st r st' H. unfold try_catch in H.
  destruct (m st) as [[a|e|] st1] eqn:Em.
  - injection H as <- <-. eapply H1. by eapply Hm.
  - eapply H12; [by eapply Hm | by eapply Hh].
  - injection H as <- <-. eapply H1. by eapply Hm.
Qed.

(** Walks through a computation built from the monad's combinators and
    shows that every step keeps a reflexive and transitive relation;
    [modtac] proves it of the state updates. *)
Ltac frame_step refl trans modtac :=
  first
    [ apply effect_ret; exact refl
    | apply effect_throw; exact refl
    | apply effect_ext; exact refl
    | apply effect_sync; exact refl
    | apply effect_get; exact refl
    | apply effect_modify; intros ?; modtac
    | apply effect_bind; [exact trans| |intros ?]
    | apply effect_try_catch; [exact trans| |intros ?]
    | apply effect_try_finally; [exact trans| |]
    | apply effect_for_each_push; [exact refl|exact trans|intros [? ?]]
    | match goal with
      | |- effect (if ?b then _ else _) _ => destruct b
      | |- effect (match ?x with _ => _ end) _ => destruct x
      end ].

Ltac same_load_step :=
  frame_step same_load_refl same_load_trans ltac:(split; reflexivity).

Ltac same_load_steps := repeat same_load_step.

Lemma same_load_initialize env : effect (initialize env) same_load.
Proof. unfold initialize, emit. same_load_steps. Qed.

Lemma same_load_await_acquireSlot lost : effect (await_acquireSlot lost) same_load.
Proof.
  intros w r w' H. unfold await_acquireSlot in H.
  destruct (bool_decide _); injection H as <- <-; by destruct lost.
Qed.

Lemma same_load_release : effect call_releaseSlot same_load.
Proof. unfold call_releaseSlot. same_load_steps. Qed.

Lemma same_load_validateUrl env (urlString : string) :
  effect (validateUrl env urlString) same_load.
Proof.
  intros w r w' H.
  destruct (validateUrl_cases env urlString w) as (v & Hv & _).
  rewrite Hv in H. injection H as <- <-. apply same_load_refl.
Qed.

Lemma same_load_capture_to env sc k c filename response :
  effect (capture_to env sc k c filename response) same_load.
Proof. unfold capture_to, emit. same_load_steps. Qed.

Lemma same_load_screenshotUrl env (url : string) (opts : ScreenshotOpts) :
  effect (screenshotUrl env url opts) same_load.
Proof.
  unfold screenshotUrl, emit.
  repeat first
    [ apply same_load_initialize | apply same_load_await_acquireSlot
    | apply same_load_release | apply same_load_capture_to
    | same_load_step ].
Qed.

Lemma same_load_extractAuditData env html baseUrl statusCode :
  effect (extractAuditData env (St := World) html baseUrl statusCode) same_load.
Proof. unfold extractAuditData. same_load_steps. Qed.

(** [loadPage] counts itself once and waits for nothing. *)
Lemma loadPage_counts env (url : string) (options : AuditOptions) w r w' :
  loadPage env url options w = (r, w') ->
  loads w' = S (loads w) /\ slept w' = slept w.
Proof.
  unfold loadPage. rewrite bind_get, bind_modify. intros H.
  match type of H with
  | ?m (count_load w) = _ =>
      assert (Hrest : effect m same_load); [|exact (Hrest _ _ _ H)]
  end.
  clear H. unfold emit.
  repeat first
    [ apply same_load_initialize | apply same_load_await_acquireSlot
    | apply same_load_release | same_load_step ].
Qed.

Lemma effect_bind_within {A B} (m : M World A) (k : A -> M World B) a1 b1 a2 b2 :
  effect m (within a1 b1) -> (forall x, effect (k x) (within a2 b2)) ->
  effect (bindM m k) (within (a1 + a2) (b1 + b2)).
Proof.
  intros Hm Hk. eapply effect_bind_seq; [exact Hm|exact Hk| |].
  - intros s s'. apply within_mono; lia.
  - intros s s' s''. apply within_comp.
Qed.

Lemma effect_try_catch_within {A} (m : M World A) (h : Thrown -> M World A)
    a1 b1 a2 b2 :
  effect m (within a1 b1) -> (forall e, effect (h e) (within a2 b2)) ->
  effect (try_catch m h) (within (a1 + a2) (b1 + b2)).
Proof.
  intros Hm Hh. eapply effect_try_catch_seq; [exact Hm|exact Hh| |].
  - intros s s'. apply within_mono; lia.
  - intros s s' s''. apply within_comp.
Qed.

Lemma effect_within_mono {A} (m : M World A) a b a' b' :
  (a <= a')%nat -> (b <= b')%nat ->
  effect m (within a b) -> effect m (within a' b').
Proof. intros Ha Hb Hm. eapply effect_weaken; [exact Hm|]. intros s s'. by apply within_mono. Qed.

Lemma effect_same_load_within {A} (m : M World A) a b :
  effect m same_load -> effect m (within a b).
Proof.
  intros Hm. eapply effect_weaken; [exact Hm|]. intros s s' Hs.
  eapply within_mono; [| |by apply same_load_within]; lia.
Qed.

Lemma effect_loadPage env (url : string) (options : AuditOptions) :
  effect (loadPage env url options) (within 1 0).
Proof.
  intros w r w' H. apply loadPage_counts in H as [Hl Hs].
  unfold within. rewrite Hl, Hs. lia.
Qed.

(** Run from the state the loop of [retryWithBackoff] is in before
    attempt [attempt], an operation that loads one page per call loads
    at most one page per remaining attempt, with one wait between two
    attempts. *)
Lemma effect_retry_from env {T} (fn : M World T) maxRetries baseDelay :
  effect fn (within 1 0) ->
  forall remaining attempt lastError,
    Z.of_nat remaining = maxRetries + 1 - attempt ->
    effect (retry_from (H := world_runtime env) fn maxRetries baseDelay
              remaining attempt lastError)
           (within remaining (pred remaining)).
Proof.
  intros Hfn. induction remaining as [|remaining IH]; intros attempt lastError Hrem.
  - apply effect_throw. intros st. apply within_refl.
  - cbn [retry_from pred].
    apply effect_within_mono with (a := (1 + remaining)%nat) (b := (0 + remaining)%nat);
      [lia|lia|].
    apply effect_try_catch_within; [exact Hfn|]. intros error.
    destruct (Z.eqb_spec attempt maxRetries) as [Heq|Hne].
    + apply effect_throw. intros st. apply within_refl.
    + intros st r st' H. unfold bindM in H. cbn [Math_random world_runtime] in H.
      unfold modify in H. cbn [setTimeout_wait world_runtime] in H.
      apply IH in H; [|lia].
      destruct remaining as [|remaining']; [lia|].
      unfold within in *. cbn [pred] in H.
      cbn [loads slept add_slept count_draw] in H.
      rewrite length_app in H. cbn [length] in H. lia.
Qed.

Lemma effect_loadPageWithRetry env (url : string) (options : AuditOptions) :
  effect (loadPageWithRetry env url options) (within 3 2).
Proof.
  unfold loadPageWithRetry, retryWithBackoff.
  apply (effect_retry_from env _ 2 1000%Q) with (remaining := 3%nat); [|reflexivity].
  apply effect_within_mono with (a := (1 + 0)%nat) (b := (0 + 0)%nat); [lia|lia|].
  apply effect_bind_within; [apply effect_loadPage|].
  intros res. destruct (negb (plr_success res)).
  - apply effect_throw. intros st. apply within_refl.
  - apply effect_ret. intros st. apply within_refl.
Qed.

Lemma effect_auditWebsite env (url : string) (options : AuditOptions) :
  effect (auditWebsite env url options) (within 3 2).
Proof.
  unfold auditWebsite, measureExecutionTime.
  apply effect_within_mono with (a := (3 + 0)%nat) (b := (2 + 0)%nat); [lia|lia|].
  apply effect_try_catch_within;
    [|intros error; apply effect_ret; intros st; apply within_refl].
  apply effect_within_mono with (a := (0 + 3)%nat) (b := (0 + 2)%nat); [lia|lia|].
  apply effect_bind_within;
    [apply effect_same_load_within, same_load_validateUrl|].
  intros v. destruct (negb (vr_success v)).
  { apply effect_ret. intros st. apply within_refl. }
  apply effect_within_mono with (a := (3 + 0)%nat) (b := (2 + 0)%nat); [lia|lia|].
  apply effect_bind_within; [apply effect_loadPageWithRetry|].
  intros page. apply effect_same_load_within.
  destruct (negb (plr_success page)); [same_load_steps|].
  unfold parseHtmlContent.
  repeat first
    [ apply same_load_extractAuditData | apply same_load_screenshotUrl
    | same_load_step ].
Qed.

Lemma effect_quickAudit env seo_title seo_description
    (url : string) (options : AuditOptions) :
  effect (quickAudit env seo_title seo_description url options) (within 1 0).
Proof.
  unfold quickAudit.
  apply effect_within_mono with (a := (1 + 0)%nat) (b := (0 + 0)%nat); [lia|lia|].
  apply effect_try_catch_within;
    [|intros error; apply effect_ret; intros st; apply within_refl].
  apply effect_within_mono with (a := (0 + 1)%nat) (b := (0 + 0)%nat); [lia|lia|].
  apply effect_bind_within;
    [apply effect_same_load_within, same_load_validateUrl|].
  intros v. destruct (negb (vr_success v)).
  { apply effect_ret. intros st. apply within_refl. }
  apply effect_within_mono with (a := (1 + 0)%nat) (b := (0 + 0)%nat); [lia|lia|].
  apply effect_bind_within; [apply effect_loadPage|].
  intros page. apply effect_same_load_within.
  destruct (negb (plr_success page)); [same_load_steps|].
  repeat first [ apply same_load_extractAuditData | same_load_step ].
Qed.

Lemma effect_checkUrlAccessibility env (url : string) :
  effect (checkUrlAccessibility env url) (within 1 0).
Proof.
  unfold checkUrlAccessibility.
  apply effect_within_mono with (a := (1 + 0)%nat) (b := (0 + 0)%nat); [lia|lia|].
  apply effect_try_catch_within;
    [|intros error; apply effect_ret; intros st; apply within_refl].
  apply effect_within_mono with (a := (0 + 1)%nat) (b := (0 + 0)%nat); [lia|lia|].
  apply effect_bind_within;
    [apply effect_same_load_within, same_load_validateUrl|].
  intros v. destruct (negb (vr_success v)).
  { apply effect_same_load_within. same_load_steps. }
  apply effect_within_mono with (a := (1 + 0)%nat) (b := (0 + 0)%nat); [lia|lia|].
  apply effect_bind_within; [apply effect_loadPage|].
  intros page. apply effect_ret. intros st. apply within_refl.
Qed.

(** ** The cleanup timer over the life of the service *)

Lemma timer_kept_refl w : timer_kept w w.
Proof. by repeat split. Qed.

Lemma timer_once_refl w : timer_once w w.
Proof. left. apply timer_kept_refl. Qed.

Lemma timer_once_trans a b c : timer_once a b -> timer_once b c -> timer_once a c.
Proof.
  unfold timer_once, timer_kept.
  intros [(H1 & H2 & H3)|(H1 & H2 & H3 & H4)] [(K1 & K2 & K3)|(K1 & K2 & K3 & K4)].
  - left. repeat split; congruence.
  - right. repeat split; congruence.
  - right. repeat split; congruence.
  - congruence.
Qed.

Lemma timers_add_log e w :
  timers (add_log e w) = (timers w + (if is_set_interval e then 1 else 0))%nat.
Proof. apply count_event_add_log. Qed.

Ltac timer_kept_update :=
  left; unfold timer_kept; split; [reflexivity|]; split; [reflexivity|];
  first [ reflexivity
        | rewrite timers_add_log; cbn [is_set_interval]; rewrite Nat.add_0_r;
          reflexivity
        | unfold on_disconnected;
          change (timers (set_browser ?b ?i ?w)) with (timers w);
          rewrite timers_add_log; cbn [is_set_interval]; rewrite Nat.add_0_r;
          reflexivity ].

Ltac timer_step := frame_step timer_once_refl timer_once_trans ltac:(timer_kept_update).

Lemma timer_once_initialize env : effect (initialize env) timer_once.
Proof.
  unfold initialize.
  apply effect_bind; [exact timer_once_trans|timer_step|intros ready].
  destruct ready; [timer_step|].
  apply effect_try_catch; [exact timer_once_trans| |intros error; timer_step].
  apply effect_bind; [exact timer_once_trans|timer_step|intros n].
  apply effect_bind; [exact timer_once_trans|timer_step|intros _].
  apply effect_bind; [exact timer_once_trans|timer_step|intros _].
  apply effect_bind; [exact timer_once_trans|timer_step|intros _].
  apply effect_bind; [exact timer_once_trans|unfold emit; timer_step|intros _].
  intros w r w' H. rewrite bind_get in H.
  destruct (cleanupIntervalHandle w) as [h|] eqn:Eh.
  - injection H as <- <-. apply timer_once_refl.
  - rewrite bind_get, bind_modify in H. injection H as <- <-.
    right. split; [reflexivity|]. split; [exact Eh|]. split; [reflexivity|].
    rewrite timers_add_log. cbn [is_set_interval]. unfold timers, count_event.
    cbn [log set_cleanupIntervalHandle]. lia.
Qed.

Lemma timer_once_await_acquireSlot lost : effect (await_acquireSlot lost) timer_once.
Proof.
  intros w r w' H. unfold await_acquireSlot in H.
  destruct (bool_decide _); injection H as <- <-.
  2: timer_kept_update.
  destruct lost; cbn [id]; timer_kept_update.
Qed.

Lemma timer_once_release : effect call_releaseSlot timer_once.
Proof. unfold call_releaseSlot. apply effect_modify. intros w. timer_kept_update. Qed.

Lemma timer_once_loadPage env (url : string) (options : AuditOptions) :
  effect (loadPage env url options) timer_once.
Proof.
  unfold loadPage, emit.
  repeat first
    [ apply timer_once_initialize | apply timer_once_await_acquireSlot
    | apply timer_once_release | timer_step ].
Qed.

Lemma timer_once_screenshotUrl env (url : string) (opts : ScreenshotOpts) :
  effect (screenshotUrl env url opts) timer_once.
Proof.
  unfold screenshotUrl, capture_to, emit.
  repeat first
    [ apply timer_once_initialize | apply timer_once_await_acquireSlot
    | apply timer_once_release | timer_step ].
Qed.

Lemma timer_once_close closing : effect (close closing) timer_once.
Proof. unfold close. repeat timer_step. Qed.

Lemma timer_once_lifecycle_step env w step :
  timer_once w (lifecycle_step env w step).
Proof.
  destruct step as [|url options|url opts| |closing]; cbn [lifecycle_step].
  - eapply timer_once_initialize. apply surjective_pairing.
  - eapply timer_once_loadPage. apply surjective_pairing.
  - eapply timer_once_screenshotUrl. apply surjective_pairing.
  - timer_kept_update.
  - eapply timer_once_close. apply surjective_pairing.
Qed.

Lemma timer_once_lifecycle env steps w : timer_once w (lifecycle env steps w).
Proof.
  revert w. induction steps as [|step steps IH]; intros w; cbn [lifecycle fold_left].
  - apply timer_once_refl.
  - eapply timer_once_trans; [apply timer_once_lifecycle_step|apply IH].
Qed.

(** ** Results of the page loader and of the auditor *)

(** X1.  [loadPage] throws only before it opens a page: because the
    browser could not be launched, or because it was gone when the slot
    was granted.  Every failure from then on is returned as a result
    with [success = false], the requested URL and the error
    [PAGE_LOAD_FAILED]; a result with [success = true] always carries
    markup, status code, headers and load time.  Each call counts as
    one load and waits for no backoff delay. *)
Theorem loadPage_results env (url : string) (options : AuditOptions) w r w' :
  loadPage env url options w = (r, w') ->
  (forall res, r = Normal res -> good_load url options res) /\
  (forall e, r = Throws e -> entry_failure e) /\
  loads w' = S (loads w) /\ slept w' = slept w.
Proof.
  intros H. pose proof (outcome_loadPage env url options w r w' H) as Hout.
  split; [by intros res ->|]. split; [by intros e ->|].
  by eapply loadPage_counts.
Qed.

Lemma loadPage_results_witness :
  let run := loadPage unreachable_env "https://example.com/" no_options
               (started unreachable_env) in
  good_load "https://example.com/" no_options
    (load_failure "https://example.com/" no_options
       (ErrorObj "Error" "net::ERR_NAME_NOT_RESOLVED")) /\
  loads (snd run) = 1%nat.
Proof.
  intros run.
  destruct (loadPage_results unreachable_env "https://example.com/" no_options
              (started unreachable_env) (fst run) (snd run))
    as (Hres & _ & Hloads & _).
  - unfold run. by destruct (loadPage _ _ _ _).
  - split; [apply Hres; vm_compute; reflexivity | exact Hloads].
Defined.

(** X2.  [auditWebsite] never throws, and what it returns is well
    formed: a success carries the audit data and no error, a failure
    carries an error and no data. *)
Theorem auditWebsite_always_answers env (url : string) (options : AuditOptions)
    w r w' :
  auditWebsite env url options w = (r, w') ->
  (forall e, r <> Throws e) /\
  (forall res, r = Normal res -> audit_shape res).
Proof.
  intros H. pose proof (outcome_auditWebsite env url options w r w' H) as Hout.
  split.
  - intros e ->. exact Hout.
  - intros res ->. apply Hout.
Qed.

Lemma auditWebsite_always_answers_witness :
  let run := auditWebsite unreachable_env "https://example.com/" with_screenshot
               (started unreachable_env) in
  exists res, fst run = Normal res /\ audit_shape res.
Proof.
  intros run.
  destruct (auditWebsite_always_answers unreachable_env "https://example.com/"
              with_screenshot (started unreachable_env) (fst run) (snd run))
    as [_ Hshape].
  - unfold run. by destruct (auditWebsite _ _ _ _).
  - eexists. split; [vm_compute; reflexivity|].
    apply Hshape. vm_compute. reflexivity.
Defined.

(** X3.  The failures of [auditWebsite] are of two kinds only: the
    validator's error as it is, or [AUDIT_FAILED] with the step
    ["unknown"].  The branch that would report the step
    ["page_loading"] with the loader's [PAGE_LOAD_FAILED] error is
    never taken, because [loadPageWithRetry] returns successful loads
    only and throws otherwise. *)
Theorem auditWebsite_failure_kinds env (url : string) (options : AuditOptions)
    w res w' :
  auditWebsite env url options w = (Normal res, w') ->
  ar_success res = false ->
  audit_failure_kind res /\
  stage_of res <> Some "page_loading"%string /\
  (forall e, ar_error res = Some e -> err_error e <> "PAGE_LOAD_FAILED"%string).
Proof.
  intros H Hfail.
  destruct (outcome_auditWebsite env url options w _ w' H) as [_ Hkind].
  specialize (Hkind Hfail). split; [exact Hkind|].
  unfold stage_of.
  destruct Hkind as [(Hd & e & He & Hcode & Hdet)|(Hd & e & cause & He & ->)];
    rewrite Hd, He.
  - split.
    + destruct e as [code msg [[| | |step o]|]]; try discriminate.
      by destruct (Hdet step o).
    + intros e' [= <-] Heq. rewrite Heq in Hcode. vm_compute in Hcode.
      repeat (apply elem_of_cons in Hcode as [Hcode|Hcode]; [discriminate|]).
      by apply elem_of_nil in Hcode.
  - split; [discriminate|]. intros e' [= <-]. discriminate.
Qed.

Lemma auditWebsite_failure_kinds_witness :
  let run := auditWebsite unreachable_env "https://example.com/" no_options
               (started unreachable_env) in
  exists res,
    fst run = Normal res /\ ar_success res = false /\
    audit_failure_kind res /\ stage_of res <> Some "page_loading"%string.
Proof.
  intros run. eexists. split; [vm_compute; reflexivity|].
  split; [reflexivity|].
  destruct (auditWebsite_failure_kinds unreachable_env "https://example.com/"
              no_options (started unreachable_env)
              (mkAuditResult false None
                 (Some (mkApiError "AUDIT_FAILED"
                          "Audit failed: Failed to load page: net::ERR_NAME_NOT_RESOLVED"
                          (Some (DetailsStep "unknown" "Error"))))
                 None)
              (snd run))
    as (Hkind & Hstage & _).
  - vm_compute. reflexivity.
  - reflexivity.
  - split; [exact Hkind | exact Hstage].
Defined.

(** X4.  One call of [auditWebsite] starts at most three page loads and
    waits for at most two backoff delays, however the loads end. *)
Theorem auditWebsite_load_budget env (url : string) (options : AuditOptions)
    w r w' :
  auditWebsite env url options w = (r, w') ->
  (loads w <= loads w' <= loads w + 3)%nat /\
  (length (slept w) <= length (slept w') <= length (slept w) + 2)%nat.
Proof. apply effect_auditWebsite. Qed.

Lemma auditWebsite_load_budget_witness :
  let run := auditWebsite unreachable_env "https://example.com/" no_options
               (started unreachable_env) in
  (loads (snd run) <= 3)%nat /\ (length (slept (snd run)) <= 2)%nat.
Proof.
  intros run.
  destruct (auditWebsite_load_budget unreachable_env "https://example.com/"
              no_options (started unreachable_env) (fst run) (snd run))
    as [Hl Hs].
  - unfold run. by destruct (auditWebsite _ _ _ _).
  - change (loads (started unreachable_env)) with 0%nat in Hl.
    change (length (slept (started unreachable_env))) with 0%nat in Hs.
    split; [apply Hl | apply Hs].
Defined.

(** ** When the service is ready *)

Lemma initialize_returns_ready env w w' :
  initialize env w = (Normal tt, w') -> isReady w' = true.
Proof.
  unfold initialize, isReady. rewrite bind_get.
  destruct (isInitialized w && bool_decide (browser w <> None)) eqn:Hready.
  - by intros [= <-].
  - unfold try_catch. rewrite bind_get, bind_modify. unfold bindM at 1.
    destruct (launch_r env (launches w)) as [[]|e|]; cbn [ext]; [|done|done].
    rewrite bind_modify, bind_emit, bind_get.
    cbn [cleanupIntervalHandle add_log set_browser count_launch].
    destruct (cleanupIntervalHandle w).
    + by intros [= <-].
    + rewrite bind_get, bind_modify. by intros [= <-].
Qed.

Lemma isReady_browser w : isReady w = true -> exists b, browser w = Some b.
Proof.
  unfold isReady. intros H. apply andb_true_iff in H as [_ H].
  apply bool_decide_eq_true in H. destruct (browser w) as [b|]; [by exists b|done].
Qed.

Lemma isReady_on_disconnected w : isReady (on_disconnected w) = false.
Proof. reflexivity. Qed.


(** ** [quickAudit] and [checkUrlAccessibility] *)

Lemma number_or_number_or t d d' :
  d <> 0 -> number_or (Some (number_or t d)) d' = number_or t d.
Proof.
  intros Hd. unfold number_or. destruct t as [v|].
  - destruct (Z.eqb_spec v 0) as [->|Hv].
    + by destruct (Z.eqb_spec d 0).
    + by destruct (Z.eqb_spec v 0).
  - by destruct (Z.eqb_spec d 0).
Qed.

Lemma outcome_quickAudit env seo_title seo_description
    (url : string) (options : AuditOptions) :
  outcome (quickAudit env seo_title seo_description url options)
    (fun res =>
       if qr_success res then is_Some (qr_data res) /\ qr_error res = None
       else
         qr_data res = None /\
         exists e,
           qr_error res = Some e /\
           (vr_success (validation_of env url) = false /\
            err_error e ∈ validator_codes \/
            (exists cause,
               e = load_error cause (number_or (opt_timeout options) 10000)) \/
            (exists cause,
               e = mkApiError "QUICK_AUDIT_FAILED"
                     ("Quick audit failed: " ++ message_or cause "Unknown error")
                     None)))
    (fun _ => False).
Proof.
  unfold quickAudit.
  eapply outcome_try_catch with (Q1 := fun _ => True).
  - eapply outcome_bind; [apply outcome_validateUrl|].
    intros v [Hveq Hv]. destruct (vr_success v) eqn:Hs; cbn [negb].
    + eapply outcome_bind; [apply outcome_loadPage_returns|].
      intros page Hpage. unfold good_load in Hpage.
      destruct (plr_success page) eqn:Hp; cbn [negb].
      * eapply outcome_bind; [apply outcome_any|]. intros auditData _.
        eapply outcome_bind; [apply outcome_any|]. intros statistics _.
        apply outcome_ret. cbn. by split; [eexists|].
      * apply outcome_ret. cbn. split; [reflexivity|].
        destruct Hpage as [error ->]. eexists. split; [reflexivity|].
        right. left. exists error. unfold load_error. cbn [opt_timeout].
        by rewrite number_or_number_or.
    + apply outcome_ret. destruct Hv as (_ & _ & e & He & Hcode & _).
      cbn. split; [reflexivity|]. exists e. split; [exact He|]. left.
      by rewrite <- Hveq.
  - intros error _. apply outcome_ret. cbn. split; [reflexivity|].
    eexists. split; [reflexivity|]. right. right. by exists error.
Qed.

Lemma outcome_checkUrlAccessibility env (url : string) :
  outcome (checkUrlAccessibility env url)
    (fun res =>
       if acc_accessible res then
         acc_error res = None /\ is_Some (acc_statusCode res) /\
         is_Some (acc_loadTimeInMs res) /\ is_Some (acc_finalUrl res)
       else
         is_Some (acc_error res) /\ acc_statusCode res = None /\
         acc_loadTimeInMs res = None)
    (fun _ => False).
Proof.
  unfold checkUrlAccessibility.
  eapply outcome_try_catch with (Q1 := fun _ => True).
  - eapply outcome_bind; [apply outcome_validateUrl|].
    intros v [Hveq Hv]. destruct (vr_success v) eqn:Hs; cbn [negb].
    + eapply outcome_bind; [apply outcome_loadPage_returns|].
      intros page Hpage. unfold good_load in Hpage.
      apply outcome_ret. cbn. destruct (plr_success page) eqn:Hp; cbn [negb].
      * destruct Hpage as (_ & Hstatus & _ & Htime & _). by repeat split.
      * destruct Hpage as [error ->]. cbn. by repeat split.
    + destruct Hv as (_ & _ & e & -> & _). apply outcome_ret. cbn. by repeat split.
  - intros error _. apply outcome_ret. cbn. by repeat split.
Qed.

(** X5.  [quickAudit] never throws.  A success carries data and no
    error.  A failure carries one of three errors: the validator's,
    when the validator rejects the URL; the loader's
    [PAGE_LOAD_FAILED] as [loadPage] returned it (the timeout it names
    is the caller's, or 10000 ms when the caller gave none or gave 0:
    the loader's own default of 30000 ms is never used); or
    [QUICK_AUDIT_FAILED] from the catch-all handler. *)
Theorem quickAudit_results env seo_title seo_description
    (url : string) (options : AuditOptions) w r w' :
  quickAudit env seo_title seo_description url options w = (r, w') ->
  (forall e, r <> Throws e) /\
  (forall res, r = Normal res ->
     if qr_success res then is_Some (qr_data res) /\ qr_error res = None
     else
       qr_data res = None /\
       exists e,
         qr_error res = Some e /\
         (vr_success (validation_of env url) = false /\
          err_error e ∈ validator_codes \/
          (exists cause,
             e = load_error cause (number_or (opt_timeout options) 10000)) \/
          (exists cause,
             e = mkApiError "QUICK_AUDIT_FAILED"
                   ("Quick audit failed: " ++ message_or cause "Unknown error")
                   None))).
Proof.
  intros H.
  pose proof (outcome_quickAudit env seo_title seo_description url options
                w r w' H) as Hout.
  split.
  - intros e ->. exact Hout.
  - intros res ->. exact Hout.
Qed.

Lemma quickAudit_results_witness :
  let run := quickAudit unreachable_env (fun seo => seo) (fun seo => seo)
               "https://example.com/" no_options (started unreachable_env) in
  fst run
  = Normal (mkQuickResult false None
              (Some (load_error (ErrorObj "Error" "net::ERR_NAME_NOT_RESOLVED")
                                10000))) /\
  (forall e, fst run <> Throws e).
Proof.
  intros run.
  destruct (quickAudit_results unreachable_env (fun seo => seo) (fun seo => seo)
              "https://example.com/" no_options (started unreachable_env)
              (fst run) (snd run))
    as [Hthrow _].
  - unfold run. by destruct (quickAudit _ _ _ _ _ _).
  - split; [vm_compute; reflexivity | exact Hthrow].
Defined.

(** X6.  [checkUrlAccessibility] never throws.  It reports a URL as
    accessible exactly when [loadPage] succeeded on it, and then with
    status code, load time and final URL and without an error; a URL it
    reports as not accessible always comes with an error message and
    without status code and load time. *)
Theorem checkUrlAccessibility_results env (url : string) w r w' :
  checkUrlAccessibility env url w = (r, w') ->
  (forall e, r <> Throws e) /\
  (forall res, r = Normal res ->
     if acc_accessible res then
       acc_error res = None /\ is_Some (acc_statusCode res) /\
       is_Some (acc_loadTimeInMs res) /\ is_Some (acc_finalUrl res)
     else
       is_Some (acc_error res) /\ acc_statusCode res = None /\
       acc_loadTimeInMs res = None).
Proof.
  intros H.
  pose proof (outcome_checkUrlAccessibility env url w r w' H) as Hout.
  split.
  - intros e ->. exact Hout.
  - intros res ->. exact Hout.
Qed.

Lemma checkUrlAccessibility_results_witness :
  let run := checkUrlAccessibility reachable_env "https://example.com/"
               (started reachable_env) in
  fst run
  = Normal (mkAccessibility true (Some 200) None (Some 120)
              (Some "https://example.com/"%string)) /\
  (forall e, fst run <> Throws e).
Proof.
  intros run.
  destruct (checkUrlAccessibility_results reachable_env "https://example.com/"
              (started reachable_env) (fst run) (snd run))
    as [Hthrow _].
  - unfold run. by destruct (checkUrlAccessibility _ _ _).
  - split; [vm_compute; reflexivity | exact Hthrow].
Defined.

(** X7.  [quickAudit] and [checkUrlAccessibility] load the page at most
    once and sleep no delay of [retryWithBackoff]: neither retries a
    load that failed.  (The second that [waitForDynamicContent] lets
    pass after a navigation that succeeded is not a delay of
    [retryWithBackoff] and is not counted in [slept].) *)
Theorem single_load_without_retry env seo_title seo_description
    (url : string) (options : AuditOptions) w :
  (forall r w',
     quickAudit env seo_title seo_description url options w = (r, w') ->
     (loads w <= loads w' <= loads w + 1)%nat /\ length (slept w') = length (slept w)) /\
  (forall r w',
     checkUrlAccessibility env url w = (r, w') ->
     (loads w <= loads w' <= loads w + 1)%nat /\ length (slept w') = length (slept w)).
Proof.
  split; intros r w' H.
  - apply effect_quickAudit in H. unfold within in H. lia.
  - apply effect_checkUrlAccessibility in H. unfold within in H. lia.
Qed.

Lemma single_load_without_retry_witness :
  let run := checkUrlAccessibility unreachable_env "https://example.com/"
               (started unreachable_env) in
  loads (snd run) = 1%nat /\ length (slept (snd run)) = 0%nat.
Proof.
  intros run.
  destruct (single_load_without_retry unreachable_env (fun seo => seo)
              (fun seo => seo) "https://example.com/" no_options
              (started unreachable_env)) as [_ Hcheck].
  destruct (Hcheck (fst run) (snd run)) as [_ Hslept].
  - unfold run. by destruct (checkUrlAccessibility _ _ _).
  - split; [reflexivity | exact Hslept].
Defined.

(** ** The life of the browser service *)

(** X8.  Whatever is called on a new service, and however often the
    browser is lost, closed and launched again, [setInterval] is called
    at most once, with the interval computed from the TTL the service
    was created with: the handle is either still unset and no timer
    runs, or set and exactly one timer runs. *)
Theorem cleanup_timer_started_at_most_once env MAX_CONCURRENT_PAGES SCREENSHOT_TTL_MS
    (steps : list Lifecycle) :
  let w0 := newBrowserService MAX_CONCURRENT_PAGES SCREENSHOT_TTL_MS in
  let w := lifecycle env steps w0 in
  screenshotTTL w = screenshotTTL w0 /\
  ((cleanupIntervalHandle w = None /\ timers w = 0%nat) \/
   (cleanupIntervalHandle w = Some (Z.max (60 * 1000) (screenshotTTL w0 / 6)) /\
    timers w = 1%nat)).
Proof.
  intros w0 w.
  destruct (timer_once_lifecycle env steps w0)
    as [(Httl & Hh & Ht)|(Httl & _ & Hh & Ht)]; fold w in Httl, Hh, Ht.
  - split; [exact Httl|]. left. by rewrite Hh, Ht.
  - split; [exact Httl|]. right. by rewrite Hh, Ht.
Qed.

(** X9.  Once the cleanup timer runs nothing stops or restarts it:
    neither [close] nor the loss of the browser clears the handle, and
    a later [initialize] finds it set. *)
Theorem cleanup_timer_never_stopped env (steps : list Lifecycle) w handle :
  cleanupIntervalHandle w = Some handle ->
  cleanupIntervalHandle (lifecycle env steps w) = Some handle /\
  timers (lifecycle env steps w) = timers w.
Proof.
  intros Hh.
  destruct (timer_once_lifecycle env steps w)
    as [(_ & Hh' & Ht)|(_ & Hnone & _)]; [|congruence].
  by rewrite Hh', Ht.
Qed.

Lemma cleanup_timer_never_stopped_witness :
  let steps := [CallClose (Throws (ErrorObj "Error" "Target closed"));
                CallInitialize; BrowserDisconnected;
                CallLoadPage "https://example.com/" no_options] in
  cleanupIntervalHandle (lifecycle reachable_env steps (started reachable_env))
  = Some 300000 /\
  timers (lifecycle reachable_env steps (started reachable_env)) = 1%nat.
Proof.
  intros steps.
  destruct (cleanup_timer_never_stopped reachable_env steps
              (started reachable_env) 300000)
    as [Hh Ht]; [reflexivity|].
  split; [exact Hh|]. rewrite Ht. reflexivity.
Defined.

(** X10.  [close] never throws, also when [browser.close()] rejects:
    once it returns the service is not ready and holds no browser.  It
    only stays pending when [browser.close()] does, and then the
    service is as before.  It never touches the page slots.  So the
    catch block of [cleanup] is never entered, and [cleanup] does what
    [close] does. *)
Theorem close_never_throws (closing : Completion unit) w r w' :
  close closing w = (r, w') ->
  (forall e, r <> Throws e) /\
  (r = Normal tt -> browser w' = None /\ isReady w' = false) /\
  (r = Pending -> closing = Pending /\ w' = w) /\
  slots w' = slots w /\
  cleanup closing w = (r, w').
Proof.
  intros H.
  assert (Hcleanup : (forall e, r <> Throws e) -> cleanup closing w = (r, w')).
  { intros Hr. unfold cleanup, try_catch. rewrite H.
    destruct r as [a|e|]; [done|by destruct (Hr e)|done]. }
  revert H Hcleanup.
  enough (Hclose : close closing w = (r, w') ->
            (forall e, r <> Throws e) /\
            (r = Normal tt -> browser w' = None /\ isReady w' = false) /\
            (r = Pending -> closing = Pending /\ w' = w) /\
            slots w' = slots w).
  { intros H Hcleanup. destruct (Hclose H) as (H1 & H2 & H3 & H4).
    repeat split; try done; [by apply H2|by apply H2|by apply H3|by apply H3|].
    by apply Hcleanup. }
  unfold close. rewrite bind_get. unfold isReady.
  destruct (browser w) as [b|] eqn:Hb.
  - destruct closing as [[]|e|]; cbn; intros [= <- <-]; cbn;
      repeat split; done.
  - cbn. intros [= <- <-]. rewrite Hb. repeat split; try done.
    apply andb_false_r.
Qed.

Lemma close_never_throws_witness :
  let run := close (Throws (ErrorObj "Error" "Target closed"))
               (started reachable_env) in
  fst run = Normal tt /\ isReady (snd run) = false /\
  isReady (started reachable_env) = true.
Proof.
  intros run.
  destruct (close_never_throws (Throws (ErrorObj "Error" "Target closed"))
              (started reachable_env) (fst run) (snd run))
    as (_ & Hclosed & _).
  - unfold run. by destruct (close _ _).
  - split; [reflexivity|]. split; [apply Hclosed; reflexivity | reflexivity].
Defined.

(** ** The validator *)

(** X11.  A URL that [validateUrl] accepts passed every check: the
    schema found no issue, [new URL] parsed it, its protocol is
    [http:] or [https:], its hostname is not empty, its [href] has at
    most 2048 characters, its port is absent or a number from 1 to
    65535, and its path contains neither [..] nor [//].  The URL handed
    on is the [href] of the parsed URL, not the string given. *)
Theorem validateUrl_accepts_checked_urls {St} env (urlString : string)
    (st st' : St) v :
  validateUrl env urlString st = (Normal v, st') ->
  vr_success v = true ->
  accepted env urlString v.
Proof.
  intros H Hs.
  destruct (validateUrl_cases env urlString st) as (v' & Hv & Hcase).
  rewrite Hv in H. injection H as -> _. by rewrite Hs in Hcase.
Qed.

Lemma validateUrl_accepts_checked_urls_witness :
  accepted reachable_env "https://example.com/"
    (mkValidation true (Some "https://example.com/"%string)
       (Some (mkURL "https://example.com/" "https:" "example.com" "" "/")) None).
Proof.
  apply (validateUrl_accepts_checked_urls (St := unit) reachable_env
           "https://example.com/" tt tt); reflexivity.
Defined.

(** X12.  A rejection by [validateUrl] names one of five codes, never
    [BLOCKED_DOMAIN]: both block lists are empty, so [isBlockedDomain]
    is false of every host.  It carries no URL, and its details never
    name a step. *)
Theorem validateUrl_rejection_codes {St} env (urlString : string)
    (st st' : St) v :
  validateUrl env urlString st = (Normal v, st') ->
  vr_success v = false ->
  rejected v /\ forall host, isBlockedDomain env host = false.
Proof.
  intros H Hs.
  destruct (validateUrl_cases env urlString st) as (v' & Hv & Hcase).
  rewrite Hv in H. injection H as -> _. rewrite Hs in Hcase.
  split; [exact Hcase | reflexivity].
Qed.

Lemma validateUrl_rejection_codes_witness :
  rejected
    (invalid "INVALID_URL_FORMAT"
       "Invalid URL format. Please provide a valid HTTP or HTTPS URL."
       (Some (DetailsIssues ["Invalid url"; "URL must use HTTP or HTTPS protocol"]%string))).
Proof.
  apply (validateUrl_rejection_codes (St := unit) reachable_env
           "ftp://example.com/" tt tt); reflexivity.
Defined.

(** X28.  [initialize] does nothing on a service that is ready.
    Otherwise it launches one browser: when it returns, the service is
    ready; when the launch fails, it throws an [Error] whose message
    starts with ['Failed to initialize browser: '], and the service is
    still not ready and holds no slot more or less than before. *)
Theorem initialize_contract env w r w' :
  initialize env w = (r, w') ->
  (isReady w = true -> r = Normal tt /\ w' = w) /\
  (isReady w = false -> launches w' = S (launches w)) /\
  (r = Normal tt -> isReady w' = true) /\
  (forall e, r = Throws e ->
     isReady w' = false /\
     exists cause,
       e = ErrorObj "Error"
             ("Failed to initialize browser: " ++ message_or cause "Unknown error")) /\
  slots w' = slots w.
Proof.
  intros H.
  assert (Hslots : slots w' = slots w).
  { assert (Hframe : effect (initialize env)
                       (fun a b => slots b = slots a)).
    { unfold initialize, emit.
      repeat frame_step (fun a : World => eq_refl (slots a))
                        (fun (a b c : World) (H1 : slots b = slots a)
                             (H2 : slots c = slots b) => eq_trans H2 H1)
                        ltac:(reflexivity). }
    exact (Hframe _ _ _ H). }
  split; [|split; [|split; [|split; [|exact Hslots]]]].
  - intros Hready. unfold isReady in Hready.
    rewrite initialize_ready in H.
    + by injection H as <- <-.
    + by apply andb_true_iff in Hready as [-> _].
    + apply andb_true_iff in Hready as [_ Hb]. by apply bool_decide_eq_true in Hb.
  - intros Hready. unfold initialize in H. rewrite bind_get in H.
    fold (isReady w) in H. rewrite Hready in H.
    unfold try_catch in H. rewrite bind_get, bind_modify in H.
    unfold bindM at 1 in H.
    destruct (launch_r env (launches w)) as [[]|e|]; cbn [ext] in H.
    + rewrite bind_modify, bind_emit, bind_get in H.
      cbn [cleanupIntervalHandle add_log set_browser count_launch] in H.
      destruct (cleanupIntervalHandle w).
      * by injection H as _ <-.
      * rewrite bind_get, bind_modify in H. by injection H as _ <-.
    + by injection H as _ <-.
    + by injection H as _ <-.
  - intros ->. by eapply initialize_returns_ready.
  - intros e ->. unfold initialize in H. rewrite bind_get in H.
    fold (isReady w) in H. destruct (isReady w) eqn:Hready; [discriminate|].
    unfold try_catch in H. rewrite bind_get, bind_modify in H.
    unfold bindM at 1 in H.
    destruct (launch_r env (launches w)) as [[]|cause|]; cbn [ext] in H.
    + rewrite bind_modify, bind_emit, bind_get in H.
      cbn [cleanupIntervalHandle add_log set_browser count_launch] in H.
      destruct (cleanupIntervalHandle w); [discriminate|].
      rewrite bind_get, bind_modify in H. discriminate.
    + injection H as <- <-. split; [exact Hready|]. by exists cause.
    + discriminate.
Qed.

Lemma initialize_contract_witness :
  let run := initialize reachable_env (newBrowserService None None) in
  fst run = Normal tt /\ isReady (snd run) = true /\ launches (snd run) = 1%nat.
Proof.
  intros run.
  destruct (initialize_contract reachable_env (newBrowserService None None)
              (fst run) (snd run)) as (_ & Hlaunch & Hready & _).
  - unfold run. by destruct (initialize _ _).
  - split; [reflexivity|]. split; [by apply Hready | by apply Hlaunch].
Defined.

(** ** The routes *)

Lemma validator_codes_cases code :
  code ∈ validator_codes ->
  code = "MISSING_URL"%string \/ code = "INVALID_URL_FORMAT"%string \/
  code = "INVALID_HOSTNAME"%string \/ code = "URL_VALIDATION_FAILED"%string \/
  code = "URL_PARSE_ERROR"%string.
Proof.
  unfold validator_codes. intros H.
  repeat (apply elem_of_cons in H as [H|H]; [tauto|]).
  by apply elem_of_nil in H.
Qed.

Lemma string_or_validator_code code dflt :
  code ∈ validator_codes -> string_or code dflt = code.
Proof.
  intros H. apply validator_codes_cases in H.
  by destruct H as [->|[->|[->|[->| ->]]]].
Qed.

Lemma validator_code_is_not code other :
  code ∈ validator_codes -> other ∉ validator_codes -> code <> other.
Proof. intros H Hn ->. by apply Hn. Qed.

Lemma not_validator_code code :
  bool_decide (code ∈ validator_codes) = false -> code ∉ validator_codes.
Proof. intros H. by apply bool_decide_eq_false in H. Qed.


Lemma rejected_code v dflt :
  rejected v ->
  code_or (vr_error v) dflt ∈ validator_codes.
Proof.
  intros (_ & _ & e & -> & Hcode & _). unfold code_or. cbn [from_option].
  by rewrite string_or_validator_code.
Qed.

Lemma outcome_audit_route env url includeScreenshot screenshotType screenshotQuality :
  outcome (audit_route env url includeScreenshot screenshotType screenshotQuality)
          audit_reply (fun _ => False).
Proof.
  unfold audit_route.
  eapply outcome_try_catch with (Q1 := fun _ => False); [|done].
  destruct (truthy url) as [u|].
  2: { apply outcome_ret. left. split; [reflexivity|]. unfold validator_codes.
       apply list_elem_of_here. }
  eapply outcome_bind;
    [eapply outcome_weaken; [apply outcome_validateUrl_total|intros a Ha; exact Ha|done]|].
  intros v [_ Hv]. destruct (vr_success v) eqn:Hs; cbn [negb].
  - eapply outcome_bind; [apply outcome_auditWebsite|].
    intros res [Hshape Hkind]. unfold audit_shape in Hshape.
    destruct (ar_success res) eqn:Hr; cbn [negb]; apply outcome_ret.
    + unfold audit_reply. cbn. by destruct Hshape.
    + unfold audit_reply. cbn. right. split; [reflexivity|].
      destruct (Hkind eq_refl) as [(_ & e & -> & Hcode & _)|(_ & e & cause & -> & ->)].
      * right. unfold code_or. cbn [from_option].
        by rewrite string_or_validator_code.
      * by left.
  - apply outcome_ret. unfold audit_reply. cbn. left. split; [reflexivity|].
    by apply rejected_code.
Qed.

Lemma outcome_quick_route env seo_title seo_description url :
  outcome (quick_route env seo_title seo_description url)
          quick_reply (fun _ => False).
Proof.
  unfold quick_route.
  eapply outcome_try_catch with (Q1 := fun _ => False); [|done].
  destruct (truthy url) as [u|].
  2: { apply outcome_ret. left. split; [reflexivity|]. unfold validator_codes.
       apply list_elem_of_here. }
  eapply outcome_bind; [apply outcome_validateUrl_total|].
  intros v [Hveq Hv]. destruct (vr_success v) eqn:Hs; cbn [negb].
  - eapply outcome_bind; [apply outcome_quickAudit|].
    intros res Hres. cbn beta in Hres.
    destruct (qr_success res) eqn:Hr; cbn [negb]; apply outcome_ret.
    + unfold quick_reply. cbn. by destruct Hres.
    + unfold quick_reply. cbn. right. split; [reflexivity|].
      destruct Hres as (_ & e & -> & [[Hrej _]|[[cause ->]|[cause ->]]]).
      * rewrite <- Hveq, Hs in Hrej. discriminate.
      * by left.
      * by right.
  - apply outcome_ret. unfold quick_reply. cbn. left. split; [reflexivity|].
    by apply rejected_code.
Qed.

Lemma outcome_check_route env url :
  outcome (check_route env url) (check_reply url) (fun _ => False).
Proof.
  unfold check_route, check_reply.
  eapply outcome_try_catch with (Q1 := fun _ => False); [|done].
  destruct (truthy url) as [u|]; [|by apply outcome_ret].
  eapply outcome_bind; [apply outcome_checkUrlAccessibility|].
  intros res Hres. cbn beta in Hres. apply outcome_ret.
  exists res. split; [reflexivity|]. intros Hacc. rewrite Hacc in Hres.
  by destruct Hres.
Qed.

(** X13.  [GET /audit] never throws and never answers
    [INTERNAL_ERROR]: its own catch block is not reached, because
    neither the validator nor [auditWebsite] throws.  It answers 400
    with the validator's code when the URL is missing or rejected
    (never with the fallback [INVALID_URL]), 500 when the audit
    failed, and 200 with the audit data otherwise. *)
Theorem audit_route_replies env url includeScreenshot screenshotType
    screenshotQuality w r w' :
  audit_route env url includeScreenshot screenshotType screenshotQuality w
  = (r, w') ->
  (forall e, r <> Throws e) /\
  (forall reply, r = Normal reply ->
     audit_reply reply /\
     (forall msg, reply_body reply <> JsonError "INTERNAL_ERROR" msg) /\
     (forall msg, reply_body reply <> JsonError "INVALID_URL" msg) /\
     (reply_status reply = 400 <->
      match truthy url with
      | None => True
      | Some u => vr_success (validation_of env u) = false
      end)).
Proof.
  intros H.
  pose proof (outcome_audit_route env url includeScreenshot screenshotType
                screenshotQuality w r w' H) as Hout.
  split; [intros e ->; exact Hout|]. intros reply ->. cbn in Hout.
  split; [exact Hout|]. split; [|split].
  - intros msg Hb. unfold audit_reply in Hout. rewrite Hb in Hout.
    destruct Hout as [[_ Hc]|[_ [Hc|Hc]]]; try discriminate;
      apply validator_codes_cases in Hc;
      destruct Hc as [Hc|[Hc|[Hc|[Hc|Hc]]]]; discriminate.
  - intros msg Hb. unfold audit_reply in Hout. rewrite Hb in Hout.
    destruct Hout as [[_ Hc]|[_ [Hc|Hc]]]; try discriminate;
      apply validator_codes_cases in Hc;
      destruct Hc as [Hc|[Hc|[Hc|[Hc|Hc]]]]; discriminate.
  - clear Hout. unfold audit_route, try_catch in H.
    destruct (truthy url) as [u|].
    2: { injection H as <- _. by cbn. }
    rewrite (bind_normal _ _ _ _ _ (validateUrl_eq env u w)) in H. cbn beta in H.
    destruct (vr_success (validation_of env u)) eqn:Hs; cbn [negb] in H.
    2: { injection H as <- _. by cbn. }
    unfold bindM in H.
    destruct (auditWebsite env _ _ w) as [[res|e|] w1] eqn:Ha.
    + destruct (ar_success res); cbn [negb] in H; injection H as <- _; by cbn.
    + cbn in H. injection H as <- _. by cbn.
    + discriminate.
Qed.

Lemma audit_route_replies_witness :
  let run := audit_route reachable_env (Some "ftp://example.com/"%string)
               false jpeg 80 (started reachable_env) in
  fst run
  = Normal (mkReply 400
              (JsonError "INVALID_URL_FORMAT"
                 "Invalid URL format. Please provide a valid HTTP or HTTPS URL.")) /\
  (forall e, fst run <> Throws e).
Proof.
  intros run.
  destruct (audit_route_replies reachable_env (Some "ftp://example.com/"%string)
              false jpeg 80 (started reachable_env) (fst run) (snd run))
    as [Hthrow _].
  - unfold run. by destruct (audit_route _ _ _ _ _ _).
  - split; [vm_compute; reflexivity | exact Hthrow].
Defined.

(** X14.  [GET /audit/quick] validates the URL and then hands the
    string as given to [quickAudit], which validates it again with the
    same outcome.  So a 500 from this route is never a validator
    error: it is [PAGE_LOAD_FAILED] or [QUICK_AUDIT_FAILED].  The route
    never throws and never answers [INTERNAL_ERROR]. *)
Theorem quick_route_replies env seo_title seo_description url w r w' :
  quick_route env seo_title seo_description url w = (r, w') ->
  (forall e, r <> Throws e) /\
  (forall reply, r = Normal reply ->
     quick_reply reply /\
     (forall msg, reply_body reply <> JsonError "INTERNAL_ERROR" msg) /\
     (reply_status reply = 500 ->
      forall code msg, reply_body reply = JsonError code msg ->
        code ∉ validator_codes)).
Proof.
  intros H.
  pose proof (outcome_quick_route env seo_title seo_description url w r w' H)
    as Hout.
  split; [intros e ->; exact Hout|]. intros reply ->. cbn in Hout.
  split; [exact Hout|]. unfold quick_reply in Hout. split.
  - intros msg Hb. rewrite Hb in Hout.
    destruct Hout as [[_ Hc]|[_ [Hc|Hc]]]; try discriminate.
    apply validator_codes_cases in Hc.
    destruct Hc as [Hc|[Hc|[Hc|[Hc|Hc]]]]; discriminate.
  - intros H500 code msg Hb Hin. rewrite Hb in Hout.
    destruct Hout as [[H400 _]|[_ Hc]]; [rewrite H500 in H400; discriminate|].
    apply validator_codes_cases in Hin.
    destruct Hc as [-> | ->];
      destruct Hin as [Hc|[Hc|[Hc|[Hc|Hc]]]]; discriminate.
Qed.

Lemma quick_route_replies_witness :
  let run := quick_route unreachable_env (fun seo => seo) (fun seo => seo)
               (Some "https://example.com/"%string) (started unreachable_env) in
  fst run
  = Normal (mkReply 500
              (JsonError "PAGE_LOAD_FAILED"
                 "Failed to load page: net::ERR_NAME_NOT_RESOLVED")) /\
  (forall e, fst run <> Throws e).
Proof.
  intros run.
  destruct (quick_route_replies unreachable_env (fun seo => seo) (fun seo => seo)
              (Some "https://example.com/"%string) (started unreachable_env)
              (fst run) (snd run))
    as [Hthrow _].
  - unfold run. by destruct (quick_route _ _ _ _ _).
  - split; [vm_compute; reflexivity | exact Hthrow].
Defined.



(** ** Browser information *)

Lemma getVersion_cases env version_r lost w r w' :
  getVersion env version_r lost w = (r, w') ->
  match r with
  | Normal v => version_r = Normal v /\ isReady w' = negb lost
  | _ => True
  end.
Proof.
  unfold getVersion. intros H.
  apply bind_inv in H as [(a & w1 & Hi & H)|[(e & _ & ->)|(_ & ->)]]; [|done|done].
  destruct a. apply initialize_returns_ready in Hi.
  destruct (isReady_browser _ Hi) as [b Hb].
  rewrite bind_get, Hb, bind_modify in H. unfold ext in H.
  injection H as <- <-. destruct version_r as [v|e|]; [|done|done].
  split; [reflexivity|]. destruct lost; cbn [negb id].
  - apply isReady_on_disconnected.
  - exact Hi.
Qed.

Lemma getBrowserInfo_cases env version_r lost w r w' :
  getBrowserInfo env version_r lost w = (r, w') ->
  match r with
  | Normal info =>
      (info = mkBrowserInfo "unknown" false "error" (bi_error info) /\
       is_Some (bi_error info)) \/
      (version_r = Normal (bi_version info) /\
       info = mkBrowserInfo (bi_version info) (negb lost)
                (if lost then "initializing" else "ready") None /\
       isReady w' = negb lost)
  | Throws e => False
  | Pending => True
  end.
Proof.
  unfold getBrowserInfo. intros H.
  apply try_catch_inv in H as [[H Hnt]|(e & w1 & _ & H)].
  - apply bind_inv in H as [(v & w1 & Hv & H)|[(e & _ & ->)|(_ & ->)]];
      [|by destruct (Hnt e)|done].
    apply getVersion_cases in Hv as [Hv Hready].
    rewrite bind_get in H. injection H as <- <-. right.
    rewrite Hready. split; [exact Hv|]. split; [|reflexivity].
    cbn. by destruct lost.
  - injection H as <- <-. left. cbn. by split; [|eexists].
Qed.

(** X16.  [getBrowserInfo] never throws, so the 500 branch of
    [GET /browser/info] is never taken.  It either reports the status
    ["error"] with a message, or the version the browser gave: with
    the status ["ready"], unless the browser was lost while the version
    was asked for, and then with ["initializing"].  The text
    ['Browser not initialized'] that [getVersion] can return is never
    reported, because a successful [initialize] leaves a browser. *)
Theorem getBrowserInfo_reports env version_r lost w :
  (forall r w',
     getBrowserInfo env version_r lost w = (r, w') ->
     (forall e, r <> Throws e) /\
     (forall info, r = Normal info ->
        (info = mkBrowserInfo "unknown" false "error" (bi_error info) /\
         is_Some (bi_error info)) \/
        (version_r = Normal (bi_version info) /\
         info = mkBrowserInfo (bi_version info) (negb lost)
                  (if lost then "initializing" else "ready") None /\
         isReady w' = negb lost))) /\
  (forall r w',
     browser_info_route env version_r lost w = (r, w') ->
     (forall e, r <> Throws e) /\
     (forall reply, r = Normal reply -> reply_status reply = 200)).
Proof.
  split; intros r w' H.
  - pose proof (getBrowserInfo_cases env version_r lost w r w' H) as Hc.
    split; [intros e ->; exact Hc|]. intros info ->. exact Hc.
  - unfold browser_info_route, try_catch, bindM in H.
    destruct (getBrowserInfo env version_r lost w) as [[info|e|] w1] eqn:Hinfo.
    + injection H as <- _. split; [done|]. by intros reply [= <-].
    + by destruct (getBrowserInfo_cases env version_r lost w _ _ Hinfo).
    + injection H as <- _. split; done.
Qed.

Lemma getBrowserInfo_reports_witness :
  let run := getBrowserInfo reachable_env (Normal "Chrome/120.0.0.0"%string) true
               (newBrowserService None None) in
  fst run
  = Normal (mkBrowserInfo "Chrome/120.0.0.0" false "initializing" None) /\
  isReady (snd run) = false.
Proof.
  intros run.
  destruct (getBrowserInfo_reports reachable_env
              (Normal "Chrome/120.0.0.0"%string) true (newBrowserService None None))
    as [Hinfo _].
  destruct (Hinfo (fst run) (snd run)) as [_ Hcases].
  - unfold run. by destruct (getBrowserInfo _ _ _ _).
  - split; [reflexivity|].
    destruct (Hcases _ eq_refl) as [[Herr _]|(_ & _ & Hready)];
      [discriminate | exact Hready].
Defined.

(** ** Screenshot files and how they are served *)

Lemma outcome_for_each_push {St A B} (l : list A) (body : A -> M St B)
    (P : B -> Prop) (Q : Thrown -> Prop) :
  (forall x, outcome (body x) P Q) ->
  outcome (for_each_push l body) (Forall P) Q.
Proof.
  intros Hbody. induction l as [|x l IH]; cbn [for_each_push].
  - apply outcome_ret. constructor.
  - eapply outcome_bind; [apply Hbody|]. intros y Hy.
    eapply outcome_bind; [apply IH|]. intros ys Hys.
    apply outcome_ret. by constructor.
Qed.

Lemma string_length_app (a b : string) :
  String.length (a ++ b) = (String.length a + String.length b)%nat.
Proof.
  induction a as [|c a IH]; [reflexivity|].
  change (String c a ++ b)%string with (String c (a ++ b)).
  cbn [String.length Nat.add]. by rewrite IH.
Qed.

Lemma substring_app_skip (a b : string) n :
  String.substring (String.length a) n (a ++ b) = String.substring 0 n b.
Proof.
  induction a as [|c a IH]; [reflexivity|].
  change (String c a ++ b)%string with (String c (a ++ b)).
  cbn [String.length String.substring]. exact IH.
Qed.

Lemma endsWith_app (a suffix suffix' : string) :
  String.length suffix = String.length suffix' ->
  endsWith (a ++ suffix) suffix'
  = String.eqb (String.substring 0 (String.length suffix') suffix) suffix'.
Proof.
  intros Hlen. unfold endsWith. rewrite string_length_app, <- Hlen.
  replace (String.length a + String.length suffix - String.length suffix)%nat
    with (String.length a) by lia.
  rewrite substring_app_skip.
  destruct (Nat.leb_spec (String.length suffix)
              (String.length a + String.length suffix)); [reflexivity|lia].
Qed.

Lemma contentType_of_ext (base : string) (type : ImageType) :
  contentType_of (base ++ "." ++ ext_of type) = served_type type.
Proof.
  unfold contentType_of.
  rewrite (endsWith_app base ("." ++ ext_of type) ".png") by by destruct type.
  by destruct type.
Qed.

Lemma string_app_assoc (a b c : string) : ((a ++ b) ++ c = a ++ (b ++ c))%string.
Proof.
  induction a as [|x a IH]; [reflexivity|].
  change (String x a ++ b)%string with (String x (a ++ b)).
  change (String x (a ++ b) ++ c)%string with (String x ((a ++ b) ++ c)).
  change (String x a ++ (b ++ c))%string with (String x (a ++ (b ++ c))).
  by rewrite IH.
Qed.

Lemma outcome_capture_to env sc k type quality region base response :
  outcome (capture_to env sc k (mkCapture type quality region)
             (base ++ "." ++ ext_of type) response)
          (shot_of_type type) (fun _ => True).
Proof.
  unfold capture_to.
  eapply outcome_try_catch with (Q1 := fun _ => True);
    [|by intros; apply outcome_throw].
  eapply outcome_bind; [apply outcome_emit|]. intros _ _.
  eapply outcome_bind; [apply outcome_any|]. intros buffer _.
  eapply outcome_bind; [apply outcome_any|]. intros _ _.
  eapply outcome_bind; [apply outcome_emit|]. intros _ _.
  apply outcome_ret. unfold shot_of_type. cbn.
  split; [reflexivity|]. split; [by exists base|]. split; [reflexivity|].
  by eexists.
Qed.

Lemma outcome_capture_to_named env sc k type quality region filename base response :
  filename = (base ++ "." ++ ext_of type)%string ->
  outcome (capture_to env sc k (mkCapture type quality region) filename response)
          (shot_of_type type) (fun _ => True).
Proof. intros ->. apply outcome_capture_to. Qed.

Lemma outcome_screenshotUrl env (url : string) (opts : ScreenshotOpts) :
  outcome (screenshotUrl env url opts)
          (Forall (shot_of_type (default jpeg (so_type opts))))
          (fun _ => True).
Proof.
  unfold screenshotUrl.
  eapply outcome_bind; [apply outcome_any|]. intros n _.
  eapply outcome_bind; [apply outcome_any|]. intros _ _.
  eapply outcome_bind; [apply outcome_any|]. intros _ _.
  eapply outcome_bind; [apply outcome_any|]. intros _ _.
  eapply outcome_bind; [apply outcome_any|]. intros b _.
  destruct b as [b|].
  2: { eapply outcome_bind; [apply outcome_any|]. intros _ _. by apply outcome_throw. }
  eapply outcome_bind; [apply outcome_any|]. intros _ _.
  eapply outcome_bind; [apply outcome_any|]. intros _ _.
  apply outcome_try_finally; [|apply outcome_any].
  cbn zeta.
  eapply outcome_bind; [apply outcome_any|]. intros _ _.
  eapply outcome_bind; [apply outcome_any|]. intros _ _.
  eapply outcome_bind; [apply outcome_any|]. intros response _.
  eapply outcome_bind; [apply outcome_any|]. intros dims _.
  eapply outcome_bind; [apply outcome_any|]. intros _ _.
  destruct (snd dims <=? default 15000 (so_maxHeight opts)).
  - eapply outcome_bind.
    + apply outcome_capture_to_named
        with (base := (safeName_of env url ++ "_" ++ s_timestamp (shot_script env n))%string).
      by rewrite !string_app_assoc.
    + intros shot Hshot. apply outcome_ret. by constructor.
  - apply outcome_for_each_push. intros [k part].
    apply outcome_capture_to_named
      with (base := (safeName_of env url ++ "_" ++ s_timestamp (shot_script env n)
                     ++ "_" ++ part_suffix part)%string).
    by rewrite !string_app_assoc.
Qed.

(** X17.  Every screenshot [screenshotUrl] returns is named with the
    extension chosen for the type asked for, [jpg] for ['jpeg'] and
    [png] for every other type, and [GET /screenshots/:name] serves
    the file by that extension: as [image/jpeg] or as [image/png].
    For the types ['jpeg'] and ['png'] this is the media type of the
    image.  For any other type, which the unchecked [screenshotType]
    of the query can ask for, the image is stored as [.png] and served
    as [image/png] all the same.  The data URL in the record names the
    extension: [data:image/jpg] for a JPEG. *)
Theorem screenshots_served_by_extension env readFileSync
    (url : string) (opts : ScreenshotOpts) w shots w' :
  screenshotUrl env url opts w = (Normal shots, w') ->
  let type := default jpeg (so_type opts) in
  Forall
    (fun shot =>
       shot_of_type type shot /\
       contentType_of (shot_filename shot) = served_type type /\
       forall data,
         readFileSync (shot_filename shot) = inr data ->
         screenshot_route readFileSync (shot_filename shot)
         = mkReply 200 (FileBody (served_type type) data))
    shots /\
  (type = jpeg \/ type = png -> served_type type = media_type type) /\
  (forall name, type = other_type name -> name <> "png"%string ->
     served_type type = "image/png"%string /\
     served_type type <> media_type type).
Proof.
  intros H type. split; [|split].
  - pose proof (outcome_screenshotUrl env url opts w _ w' H) as Hout.
    cbn in Hout. eapply Forall_impl; [exact Hout|].
    intros shot Hshot. split; [exact Hshot|].
    destruct Hshot as (_ & [base Hname] & _).
    assert (Htype : contentType_of (shot_filename shot) = served_type type).
    { rewrite Hname. apply contentType_of_ext. }
    split; [exact Htype|]. intros data Hdata.
    unfold screenshot_route. by rewrite Hdata, Htype.
  - by intros [-> | ->].
  - intros name -> Hname. split; [reflexivity|].
    unfold served_type, media_type. intros Heq. apply Hname.
    change "image/png"%string with ("image/" ++ "png")%string in Heq.
    symmetry. exact (String.app_inj "image/" _ _ Heq).
Qed.

Lemma screenshots_served_by_extension_witness :
  let opts := mkShotOpts (Some (other_type "webp")) None None in
  let name := "__example_com__1700000000000.png"%string in
  let run := screenshotUrl named_env "https://example.com/" opts
               (started named_env) in
  exists shot,
    fst run = Normal [shot] /\
    shot_filename shot = name /\
    cap_type (shot_capture shot) = other_type "webp" /\
    screenshot_route (one_file name "IMAGEBYTES") (shot_filename shot)
    = mkReply 200 (FileBody "image/png" "IMAGEBYTES") /\
    media_type (other_type "webp") = "image/webp"%string.
Proof.
  intros opts name run. eexists. split; [vm_compute; reflexivity|].
  split; [reflexivity|]. split; [reflexivity|]. split; [|reflexivity].
  destruct (screenshots_served_by_extension named_env (one_file name "IMAGEBYTES")
              "https://example.com/" opts (started named_env)
              _ (snd run) ltac:(vm_compute; reflexivity)) as [Hall _].
  apply Forall_cons in Hall as [(_ & _ & Hserved) _].
  apply Hserved. reflexivity.
Defined.

(** ** Pure helpers *)

(** X18.  [isSameDomain] is symmetric and transitive, and it holds of
    a URL and itself exactly when the URL parses and has a host name
    that is not empty; so it is false as soon as one of the two URLs
    does not parse.  [isValidUrl] and [getDomainFromUrl] agree with
    [extractDomain] on which strings parse. *)
Theorem isSameDomain_partial_equivalence env :
  (forall url1 url2, isSameDomain env url1 url2 = isSameDomain env url2 url1) /\
  (forall url1 url2 url3,
     isSameDomain env url1 url2 = true -> isSameDomain env url2 url3 = true ->
     isSameDomain env url1 url3 = true) /\
  (forall url,
     isSameDomain env url url = true <->
     exists domain, extractDomain env url = Some domain /\ domain <> ""%string) /\
  (forall url,
     getDomainFromUrl env url = extractDomain env url /\
     (isValidUrl env url = true <-> is_Some (extractDomain env url))).
Proof.
  split; [|split; [|split]].
  - intros url1 url2. unfold isSameDomain.
    destruct (truthy (extractDomain env url1)), (truthy (extractDomain env url2));
      try reflexivity.
    apply String.eqb_sym.
  - intros url1 url2 url3. unfold isSameDomain.
    destruct (truthy (extractDomain env url1)) as [d1|]; [|discriminate].
    destruct (truthy (extractDomain env url2)) as [d2|]; [|discriminate].
    destruct (truthy (extractDomain env url3)) as [d3|]; [|done].
    rewrite !String.eqb_eq. congruence.
  - intros url. unfold isSameDomain, truthy.
    destruct (extractDomain env url) as [d|].
    + destruct (String.eqb_spec d "") as [->|Hd].
      * split; [discriminate|]. by intros (d & [= <-] & Hd).
      * rewrite String.eqb_refl. split; [|done]. intros _. by exists d.
    + split; [discriminate|]. by intros (d & Hd & _).
  - intros url. unfold getDomainFromUrl, isValidUrl, extractDomain.
    destruct (new_URL env url) as [e|u].
    + split; [reflexivity|]. split; [discriminate|]. by intros [d Hd].
    + split; [reflexivity|]. split; [by eexists|done].
Qed.

Lemma substring_0_length n (s : string) :
  String.length (String.substring 0 n s) = Nat.min n (String.length s).
Proof.
  revert n. induction s as [|c s IH]; intros [|n]; cbn; try reflexivity.
  by rewrite IH.
Qed.

Lemma slice_to_length (text : string) (end_ : Z) :
  Z.of_nat (String.length (slice_to text end_))
  = if end_ <? 0 then Z.max (Z.of_nat (String.length text) + end_) 0
    else Z.min end_ (Z.of_nat (String.length text)).
Proof.
  unfold slice_to. rewrite substring_0_length.
  destruct (Z.ltb_spec end_ 0); lia.
Qed.

(** X19.  [truncateText] returns a text that fits unchanged.  A longer
    text is cut so that the result, suffix included, has exactly
    [maxLength] characters, provided the suffix itself fits.  When the
    suffix is longer than [maxLength], the negative end given to
    [slice] counts from the end of the text, and the result is longer
    than [maxLength]. *)
Theorem truncateText_length (text : string) (maxLength : Z) (suffix : string) :
  let len := fun s => Z.of_nat (String.length s) in
  (len text <= maxLength -> truncateText text maxLength suffix = text) /\
  (maxLength < len text -> len suffix <= maxLength ->
   len (truncateText text maxLength suffix) = maxLength) /\
  (maxLength < len text -> maxLength < len suffix ->
   len (truncateText text maxLength suffix)
   = Z.max (len text + maxLength - len suffix) 0 + len suffix /\
   maxLength < len (truncateText text maxLength suffix)).
Proof.
  intros len. unfold truncateText, len.
  split; [|split].
  - intros H. by destruct (Z.leb_spec (Z.of_nat (String.length text)) maxLength);
      [|lia].
  - intros H Hs.
    destruct (Z.leb_spec (Z.of_nat (String.length text)) maxLength); [lia|].
    rewrite string_length_app, Nat2Z.inj_add, slice_to_length.
    destruct (Z.ltb_spec (maxLength - Z.of_nat (String.length suffix)) 0); lia.
  - intros H Hs.
    destruct (Z.leb_spec (Z.of_nat (String.length text)) maxLength); [lia|].
    rewrite string_length_app, Nat2Z.inj_add, slice_to_length.
    destruct (Z.ltb_spec (maxLength - Z.of_nat (String.length suffix)) 0); lia.
Qed.

Lemma truncateText_length_witness :
  truncateText "abcdefghij" 2 "..." = "abcdefghi..."%string /\
  2 < Z.of_nat (String.length (truncateText "abcdefghij" 2 "...")).
Proof.
  split; [reflexivity|].
  apply (truncateText_length "abcdefghij" 2 "..."); cbn; lia.
Defined.

Lemma all_chars_substring p n (s : string) :
  all_chars p s = true -> all_chars p (String.substring 0 n s) = true.
Proof.
  revert n. induction s as [|c s IH]; intros [|n]; cbn; try done.
  intros H. apply andb_true_iff in H as [Hc Hs]. by rewrite Hc, IH.
Qed.

Lemma is_alnum_word c : is_alnum c = true -> is_word c = true.
Proof. unfold is_word. by intros ->. Qed.

Lemma replace_unsafe_bounded n (s : string) :
  (String.length s <= n)%nat ->
  all_chars is_word (replace_unsafe s) = true /\
  (String.length (replace_unsafe s) <= String.length s)%nat.
Proof.
  revert s. induction n as [|n IH]; intros s Hlen.
  - destruct s; [done|cbn in Hlen; lia].
  - destruct s as [|c rest]; [done|]. cbn [String.length] in Hlen.
    cbn [replace_unsafe]. destruct (Ascii.eqb c slash).
    + destruct rest as [|c' rest']; [done|].
      cbn [String.length] in Hlen.
      destruct (Ascii.eqb c' slash); cbn [all_chars String.length].
      * destruct (IH rest') as [Ha Hl]; [lia|]. rewrite Ha. split; [done|lia].
      * destruct (IH (String c' rest')) as [Ha Hl]; [cbn; lia|].
        rewrite Ha. cbn [String.length] in Hl. split; [done|lia].
    + destruct (IH rest) as [Ha Hl]; [lia|].
      cbn [all_chars String.length]. rewrite Ha. split; [|lia].
      destruct (is_alnum c) eqn:Hc; [by rewrite is_alnum_word|done].
Qed.

Lemma skip_word_length (s : string) :
  (String.length (skip_word s) <= String.length s)%nat.
Proof.
  induction s as [|c s IH]; cbn; [lia|]. destruct (is_word c); cbn; lia.
Qed.

(** X20.  The stem [screenshotUrl] derives from the URL for its file
    names consists of letters, digits and underscores only, so it
    contains no slash and no dot; it has at most 120 characters and
    never more than the URL. *)
Theorem safeName_is_safe (url : string) :
  all_chars is_word (safeName url) = true /\
  (String.length (safeName url) <= 120)%nat /\
  (String.length (safeName url) <= String.length url)%nat.
Proof.
  unfold safeName. rewrite substring_0_length.
  split; [|split; [lia|]].
  - apply all_chars_substring. destruct (after_scheme url) as [rest|].
    + cbn [all_chars]. by destruct (replace_unsafe_bounded _ rest (le_n _)) as [-> _].
    + by destruct (replace_unsafe_bounded _ url (le_n _)).
  - destruct (after_scheme url) as [rest|] eqn:Hs.
    + cbn [String.length].
      destruct (replace_unsafe_bounded _ rest (le_n _)) as [_ Hl].
      unfold after_scheme in Hs. destruct url as [|c url']; [discriminate|].
      destruct (is_word c); [|discriminate].
      pose proof (skip_word_length (String c url')) as Hskip.
      destruct (skip_word (String c url')) as [|c' rest'] eqn:Hw; [discriminate|].
      destruct (Ascii.eqb c' colon); [|discriminate]. injection Hs as ->.
      cbn [String.length] in Hskip |- *. lia.
    + destruct (replace_unsafe_bounded _ url (le_n _)) as [_ Hl]. lia.
Qed.

(** ** Scripts and styles *)

Lemma truthy_Some o (s : string) : truthy o = Some s -> o = Some s /\ s <> ""%string.
Proof.
  unfold truthy. destruct o as [s'|]; [|discriminate].
  destruct (String.eqb_spec s' ""); [discriminate|]. by intros [= <-].
Qed.

Lemma truncated_length (limit : nat) (content : string) :
  content <> ""%string ->
  let truncated :=
    if (Z.of_nat limit <? Z.of_nat (String.length content))
    then (String.substring 0 limit content ++ "...")%string
    else content in
  truncated <> ""%string /\ (String.length truncated <= limit + 3)%nat.
Proof.
  intros Hne. cbn zeta.
  destruct (Z.ltb_spec (Z.of_nat limit) (Z.of_nat (String.length content))).
  - split.
    + intros Heq. apply (f_equal String.length) in Heq.
      rewrite string_length_app in Heq. cbn in Heq. lia.
    + rewrite string_length_app, substring_0_length. cbn. lia.
  - split; [exact Hne|lia].
Qed.

Lemma flat_map_length_le {A B} (f : A -> list B) (l : list A) :
  (forall x, length (f x) <= 1)%nat -> (length (flat_map f l) <= length l)%nat.
Proof.
  intros Hf. induction l as [|x l IH]; [done|].
  cbn [flat_map]. rewrite length_app. specialize (Hf x). cbn [length]. lia.
Qed.

(** X21.  Every entry [extractScripts] returns has exactly one of its
    two fields: the resolved address of an external script, or the
    text of an inline script, which is not empty and has at most 1003
    characters.  There is at most one entry per [script] element. *)
Theorem extractScripts_entries env (html baseUrl : string) :
  Forall (fun s => external_or_inline 1000 (script_src s) (script_inlineContent s))
         (extractScripts env html baseUrl) /\
  (length (extractScripts env html baseUrl) <= length (script_elements env html))%nat.
Proof.
  unfold extractScripts. split.
  - apply Forall_flat_map, Forall_forall. intros element _.
    destruct (truthy (el_src element)) as [src|].
    { apply Forall_singleton. left. by split; [eexists|]. }
    destruct (truthy (el_html element)) as [content|] eqn:Hc; [|constructor].
    destruct (String.eqb (trim env content) ""); cbn [negb]; [constructor|].
    apply truthy_Some in Hc as [_ Hne].
    destruct (truncated_length 1000 content Hne) as [Hne' Hlen].
    apply Forall_singleton. right. split; [reflexivity|].
    eexists. split; [reflexivity|]. by split.
  - apply flat_map_length_le. intros element.
    destruct (truthy (el_src element)); [done|].
    destruct (truthy (el_html element)); [|cbn; lia].
    destruct (negb _); cbn; lia.
Qed.

(** X22.  [extractStyles] lists the external style sheets first and
    the inline styles after them, whatever their order in the
    document.  Every entry has exactly one of its two fields, and an
    inline text is not empty and has at most 2003 characters. *)
Theorem extractStyles_entries env stylesheet_hrefs style_contents
    (html baseUrl : string) :
  let styles := extractStyles env stylesheet_hrefs style_contents html baseUrl in
  Forall (fun s => external_or_inline 2000 (style_href s) (style_inlineContent s))
         styles /\
  (exists externals inlines,
     styles = externals ++ inlines /\
     Forall (fun s => is_external s = true) externals /\
     Forall (fun s => is_external s = false) inlines) /\
  (length styles
   <= length (stylesheet_hrefs html) + length (style_contents html))%nat.
Proof.
  cbn zeta. unfold extractStyles.
  set (ext := flat_map _ (stylesheet_hrefs html)).
  set (inl_ := flat_map _ (style_contents html)).
  assert (Hext : Forall (fun s => external_or_inline 2000 (style_href s)
                                    (style_inlineContent s)
                                  /\ is_external s = true) ext).
  { apply Forall_flat_map, Forall_forall. intros href _.
    destruct (truthy href); [|constructor].
    apply Forall_singleton. split; [|reflexivity]. left. by split; [eexists|]. }
  assert (Hinl : Forall (fun s => external_or_inline 2000 (style_href s)
                                    (style_inlineContent s)
                                  /\ is_external s = false) inl_).
  { apply Forall_flat_map, Forall_forall. intros content _.
    destruct (truthy content) as [c|] eqn:Hc; [|constructor].
    destruct (String.eqb (trim env c) ""); cbn [negb]; [constructor|].
    apply truthy_Some in Hc as [_ Hne].
    destruct (truncated_length 2000 c Hne) as [Hne' Hlen].
    apply Forall_singleton. split; [|reflexivity]. right. split; [reflexivity|].
    eexists. split; [reflexivity|]. by split. }
  split; [|split].
  - apply Forall_app. split; eapply Forall_impl; eauto; by intros s [? _].
  - exists ext, inl_. split; [reflexivity|].
    split; eapply Forall_impl; eauto; by intros s [_ ?].
  - rewrite length_app.
    assert (length ext <= length (stylesheet_hrefs html))%nat.
    { apply flat_map_length_le. intros href. destruct (truthy href); cbn; lia. }
    assert (length inl_ <= length (style_contents html))%nat.
    { apply flat_map_length_le. intros content. destruct (truthy content); [|cbn; lia].
      destruct (negb _); cbn; lia. }
    lia.
Qed.

(** ** How long a retried audit waits *)

Lemma rounding_exactly : rounding exactly.
Proof. split; [by intros x y H | by intros n _]. Qed.

Lemma waits_exactly baseDelay attempt r rs :
  waits exactly baseDelay attempt (r :: rs)
  = backoff_delay baseDelay attempt r :: waits exactly baseDelay (attempt + 1) rs.
Proof. reflexivity. Qed.

Lemma effect_retry_waits env {T} (fn : M World T) maxRetries baseDelay :
  random_in_range env ->
  effect fn (fun w w' => slept w' = slept w) ->
  forall remaining attempt lastError,
    Z.of_nat remaining = maxRetries + 1 - attempt ->
    effect (retry_from (H := world_runtime env) fn maxRetries baseDelay
              remaining attempt lastError)
           (fun w w' =>
              exists rs, (length rs <= pred remaining)%nat /\
                         Forall in_range rs /\
                         slept w' = slept w ++ waits exactly baseDelay attempt rs).
Proof.
  intros Hrandom Hfn.
  induction remaining as [|remaining IH]; intros attempt lastError Hrem.
  - apply effect_throw. intros st. exists [].
    split; [cbn; lia|]. split; [constructor|]. by rewrite app_nil_r.
  - cbn [retry_from pred].
    eapply effect_try_catch_seq
      with (R1 := fun w w' => slept w' = slept w)
           (R2 := fun w w' =>
                    exists rs, (length rs <= remaining)%nat /\
                               Forall in_range rs /\
                               slept w' = slept w ++ waits exactly baseDelay attempt rs);
      [exact Hfn| | |].
    + intros error. destruct (Z.eqb_spec attempt maxRetries) as [Heq|Hne].
      * apply effect_throw. intros st. exists [].
        split; [cbn; lia|]. split; [constructor|]. by rewrite app_nil_r.
      * intros st r st' H. unfold bindM in H.
        cbn [Math_random world_runtime] in H. unfold modify in H.
        cbn [setTimeout_wait world_runtime] in H.
        apply IH in H; [|lia]. destruct H as (rs & Hlen & Hrange & Hrs).
        exists (random env (draws st) :: rs).
        split; [cbn [length]; destruct remaining; [lia|cbn [pred] in Hlen; lia]|].
        split; [constructor; [apply Hrandom|exact Hrange]|].
        cbn [slept add_slept count_draw] in Hrs.
        rewrite Hrs, <- app_assoc, waits_exactly. reflexivity.
    + intros s s' Hs. exists [].
      split; [cbn; lia|]. split; [constructor|]. by rewrite app_nil_r.
    + intros s s' s'' Hs (rs & Hlen & Hrange & Hrs). exists rs.
      rewrite Hrs, Hs. by repeat split.
Qed.

Lemma audit_waits_refl w : audit_waits w w.
Proof.
  exists []. split; [cbn; lia|]. split; [constructor|]. by rewrite app_nil_r.
Qed.

Lemma audit_waits_same w w' : slept w' = slept w -> audit_waits w w'.
Proof.
  intros Hs. exists []. split; [cbn; lia|]. split; [constructor|].
  by rewrite app_nil_r.
Qed.

Lemma audit_waits_before w w1 w' :
  slept w1 = slept w -> audit_waits w1 w' -> audit_waits w w'.
Proof. intros Hs (rs & Hlen & Hrange & Hrs). exists rs. by rewrite Hrs, Hs. Qed.

Lemma audit_waits_after w w1 w' :
  audit_waits w w1 -> slept w' = slept w1 -> audit_waits w w'.
Proof. intros (rs & Hlen & Hrange & Hrs) Hs. exists rs. by rewrite Hs, Hrs. Qed.

Lemma effect_same_slept {A} (m : M World A) :
  effect m same_load -> effect m (fun w w' => slept w' = slept w).
Proof. intros Hm. eapply effect_weaken; [exact Hm|]. by intros s s' [_ Hs]. Qed.

Lemma effect_loadPageWithRetry_waits env (url : string) (options : AuditOptions) :
  random_in_range env ->
  effect (loadPageWithRetry env url options) audit_waits.
Proof.
  intros Hrandom. unfold loadPageWithRetry, retryWithBackoff.
  eapply effect_weaken.
  - apply (effect_retry_waits env _ 2 1000%Q Hrandom) with (remaining := 3%nat);
      [|reflexivity].
    intros w r w' H. apply bind_inv in H as [(res & w1 & Hload & H)|[(e & Hload & _)|[Hload _]]].
    + apply loadPage_counts in Hload as [_ Hs].
      destruct (negb (plr_success res)); by injection H as _ <-.
    + by apply loadPage_counts in Hload as [_ Hs].
    + by apply loadPage_counts in Hload as [_ Hs].
  - intros s s' (rs & Hlen & Hrange & Hrs). exists rs. by repeat split.
Qed.

Lemma effect_auditWebsite_waits env (url : string) (options : AuditOptions) :
  random_in_range env ->
  effect (auditWebsite env url options) audit_waits.
Proof.
  intros Hrandom. unfold auditWebsite, measureExecutionTime.
  eapply effect_try_catch_seq
    with (R1 := audit_waits) (R2 := fun w w' => slept w' = slept w).
  2: { intros error. by apply effect_ret. }
  2: { by intros s s' H. }
  2: { intros s s' s'' H Hs. by eapply audit_waits_after. }
  eapply effect_bind_seq
    with (R1 := fun w w' => slept w' = slept w) (R2 := audit_waits).
  { apply effect_same_slept, same_load_validateUrl. }
  2: { intros s s'. apply audit_waits_same. }
  2: { intros s s' s'' Hs H. by eapply audit_waits_before. }
  intros v. destruct (negb (vr_success v)).
  { apply effect_ret. apply audit_waits_refl. }
  eapply effect_bind_seq
    with (R1 := audit_waits) (R2 := fun w w' => slept w' = slept w).
  { by apply effect_loadPageWithRetry_waits. }
  2: { by intros s s' H. }
  2: { intros s s' s'' H Hs. by eapply audit_waits_after. }
  intros page. apply effect_same_slept.
  destruct (negb (plr_success page)); [same_load_steps|].
  unfold parseHtmlContent.
  repeat first
    [ apply same_load_extractAuditData | apply same_load_screenshotUrl
    | same_load_step ].
Qed.

(** A rounding keeps a number on the side of a whole number it is on. *)
Lemma rounding_below fl (q : Q) (n : Z) :
  rounding fl -> Z.abs n <= 2 ^ 53 -> (q <= inject_Z n)%Q -> (fl q <= inject_Z n)%Q.
Proof.
  intros [Hmono Hint] Hn Hq. rewrite <- (Hint n Hn). by apply Hmono.
Qed.

Lemma rounding_above fl (q : Q) (n : Z) :
  rounding fl -> Z.abs n <= 2 ^ 53 -> (inject_Z n <= q)%Q -> (inject_Z n <= fl q)%Q.
Proof.
  intros [Hmono Hint] Hn Hq. rewrite <- (Hint n Hn). by apply Hmono.
Qed.

Lemma rounded_delay_bounds fl (attempt : Z) (r : Q) :
  rounding fl -> 0 <= attempt <= 40 -> in_range r ->
  (1000 * inject_Z (2 ^ attempt) <= rounded_delay fl 1000 attempt r /\
   rounded_delay fl 1000 attempt r <= 1000 * inject_Z (2 ^ attempt) + 1000)%Q.
Proof.
  intros Hfl Hattempt [Hr0 Hr1]. unfold rounded_delay.
  set (k := 2 ^ attempt).
  assert (Hk : 1 <= k <= 2 ^ 40).
  { unfold k. split.
    - apply (Z.pow_le_mono_r 2 0 attempt); lia.
    - apply Z.pow_le_mono_r; lia. }
  assert (Hbig : 2 ^ 40 * 1000 + 1000 <= 2 ^ 53) by (vm_compute; discriminate).
  assert (Hprod : (1000 * inject_Z k == inject_Z (1000 * k))%Q).
  { rewrite inject_Z_mult. reflexivity. }
  assert (Hsum : (1000 * inject_Z k + 1000 == inject_Z (1000 * k + 1000))%Q).
  { rewrite inject_Z_plus, inject_Z_mult. reflexivity. }
  set (a := fl (1000 * inject_Z k)%Q).
  set (b := fl (r * 1000)%Q).
  assert (Ha : (inject_Z (1000 * k) <= a /\ a <= inject_Z (1000 * k))%Q).
  { split.
    - apply rounding_above; [exact Hfl|lia|]. rewrite Hprod. apply Qle_refl.
    - apply rounding_below; [exact Hfl|lia|]. rewrite Hprod. apply Qle_refl. }
  assert (Hb : (inject_Z 0 <= b /\ b <= inject_Z 1000)%Q).
  { split.
    - apply rounding_above; [exact Hfl|vm_compute; discriminate|].
      change (inject_Z 0) with 0%Q. lra.
    - apply rounding_below; [exact Hfl|vm_compute; discriminate|].
      change (inject_Z 1000) with 1000%Q. lra. }
  change (inject_Z 0) with 0%Q in Hb. change (inject_Z 1000) with 1000%Q in Hb.
  rewrite Hprod, Hsum. split.
  - apply rounding_above; [exact Hfl|lia|]. lra.
  - apply rounding_below; [exact Hfl|lia|].
    rewrite inject_Z_plus. change (inject_Z 1000) with 1000%Q. lra.
Qed.

Lemma waits_bounds fl (rs : list Q) :
  rounding fl -> Forall in_range rs ->
  forall attempt, 0 <= attempt -> attempt + Z.of_nat (length rs) <= 41 ->
  delays_from 1000 attempt (waits fl 1000 attempt rs).
Proof.
  intros Hfl Hrange. induction Hrange as [|r rs Hr _ IH]; intros attempt H0 Hlen.
  - exact I.
  - cbn [length] in Hlen. cbn [waits delays_from]. split.
    + apply rounded_delay_bounds; [exact Hfl|lia|exact Hr].
    + apply IH; lia.
Qed.

Lemma delays_total (ds : list Q) :
  (length ds <= 2)%nat -> delays_from 1000 0 ds -> (total ds <= 5000)%Q.
Proof.
  intros Hlen Hd. unfold total.
  destruct ds as [|d0 [|d1 [|d2 ds]]]; cbn [length] in Hlen; [| | |lia];
    cbn [delays_from fold_right] in *.
  - lra.
  - destruct Hd as [[_ H0] _].
    change (inject_Z (2 ^ 0)) with 1%Q in H0. lra.
  - destruct Hd as [[_ H0] [[_ H1] _]].
    change (inject_Z (2 ^ 0)) with 1%Q in H0.
    change (inject_Z (2 ^ (0 + 1))) with 2%Q in H1. lra.
Qed.

Lemma waits_length fl baseDelay rs :
  forall attempt, length (waits fl baseDelay attempt rs) = length rs.
Proof. induction rs as [|r rs IH]; intros attempt; cbn; [done|by rewrite IH]. Qed.



(** ** Cleaned texts and sanitized names *)

Lemma no_double_app_r c (a b : Text) :
  no_double c (a ++ b) = true -> no_double c b = true.
Proof.
  induction a as [|x a IH]; [done|].
  cbn [app no_double]. intros H. apply andb_true_iff in H as [_ H]. by apply IH.
Qed.

Lemma no_double_app_l c (a b : Text) :
  no_double c (a ++ b) = true -> no_double c a = true.
Proof.
  induction a as [|x a IH]; [done|].
  cbn [app no_double]. intros H. apply andb_true_iff in H as [Hx H].
  rewrite (IH H), andb_true_r. destruct a as [|y a]; [done|]. exact Hx.
Qed.

Lemma no_double_infix c (pre s post : Text) :
  no_double c (pre ++ s ++ post) = true -> no_double c s = true.
Proof. intros H. by apply no_double_app_r, no_double_app_l in H. Qed.

Lemma Forall_infix {A} (P : A -> Prop) (pre s post : list A) :
  Forall P (pre ++ s ++ post) -> Forall P s.
Proof. intros H. by apply Forall_app in H as [_ [H _]%Forall_app]. Qed.

Lemma drop_spaces_suffix (s : Text) : exists pre, s = pre ++ drop_spaces s.
Proof.
  induction s as [|c s [pre IH]]; [by exists []|].
  cbn [drop_spaces]. destruct (is_space c).
  - exists (c :: pre). cbn. by rewrite <- IH.
  - by exists [].
Qed.

Lemma drop_spaces_head (s : Text) c :
  head (drop_spaces s) = Some c -> is_space c = false.
Proof.
  induction s as [|x s IH]; [done|]. cbn [drop_spaces].
  destruct (is_space x) eqn:Hx; [exact IH|]. by intros [= <-].
Qed.

Lemma trim_text_infix (s : Text) : exists pre post, s = pre ++ trim_text s ++ post.
Proof.
  unfold trim_text.
  destruct (drop_spaces_suffix s) as [pre Hpre].
  destruct (drop_spaces_suffix (reverse (drop_spaces s))) as [post Hpost].
  exists pre, (reverse post).
  rewrite <- reverse_app, <- Hpost, reverse_involutive. exact Hpre.
Qed.

Lemma trim_text_head (s : Text) c :
  head (trim_text s) = Some c -> is_space c = false.
Proof.
  unfold trim_text. rewrite head_reverse. intros Hlast.
  destruct (drop_spaces_suffix (reverse (drop_spaces s))) as [post Hpost].
  assert (Hl : last (reverse (drop_spaces s)) = Some c).
  { rewrite Hpost, last_app, Hlast. reflexivity. }
  rewrite last_reverse in Hl. by apply drop_spaces_head in Hl.
Qed.

Lemma trim_text_last (s : Text) c :
  last (trim_text s) = Some c -> is_space c = false.
Proof. unfold trim_text. rewrite last_reverse. apply drop_spaces_head. Qed.

Lemma collapse_spaces_only_space (s : Text) :
  Forall (fun c => is_space c = true -> c = SPACE) (collapse_spaces s).
Proof.
  induction s as [|c s IH]; [constructor|]. cbn [collapse_spaces].
  destruct (is_space c) eqn:Hc.
  - destruct s as [|c' s]; [by repeat constructor|].
    destruct (is_space c'); [exact IH|]. by constructor.
  - constructor; [|exact IH]. congruence.
Qed.

Lemma collapse_spaces_no_double (s : Text) :
  no_double SPACE (collapse_spaces s) = true.
Proof.
  induction s as [|c s IH]; [done|]. cbn [collapse_spaces].
  destruct (is_space c) eqn:Hc.
  - destruct s as [|c' s]; [done|].
    destruct (is_space c') eqn:Hc'; [exact IH|].
    cbn [collapse_spaces] in IH |- *. rewrite Hc' in IH |- *.
    cbn [no_double] in IH |- *. rewrite IH, andb_true_r.
    destruct (N.eqb_spec c' SPACE) as [->|]; [discriminate|].
    by rewrite andb_false_r.
  - cbn [no_double]. rewrite IH, andb_true_r.
    destruct (collapse_spaces s); [done|].
    destruct (N.eqb_spec c SPACE) as [->|]; [discriminate|done].
Qed.

Lemma squeeze_newlines_without_newline (s : Text) :
  Forall (fun c => c <> NEWLINE) s -> squeeze_newlines false s = s.
Proof.
  induction 1 as [|c s Hc _ IH]; [done|]. cbn [squeeze_newlines].
  destruct (N.eqb_spec c NEWLINE); [done|]. cbn [andb]. by rewrite IH.
Qed.

(** X24.  [cleanText] leaves single spaces as the only white space: no
    tab, newline or other white space, no two spaces in a row, no
    space at either end.  Its second replacement, of newlines
    separated by white space, never changes anything, because the
    first has already turned every newline into a space. *)
Theorem cleanText_normal_form (text : Text) :
  squeeze_newlines false (collapse_spaces text) = collapse_spaces text /\
  Forall (fun c => is_space c = true -> c = SPACE) (cleanText text) /\
  no_double SPACE (cleanText text) = true /\
  (forall c, head (cleanText text) = Some c -> is_space c = false) /\
  (forall c, last (cleanText text) = Some c -> is_space c = false).
Proof.
  assert (Hsq : squeeze_newlines false (collapse_spaces text) = collapse_spaces text).
  { apply squeeze_newlines_without_newline.
    eapply Forall_impl; [apply collapse_spaces_only_space|].
    intros c Hc ->. by specialize (Hc eq_refl). }
  split; [exact Hsq|]. unfold cleanText. rewrite Hsq.
  destruct (trim_text_infix (collapse_spaces text)) as (pre & post & Hinfix).
  split; [|split; [|split]].
  - eapply Forall_infix. rewrite <- Hinfix. apply collapse_spaces_only_space.
  - eapply no_double_infix. rewrite <- Hinfix. apply collapse_spaces_no_double.
  - apply trim_text_head.
  - apply trim_text_last.
Qed.

Lemma collapse_underscores_Forall (P : N -> Prop) (s : Text) :
  P UNDERSCORE -> Forall P s -> Forall P (collapse_underscores s).
Proof.
  intros HP. induction 1 as [|c s Hc Hs IH]; [constructor|].
  cbn [collapse_underscores]. destruct (c =? UNDERSCORE)%N.
  - destruct s as [|c' s]; [by repeat constructor|].
    destruct (c' =? UNDERSCORE)%N; [exact IH|]. by constructor.
  - by constructor.
Qed.

Lemma collapse_underscores_no_double (s : Text) :
  no_double UNDERSCORE (collapse_underscores s) = true.
Proof.
  induction s as [|c s IH]; [done|]. cbn [collapse_underscores].
  destruct (N.eqb_spec c UNDERSCORE) as [->|Hc].
  - destruct s as [|c' s]; [done|].
    destruct (N.eqb_spec c' UNDERSCORE) as [->|Hc']; [exact IH|].
    cbn [collapse_underscores] in IH |- *.
    destruct (N.eqb_spec c' UNDERSCORE) as [|_]; [done|].
    cbn [no_double] in IH |- *. rewrite IH, andb_true_r.
    destruct (N.eqb_spec c' UNDERSCORE); [done|]. by rewrite andb_false_r.
  - cbn [no_double]. rewrite IH, andb_true_r.
    destruct (collapse_underscores s); [done|].
    by destruct (N.eqb_spec c UNDERSCORE).
Qed.

Lemma strip_last_prefix (s : Text) : exists post, s = strip_last s ++ post.
Proof.
  unfold strip_last. destruct (reverse s) as [|c before] eqn:Hr.
  - exists []. by rewrite app_nil_r.
  - destruct (c =? UNDERSCORE)%N.
    + exists [c]. rewrite <- reverse_cons, <- Hr. by rewrite reverse_involutive.
    + exists []. by rewrite app_nil_r.
Qed.

Lemma strip_ends_infix (s : Text) : exists pre post, s = pre ++ strip_ends s ++ post.
Proof.
  unfold strip_ends. destruct s as [|c rest]; [by exists [], []|].
  destruct (c =? UNDERSCORE)%N.
  - destruct (strip_last_prefix rest) as [post Hpost].
    exists [c], post. cbn. by rewrite <- Hpost.
  - destruct (strip_last_prefix (c :: rest)) as [post Hpost]. by exists [], post.
Qed.

Lemma no_double_last c (s : Text) x :
  no_double c (s ++ [x; c]) = true -> x <> c.
Proof.
  intros H. apply no_double_app_r in H. cbn in H. intros ->.
  by rewrite N.eqb_refl in H.
Qed.

Lemma strip_last_last (s : Text) :
  no_double UNDERSCORE s = true -> last (strip_last s) <> Some UNDERSCORE.
Proof.
  intros Hnd. unfold strip_last. destruct (reverse s) as [|c before] eqn:Hr.
  - apply (f_equal reverse) in Hr. rewrite reverse_involutive in Hr. by subst.
  - apply (f_equal reverse) in Hr. rewrite reverse_involutive, reverse_cons in Hr.
    destruct (N.eqb_spec c UNDERSCORE) as [->|Hc].
    + rewrite last_reverse. destruct before as [|x before]; [done|].
      cbn [head]. rewrite reverse_cons, <- app_assoc in Hr. cbn [app] in Hr.
      subst s. apply no_double_last in Hnd. congruence.
    + subst s. rewrite last_snoc. congruence.
Qed.

Lemma strip_last_head (s : Text) :
  head s <> Some UNDERSCORE -> head (strip_last s) <> Some UNDERSCORE.
Proof.
  intros Hh. destruct (strip_last_prefix s) as [post Hpost].
  destruct (strip_last s) as [|x l]; [done|].
  rewrite Hpost in Hh. exact Hh.
Qed.

Lemma strip_ends_ends (s : Text) :
  no_double UNDERSCORE s = true ->
  head (strip_ends s) <> Some UNDERSCORE /\ last (strip_ends s) <> Some UNDERSCORE.
Proof.
  intros Hnd. unfold strip_ends. destruct s as [|c rest]; [done|].
  destruct (N.eqb_spec c UNDERSCORE) as [->|Hc].
  - assert (Hrest : no_double UNDERSCORE rest = true).
    { by apply (no_double_app_r _ [UNDERSCORE]). }
    split; [|by apply strip_last_last].
    apply strip_last_head. destruct rest as [|x rest]; [done|].
    cbn in Hnd. apply andb_true_iff in Hnd as [Hx _].
    cbn [head]. intros [= ->]. by rewrite N.eqb_refl in Hx.
  - split; [|by apply strip_last_last].
    apply strip_last_head. cbn [head]. congruence.
Qed.

Lemma lower_underscore c : lower c = UNDERSCORE <-> c = UNDERSCORE.
Proof.
  unfold lower, UNDERSCORE.
  destruct (N.leb_spec 65 c), (N.leb_spec c 90); cbn [andb]; lia.
Qed.

Lemma no_double_lower (s : Text) :
  no_double UNDERSCORE s = true -> no_double UNDERSCORE (map lower s) = true.
Proof.
  induction s as [|a s IH]; [done|]. cbn [map no_double].
  intros H. apply andb_true_iff in H as [Ha Hs]. rewrite (IH Hs), andb_true_r.
  destruct s as [|b s]; [done|]. cbn [map].
  destruct (N.eqb_spec (lower a) UNDERSCORE) as [Hla|]; [|done].
  destruct (N.eqb_spec (lower b) UNDERSCORE) as [Hlb|]; [|done].
  apply (proj1 (lower_underscore a)) in Hla.
  apply (proj1 (lower_underscore b)) in Hlb. subst a b.
  by rewrite N.eqb_refl in Ha.
Qed.

Lemma lower_sanitized c :
  is_name_char c || (c =? UNDERSCORE)%N = true -> is_sanitized_char (lower c) = true.
Proof.
  unfold is_name_char, is_sanitized_char, lower, UNDERSCORE. intros H.
  repeat match goal with
         | |- context [N.leb ?a ?b] => destruct (N.leb_spec a b)
         | |- context [N.eqb ?a ?b] => destruct (N.eqb_spec a b)
         | H : context [N.leb ?a ?b] |- _ => destruct (N.leb_spec a b)
         | H : context [N.eqb ?a ?b] |- _ => destruct (N.eqb_spec a b)
         end; cbn in *; try done; lia.
Qed.

(** X25.  A name returned by [sanitizeFilename] consists of small
    letters, digits, dots, hyphens and underscores only; it has no two
    underscores in a row and none at either end.  Dots are kept, so
    the result can still be [.] or [..]. *)
Theorem sanitizeFilename_shape (filename : Text) :
  Forall (fun c => is_sanitized_char c = true) (sanitizeFilename filename) /\
  no_double UNDERSCORE (sanitizeFilename filename) = true /\
  head (sanitizeFilename filename) <> Some UNDERSCORE /\
  last (sanitizeFilename filename) <> Some UNDERSCORE /\
  (Forall (fun c => c = 46%N) filename -> sanitizeFilename filename = filename).
Proof.
  unfold sanitizeFilename.
  set (collapsed := collapse_underscores (replace_other filename)).
  assert (Hchars : Forall (fun c => is_name_char c || (c =? UNDERSCORE)%N = true)
                          collapsed).
  { apply collapse_underscores_Forall; [done|].
    unfold replace_other. apply Forall_map, Forall_forall. intros c _. cbn.
    destruct (is_name_char c) eqn:Hc; [by rewrite Hc|done]. }
  assert (Hnd : no_double UNDERSCORE collapsed = true)
    by apply collapse_underscores_no_double.
  destruct (strip_ends_infix collapsed) as (pre & post & Hinfix).
  destruct (strip_ends_ends collapsed Hnd) as [Hhead Hlast].
  split; [|split; [|split; [|split]]].
  - apply Forall_map. rewrite Hinfix in Hchars. apply Forall_infix in Hchars.
    eapply Forall_impl; [exact Hchars|]. intros c. apply lower_sanitized.
  - apply no_double_lower. rewrite Hinfix in Hnd. by apply no_double_infix in Hnd.
  - destruct (strip_ends collapsed) as [|c l]; [done|]. cbn [map head] in *.
    intros [= Hc]. apply (proj1 (lower_underscore c)) in Hc. congruence.
  - change (last (lower <$> strip_ends collapsed) <> Some UNDERSCORE).
    rewrite fmap_last. destruct (last (strip_ends collapsed)) as [c|]; [|done].
    cbn. intros [= Hc]. apply (proj1 (lower_underscore c)) in Hc. congruence.
  - clear. unfold collapsed. clear collapsed. intros Hdots.
    assert (Hsame : collapse_underscores (replace_other filename) = filename).
    { unfold replace_other. induction Hdots as [|c s -> _ IH]; [done|].
      cbn [map]. change (is_name_char 46) with true. cbn iota.
      cbn [collapse_underscores].
      change ((46 =? UNDERSCORE)%N) with false. cbn iota. by rewrite IH. }
    rewrite Hsame.
    assert (Hstrip : strip_ends filename = filename).
    { unfold strip_ends, strip_last. destruct Hdots as [|c s -> Hs]; [done|].
      change ((46 =? UNDERSCORE)%N) with false. cbn iota.
      destruct (reverse (46%N :: s)) as [|x before] eqn:Hr; [done|].
      assert (Hx : x = 46%N).
      { assert (Hin : x ∈ reverse (46%N :: s)) by (rewrite Hr; left).
        rewrite elem_of_reverse in Hin.
        assert (Hall : Forall (fun c => c = 46%N) (46%N :: s)) by by constructor.
        rewrite Forall_forall in Hall. by apply Hall. }
      by rewrite Hx. }
    rewrite Hstrip. clear Hsame Hstrip.
    induction Hdots as [|c s -> _ IH]; [done|]. cbn [map]. by rewrite IH.
Qed.

(** ** An audit gives back its slots *)

Lemma untouched_refl w : untouched w w.
Proof. by repeat split. Qed.

Lemma untouched_trans a b c : untouched a b -> untouched b c -> untouched a c.
Proof. intros (H1 & H2 & H3) (K1 & K2 & K3). repeat split; congruence. Qed.

Lemma balanced_refl w : balanced w w.
Proof. repeat split; lia. Qed.

Lemma balanced_trans a b c : balanced a b -> balanced b c -> balanced a c.
Proof.
  intros (H1 & H2 & H3 & H4) (K1 & K2 & K3 & K4).
  repeat split; try congruence. lia.
Qed.

Lemma untouched_balanced w w' : untouched w w' -> balanced w w'.
Proof.
  intros (Hs & Ha & Hr). unfold balanced. rewrite Hs, Ha, Hr. repeat split; lia.
Qed.

Lemma idle_balanced w w' : idle w -> balanced w w' -> idle w'.
Proof.
  intros [Hq Hcs] (H1 & H2 & H3 & _). split; [congruence|]. rewrite H1, H2. exact Hcs.
Qed.

Lemma acquired_add_log e w :
  acquired (add_log e w) = (acquired w + (if is_acquired e then 1 else 0))%nat.
Proof. apply count_event_add_log. Qed.

Lemma released_add_log e w :
  released (add_log e w) = (released w + (if is_released e then 1 else 0))%nat.
Proof. apply count_event_add_log. Qed.

Ltac untouched_update :=
  split; [reflexivity|];
  split;
    first [ reflexivity
          | rewrite ?acquired_add_log, ?released_add_log;
            cbn [is_acquired is_released]; apply Nat.add_0_r ].

Ltac untouched_step :=
  frame_step untouched_refl untouched_trans ltac:(untouched_update).

Lemma untouched_initialize env : effect (initialize env) untouched.
Proof. unfold initialize, emit. repeat untouched_step. Qed.

Lemma untouched_validateUrl env (urlString : string) :
  effect (validateUrl env urlString) untouched.
Proof.
  intros w r w' H. rewrite validateUrl_eq in H. injection H as <- <-.
  apply untouched_refl.
Qed.

Lemma untouched_extractAuditData env html baseUrl statusCode :
  effect (extractAuditData env (St := World) html baseUrl statusCode) untouched.
Proof. unfold extractAuditData. repeat untouched_step. Qed.

Lemma returns_of_untouched {A} (m : M World A) :
  effect m untouched -> returns_slots m.
Proof. intros Hm w r w' _ H _. apply untouched_balanced. by eapply Hm. Qed.

Lemma returns_bind {A B} (m : M World A) (k : A -> M World B) :
  returns_slots m -> (forall a, returns_slots (k a)) -> returns_slots (bindM m k).
Proof.
  intros Hm Hk w r w' Hidle H Hr.
  apply bind_inv in H as [(a & w1 & Hm1 & Hk1)|[(e & Hm1 & ->)|(Hm1 & ->)]];
    [| |done].
  - assert (Hb : balanced w w1) by (eapply Hm; done).
    eapply balanced_trans; [exact Hb|].
    eapply Hk; [|exact Hk1|exact Hr]. by eapply idle_balanced.
  - by eapply Hm.
Qed.

Lemma returns_try_catch {A} (m : M World A) (h : Thrown -> M World A) :
  returns_slots m -> (forall e, returns_slots (h e)) ->
  returns_slots (try_catch m h).
Proof.
  intros Hm Hh w r w' Hidle H Hr.
  apply try_catch_inv in H as [[H _]|(e & w1 & Hm1 & Hh1)].
  - by eapply Hm.
  - assert (Hb : balanced w w1) by (eapply Hm; done).
    eapply balanced_trans; [exact Hb|].
    eapply Hh; [|exact Hh1|exact Hr]. by eapply idle_balanced.
Qed.

Lemma slot_taken_and_returned s :
  queue s = [] -> 0 <= currentSlots s < maxConcurrentPages s ->
  currentSlots (releaseSlot (acquireSlot s)) = currentSlots s /\
  maxConcurrentPages (releaseSlot (acquireSlot s)) = maxConcurrentPages s /\
  queue (releaseSlot (acquireSlot s)) = queue s.
Proof.
  intros Hq Hcs. destruct (slot_returns s Hcs Hq) as [H1 H2].
  rewrite max_releaseSlot, max_acquireSlot, Hq. by repeat split.
Qed.

Lemma loadPage_returns_slot env (url : string) (options : AuditOptions) :
  pages_keep_browser env -> returns_slots (loadPage env url options).
Proof.
  intros Hpages w r w' [Hq Hcs] Hrun Hr.
  unfold loadPage in Hrun. rewrite bind_get, bind_modify in Hrun. cbn beta in Hrun.
  rewrite (Hpages (loads w)) in Hrun.
  apply bind_inv in Hrun as [(a & w1 & Hinit & Hrun)|[(e & Hinit & ->)|(_ & ->)]];
    [| |done].
  2: { apply untouched_balanced. exact (untouched_initialize env _ _ _ Hinit). }
  destruct (untouched_initialize env _ _ _ Hinit) as (Hs1 & Ha1 & Hr1).
  change (slots (count_load w)) with (slots w) in Hs1.
  change (acquired (count_load w)) with (acquired w) in Ha1.
  change (released (count_load w)) with (released w) in Hr1.
  destruct a. apply initialize_returns_ready in Hinit.
  destruct (isReady_browser _ Hinit) as [b Hb].
  rewrite (bind_normal _ _ _ _ _
             (await_acquireSlot_free false w1 ltac:(rewrite Hs1; lia))) in Hrun.
  cbn [id] in Hrun. rewrite bind_get in Hrun.
  set (w2 := add_log EvAcquired (set_slots (acquireSlot (slots w1)) w1)) in *.
  change (browser w2) with (browser w1) in Hrun. rewrite Hb in Hrun.
  apply try_finally_inv in Hrun; [|done].
  destruct Hrun as (r1 & w3 & Hbody & _ & Hfin).
  pose proof (quiet_loadPage_try _ _ _ _ _ _ Hbody) as (Hs3 & _ & Ha3 & Hrel3).
  assert (Hfin' : exists w4,
             slots w4 = slots w3 /\ acquired w4 = acquired w3 /\
             released w4 = released w3 /\
             w' = add_log EvReleased (set_slots (releaseSlot (slots w4)) w4)).
  { destruct Hfin as [[Hf _]|(e & Hf & _)];
      apply bind_inv in Hf as [(a & w4 & Hclose & Hrel)|[(e' & Hclose & ?)|(Hclose & ?)]];
      try (apply loadPage_close_step in Hclose; [|done]; by destruct Hclose);
      try done.
    apply loadPage_close_step in Hclose; [|done].
    destruct Hclose as (_ & Hs4 & Ha4 & Hr4).
    rewrite release_step in Hrel. injection Hrel as <-. by exists w4. }
  destruct Hfin' as (w4 & Hs4 & Ha4 & Hr4 & ->).
  destruct (released_after_release w4) as [Hrel' Hacq'].
  assert (Ha2 : acquired w2 = (acquired w + 1)%nat).
  { unfold w2. rewrite acquired_add_log. cbn [is_acquired]. by rewrite <- Ha1. }
  assert (Hr2 : released w2 = released w).
  { unfold w2. rewrite released_add_log. cbn [is_released].
    rewrite Nat.add_0_r. exact Hr1. }
  unfold balanced. rewrite Hrel', Hacq', Ha4, Hr4, Ha3, Hrel3, Ha2, Hr2.
  cbn [slots add_log set_slots]. rewrite Hs4, Hs3.
  change (slots w2) with (acquireSlot (slots w1)). rewrite Hs1.
  destruct (slot_taken_and_returned (slots w) Hq Hcs) as (H1 & H2 & H3).
  repeat split; try done. lia.
Qed.

Lemma screenshotUrl_returns_slot env (url : string) (opts : ScreenshotOpts) :
  shots_close env -> returns_slots (screenshotUrl env url opts).
Proof.
  intros Hshots w r w' [Hq Hcs] Hrun Hr.
  unfold screenshotUrl in Hrun. rewrite bind_get, bind_modify in Hrun.
  cbn beta in Hrun. specialize (Hshots (shots w)).
  set (sc := shot_script env (shots w)) in *.
  apply bind_inv in Hrun as [(a & w1 & Hinit & Hrun)|[(e & Hinit & ->)|(_ & ->)]];
    [| |done].
  2: { apply untouched_balanced. exact (untouched_initialize env _ _ _ Hinit). }
  destruct (untouched_initialize env _ _ _ Hinit) as (Hs1 & Ha1 & Hr1).
  change (slots (count_shot w)) with (slots w) in Hs1.
  change (acquired (count_shot w)) with (acquired w) in Ha1.
  change (released (count_shot w)) with (released w) in Hr1.
  destruct a. apply initialize_returns_ready in Hinit.
  destruct (isReady_browser _ Hinit) as [b Hb].
  rewrite (bind_normal _ _ _ _ _
             (await_acquireSlot_free (s_browser_lost sc) w1
                ltac:(rewrite Hs1; lia))) in Hrun.
  rewrite bind_get in Hrun.
  set (w2 := add_log EvAcquired (set_slots (acquireSlot (slots w1)) w1)) in *.
  assert (Ha2 : acquired w2 = (acquired w + 1)%nat).
  { unfold w2. rewrite acquired_add_log. cbn [is_acquired]. by rewrite <- Ha1. }
  assert (Hr2 : released w2 = released w).
  { unfold w2. rewrite released_add_log. cbn [is_released].
    rewrite Nat.add_0_r. exact Hr1. }
  destruct (slot_taken_and_returned (slots w) Hq Hcs) as (H1 & H2 & H3).
  assert (Hdone : forall x,
            slots x = slots w2 -> acquired x = acquired w2 ->
            released x = released w2 ->
            balanced w (add_log EvReleased (set_slots (releaseSlot (slots x)) x))).
  { intros x Hsx Hax Hrx. destruct (released_after_release x) as [Hrel' Hacq'].
    unfold balanced. rewrite Hrel', Hacq', Hax, Hrx, Ha2, Hr2.
    cbn [slots add_log set_slots]. rewrite Hsx.
    change (slots w2) with (acquireSlot (slots w1)). rewrite Hs1.
    repeat split; try done. lia. }
  destruct (s_browser_lost sc) eqn:Hlost.
  - cbn [browser on_disconnected set_browser] in Hrun.
    unfold call_releaseSlot in Hrun. rewrite bind_modify in Hrun.
    injection Hrun as _ <-. by apply (Hdone (on_disconnected w2)).
  - destruct Hshots as [Hl|[Hnew Hclose]]; [discriminate|].
    cbn [id] in Hrun. change (browser w2) with (browser w1) in Hrun.
    rewrite Hb, Hnew, bind_ext, bind_emit in Hrun.
    apply try_finally_inv in Hrun; [|done].
    destruct Hrun as (r1 & w3 & Hbody & _ & Hfin).
    match type of Hbody with ?body _ = _ =>
      assert (Hquiet : quiet body) by quiet_steps
    end.
    destruct (Hquiet _ _ _ Hbody) as (Hs3 & _ & Ha3 & Hrel3).
    rewrite Hclose in Hfin.
    assert (Hw' : w' = add_log EvReleased
                         (set_slots (releaseSlot (slots (add_log EvClosePage w3)))
                                    (add_log EvClosePage w3))).
    { destruct Hfin as [[Hf _]|(e & Hf & _)];
        rewrite bind_ext, bind_emit, release_step in Hf; [|done].
      by injection Hf as <-. }
    rewrite Hw'. apply Hdone.
    + cbn [slots add_log]. by rewrite Hs3.
    + rewrite acquired_add_log. cbn [is_acquired]. rewrite Nat.add_0_r, Ha3.
      rewrite acquired_add_log. cbn [is_acquired]. by rewrite Nat.add_0_r.
    + rewrite released_add_log. cbn [is_released]. rewrite Nat.add_0_r, Hrel3.
      rewrite released_add_log. cbn [is_released]. by rewrite Nat.add_0_r.
Qed.

Lemma returns_retry_from env {T} (fn : M World T) maxRetries baseDelay :
  returns_slots fn ->
  forall remaining attempt lastError,
    returns_slots (retry_from (H := world_runtime env) fn maxRetries baseDelay
                     remaining attempt lastError).
Proof.
  intros Hfn. induction remaining as [|remaining IH]; intros attempt lastError.
  - apply returns_of_untouched. apply effect_throw, untouched_refl.
  - cbn [retry_from]. apply returns_try_catch; [exact Hfn|]. intros error.
    destruct (attempt =? maxRetries).
    + apply returns_of_untouched. apply effect_throw, untouched_refl.
    + apply returns_bind.
      * apply returns_of_untouched. intros w r w' H.
        cbn [Math_random world_runtime] in H. injection H as _ <-.
        by repeat split.
      * intros r. apply returns_bind; [|intros _; apply IH].
        apply returns_of_untouched, effect_modify. intros w.
        cbn [setTimeout_wait world_runtime]. by repeat split.
Qed.

Lemma returns_auditWebsite env (url : string) (options : AuditOptions) :
  pages_keep_browser env -> shots_close env ->
  returns_slots (auditWebsite env url options).
Proof.
  intros Hpages Hshots. unfold auditWebsite, measureExecutionTime.
  apply returns_try_catch;
    [|intros error; apply returns_of_untouched, effect_ret, untouched_refl].
  apply returns_bind; [apply returns_of_untouched, untouched_validateUrl|].
  intros v. destruct (negb (vr_success v));
    [apply returns_of_untouched, effect_ret, untouched_refl|].
  apply returns_bind.
  { unfold loadPageWithRetry, retryWithBackoff. apply returns_retry_from.
    apply returns_bind; [by apply loadPage_returns_slot|].
    intros res. apply returns_of_untouched.
    destruct (negb (plr_success res)); repeat untouched_step. }
  intros page. destruct (negb (plr_success page));
    [apply returns_of_untouched, effect_ret, untouched_refl|].
  apply returns_bind.
  { apply returns_of_untouched. unfold parseHtmlContent.
    repeat first [ apply untouched_extractAuditData | untouched_step ]. }
  intros parseResult. apply returns_bind.
  { destruct (opt_includeScreenshot options);
      [|apply returns_of_untouched, effect_ret, untouched_refl].
    apply returns_try_catch;
      [|intros e; apply returns_of_untouched, effect_ret, untouched_refl].
    apply returns_bind; [by apply screenshotUrl_returns_slot|].
    intros shots. apply returns_of_untouched, effect_ret, untouched_refl. }
  intros auditResult. apply returns_of_untouched. repeat untouched_step.
Qed.

(** X26.  An audit gives back every slot it takes, provided the
    browser is not lost while a page load waits for its slot and every
    screenshot call that opens a page can close it: started with a
    free slot and nobody waiting, an audit that completes leaves the
    slot counter and the queue as they were, and has released as many
    slots as it acquired, over all its retries and its screenshot. *)
Theorem audit_returns_its_slots env (url : string) (options : AuditOptions)
    w r w' :
  pages_keep_browser env -> shots_close env -> idle w ->
  auditWebsite env url options w = (r, w') -> r <> Pending ->
  idle w' /\
  currentSlots (slots w') = currentSlots (slots w) /\
  (acquired w' + released w = acquired w + released w')%nat.
Proof.
  intros Hpages Hshots Hidle H Hr.
  pose proof (returns_auditWebsite env url options Hpages Hshots w r w' Hidle H Hr)
    as Hb.
  split; [by eapply idle_balanced|]. by destruct Hb as (H1 & _ & _ & H4).
Qed.

Lemma audit_returns_its_slots_witness :
  let run := auditWebsite unreachable_env "https://example.com/" with_screenshot
               (started unreachable_env) in
  currentSlots (slots (snd run)) = 0 /\
  acquired (snd run) = 3%nat /\ released (snd run) = 3%nat.
Proof.
  intros run.
  destruct (audit_returns_its_slots unreachable_env "https://example.com/"
              with_screenshot (started unreachable_env) (fst run) (snd run))
    as (_ & Hcs & _).
  - intros n. reflexivity.
  - intros n. right. by split.
  - split; [reflexivity|]. cbn. lia.
  - unfold run. by destruct (auditWebsite _ _ _ _).
  - vm_compute. discriminate.
  - split; [exact Hcs|]. split; vm_compute; reflexivity.
Defined.

Lemma returns_quickAudit env seo_title seo_description
    (url : string) (options : AuditOptions) :
  pages_keep_browser env ->
  returns_slots (quickAudit env seo_title seo_description url options).
Proof.
  intros Hpages. unfold quickAudit.
  apply returns_try_catch;
    [|intros error; apply returns_of_untouched, effect_ret, untouched_refl].
  apply returns_bind; [apply returns_of_untouched, untouched_validateUrl|].
  intros v. destruct (negb (vr_success v));
    [apply returns_of_untouched, effect_ret, untouched_refl|].
  apply returns_bind; [by apply loadPage_returns_slot|].
  intros page. apply returns_of_untouched.
  destruct (negb (plr_success page)); [repeat untouched_step|].
  repeat first [ apply untouched_extractAuditData | untouched_step ].
Qed.

Lemma returns_checkUrlAccessibility env (url : string) :
  pages_keep_browser env -> returns_slots (checkUrlAccessibility env url).
Proof.
  intros Hpages. unfold checkUrlAccessibility.
  apply returns_try_catch;
    [|intros error; apply returns_of_untouched, effect_ret, untouched_refl].
  apply returns_bind; [apply returns_of_untouched, untouched_validateUrl|].
  intros v. destruct (negb (vr_success v));
    [apply returns_of_untouched; repeat untouched_step|].
  apply returns_bind; [by apply loadPage_returns_slot|].
  intros page. apply returns_of_untouched, effect_ret, untouched_refl.
Qed.

(** X27.  [quickAudit] and [checkUrlAccessibility] give back the slot
    they take, under the same condition: started with a free slot and
    nobody waiting, a call that completes leaves the slot counter as
    it was and has released as many slots as it acquired. *)
Theorem quick_calls_return_their_slot env seo_title seo_description
    (url : string) (options : AuditOptions) w :
  pages_keep_browser env -> idle w ->
  (forall r w',
     quickAudit env seo_title seo_description url options w = (r, w') ->
     r <> Pending ->
     idle w' /\ currentSlots (slots w') = currentSlots (slots w) /\
     (acquired w' + released w = acquired w + released w')%nat) /\
  (forall r w',
     checkUrlAccessibility env url w = (r, w') ->
     r <> Pending ->
     idle w' /\ currentSlots (slots w') = currentSlots (slots w) /\
     (acquired w' + released w = acquired w + released w')%nat).
Proof.
  intros Hpages Hidle. split; intros r w' H Hr.
  - pose proof (returns_quickAudit env seo_title seo_description url options
                  Hpages w r w' Hidle H Hr) as Hb.
    split; [by eapply idle_balanced|]. by destruct Hb as (H1 & _ & _ & H4).
  - pose proof (returns_checkUrlAccessibility env url Hpages w r w' Hidle H Hr)
      as Hb.
    split; [by eapply idle_balanced|]. by destruct Hb as (H1 & _ & _ & H4).
Qed.

Lemma quick_calls_return_their_slot_witness :
  let run := checkUrlAccessibility reachable_env "https://example.com/"
               (started reachable_env) in
  currentSlots (slots (snd run)) = 0 /\
  acquired (snd run) = 1%nat /\ released (snd run) = 1%nat.
Proof.
  intros run.
  destruct (quick_calls_return_their_slot reachable_env (fun seo => seo)
              (fun seo => seo) "https://example.com/" no_options
              (started reachable_env)) as [_ Hcheck].
  - intros n. reflexivity.
  - split; [reflexivity|]. cbn. lia.
  - destruct (Hcheck (fst run) (snd run)) as (_ & Hcs & _).
    + unfold run. by destruct (checkUrlAccessibility _ _ _).
    + vm_compute. discriminate.
    + split; [exact Hcs|]. split; vm_compute; reflexivity.
Defined.
